(** * Conflation of river trees and split-form watershed boundaries

    A shallow embedding of [workflow/hydrography.py], of the raster
    sampling, the colouring of rasters, the search for a hydrologic unit and
    the pipeline entry point of [workflow/hilev.py], of the file managers of
    [workflow/sources/manager_nhd.py] and of the extent of the plots of
    [workflow/bin_utils.py].

    Numbers.  Python floats are modelled by exact rationals ([Q]); rounding
    is outside the model.  Square roots (Euclidean distance, length, norm)
    are taken by [Qsqrt], a fixed-point square root that is exact on the
    squares of numbers with at most twelve decimals.

    Effects.  The source mutates tree nodes and the segment pool in place;
    here both live in explicit stores (a node arena and a segment pool,
    addressed by index) that are threaded through every operation.  Python
    exceptions are the [Raise] results of the [result] type. *)

From Stdlib Require Import QArith Qabs Qround ZArith Lia Lqa String Sorted.
From Stdlib Require Import Ascii DecimalString DecimalNat.
From stdpp Require Import base list.

Open Scope Z_scope.
Open Scope Q_scope.

(** ** Results and exceptions *)

Inductive exn : Set :=
  | AssertionError
  | AttributeError
  | IndexError
  | TypeError
  | ValueError
  | UnboundLocalError
  | KeyError
  | RecursionError.

Inductive result (A : Type) : Type :=
  | Ok (a : A)
  | Raise (e : exn).

Arguments Ok {A} a.
Arguments Raise {A} e.

Definition rbind {A B} (m : result A) (k : A -> result B) : result B :=
  match m with
  | Ok a => k a
  | Raise e => Raise e
  end.

Notation "'do' x <- m ; k" := (rbind m (fun x => k))
  (at level 10, x name, m at level 100, k at level 200).

Definition raises {A} (m : result A) : Prop := exists e, m = Raise e.

Fixpoint rmapM {A B} (f : A -> result B) (l : list A) : result (list B) :=
  match l with
  | [] => Ok []
  | a :: l' => do b <- f a ; do bs <- rmapM f l' ; Ok (b :: bs)
  end.

(** A [for] loop over [l] that threads the state [s] and stops at the first
    exception. *)
Fixpoint rfold {A S} (f : S -> A -> result S) (s : S) (l : list A) : result S :=
  match l with
  | [] => Ok s
  | a :: l' => do s' <- f s a ; rfold f s' l'
  end.

Definition of_option {A} (e : exn) (o : option A) : result A :=
  match o with Some a => Ok a | None => Raise e end.

(** ** Python and numpy primitives *)

(** [min(a, b)] and [max(a, b)] of Python: the first argument wins unless
    the second is strictly smaller (larger). *)
Definition py_min (a b : Q) : Q := if Qlt_le_dec b a then b else a.
Definition py_max (a b : Q) : Q := if Qlt_le_dec a b then b else a.

(** Indexing a numpy axis of size [n] with the integer [i]: negative indices
    count from the end, anything else out of range is an [IndexError]. *)
Definition np_index {A} (l : list A) (i : Z) : result A :=
  let n := Z.of_nat (length l) in
  let k := (if Z.ltb i 0 then i + n else i)%Z in
  if (Z.leb 0 k && Z.ltb k n)%bool
  then match l !! Z.to_nat k with Some a => Ok a | None => Raise IndexError end
  else Raise IndexError.

(** ** Raster sampling ([hilev.values_from_raster]) *)

Module Raster.

(** An affine map of rasterio, [(x, y) |-> (a x + b y + c, d x + e y + f)]. *)
Record Affine := { af_a : Q; af_b : Q; af_c : Q; af_d : Q; af_e : Q; af_f : Q }.

Definition apply (t : Affine) (xy : Q * Q) : Q * Q :=
  (af_a t * fst xy + af_b t * snd xy + af_c t,
   af_d t * fst xy + af_e t * snd xy + af_f t).

(** The rasterio profile fields the function reads; [inv_transform] is
    [~raster_profile['transform']], the world-to-pixel map. *)
Record profile := { height : Z; width : Z; inv_transform : Affine }.

Abbreviation raster := (list (list Q)) (only parsing).

(** [raster[r, c]]. *)
Definition getitem (ras : raster) (r c : Z) : result Q :=
  do row <- np_index ras r ; np_index row c.

Definition well_shaped (ras : raster) (p : profile) : Prop :=
  Z.of_nat (length ras) = height p /\
  Forall (fun row => Z.of_nat (length row) = width p) ras.

Inductive algorithm := nearest | piecewise_bilinear | other_algorithm.

Definition eps : Q := 1 # 10000000000.

(** [rasterio.transform.rowcol]: the pixel containing the point, by flooring
    the inverse transform. *)
Definition rowcol (p : profile) (xy : Q * Q) : Z * Z :=
  let '(fcol, frow) := apply (inv_transform p) xy in
  (Qfloor frow, Qfloor fcol).

(** The clamp of the bilinear branch, [max(eps, min(dim-1-eps, i))]. *)
Definition clamp (dim : Z) (i : Q) : Q :=
  py_max eps (py_min (inject_Z dim - 1 - eps) i).

Definition bilinear_at (ras : raster) (p : profile) (xy : Q * Q) : result Q :=
  let '(j, i) := apply (inv_transform p) xy in
  let i := i - (1 # 2) in
  let j := j - (1 # 2) in
  let i := clamp (height p) i in
  let j := clamp (width p) j in
  do b00 <- getitem ras (Qfloor i) (Qfloor j) ;
  do b01 <- getitem ras (Qfloor i) (Qceiling j) ;
  do b10 <- getitem ras (Qceiling i) (Qfloor j) ;
  do b11 <- getitem ras (Qceiling i) (Qceiling j) ;
  let ii := i - inject_Z (Qfloor i) in
  let jj := j - inject_Z (Qfloor j) in
  let up := b00 + jj * (b01 - b00) in
  let dn := b10 + jj * (b11 - b10) in
  Ok (up + (dn - up) * ii).

(** [points] are already in the raster's coordinate system (the warp is an
    external capability). *)
Definition values_from_raster (points : list (Q * Q)) (ras : raster)
    (p : profile) (alg : algorithm) : result (list Q) :=
  match alg with
  | nearest =>
      rmapM (fun xy => let '(r, c) := rowcol p xy in getitem ras r c) points
  | piecewise_bilinear => rmapM (bilinear_at ras p) points
  | other_algorithm => Raise UnboundLocalError
  end.

End Raster.

(** ** Planar geometry *)

Abbreviation coord := (Q * Q)%type (only parsing).

(** A line string: its coordinate sequence. *)
Abbreviation Segment := (list coord) (only parsing).

Definition coord_eqb (p q : coord) : bool :=
  Qeq_bool (fst p) (fst q) && Qeq_bool (snd p) (snd q).

(** [s.coords[0]], [s.coords[1]], [s.coords[-1]], [s.coords[-2]]. *)
Definition coords_first (s : Segment) : result coord :=
  of_option IndexError (s !! 0%nat).
Definition coords_second (s : Segment) : result coord :=
  of_option IndexError (s !! 1%nat).
Definition coords_last (s : Segment) : result coord :=
  of_option IndexError (last s).
Definition coords_penultimate (s : Segment) : result coord :=
  of_option IndexError (last (removelast s)).

(** Fixed-point square root, truncated at twelve decimals. *)
Definition Qsqrt (q : Q) : Q :=
  Qred (Z.sqrt ((Qnum q * 10 ^ 24) / Zpos (Qden q)) # 10 ^ 12).

Definition sub (p q : coord) : coord := (fst p - fst q, snd p - snd q).
Definition inner (p q : coord) : Q := fst p * fst q + snd p * snd q.
Definition norm (p : coord) : Q := Qsqrt (inner p p).
Definition dist2 (p q : coord) : Q := inner (sub p q) (sub p q).

(** Modelled from the spec: [workflow.utils.distance], the Euclidean
    distance of two coordinates ([workflow/utils.py] is not among the
    sources). *)
Definition distance (p q : coord) : Q := norm (sub p q).

(** [LineString.length]. *)
Fixpoint seg_length (s : Segment) : Q :=
  match s with
  | p :: (q :: _) as s' => distance p q + seg_length s'
  | _ => 0
  end.

(** [cKDTree(coords).query_ball_point(p, r)]: the indices of the points
    within distance [r] of [p] (bound included), here in ascending order.
    The test is made on squared distances, which is exact. *)
Definition query_ball_point (coords : list coord) (p : coord) (r : Q) : list nat :=
  if Qlt_le_dec r 0 then []
  else map fst (filter (fun ic => Qle_bool (dist2 (snd ic) p) (r * r))
                       (imap (fun i c => (i, c)) coords)).

(** [np.argmax]: the first index of a maximal entry. *)
Fixpoint argmax_from (best : nat) (bv : Q) (i : nat) (l : list Q) : nat :=
  match l with
  | [] => best
  | x :: l' => if Qlt_le_dec bv x then argmax_from i x (S i) l'
               else argmax_from best bv (S i) l'
  end.

Definition argmax (l : list Q) : nat :=
  match l with
  | [] => 0%nat
  | x :: l' => argmax_from 0%nat x 1%nat l'
  end.

(** [cKDTree(coords)]: the tree cannot be built on no point at all. *)
Definition cKDTree (coords : list coord) : result (list coord) :=
  match coords with
  | [] => Raise ValueError
  | _ => Ok coords
  end.

(** [kdtree.query(p)]: distance and index of the nearest point (the first
    one among equals). *)
Definition kd_query (coords : list coord) (p : coord) : result (Q * nat) :=
  let i := argmax (map (fun c => - dist2 c p) coords) in
  do c <- of_option IndexError (coords !! i) ;
  Ok (distance c p, i).

(** [sorted(l, key=key)]: a stable sort, by insertion. *)
Fixpoint insert_by {A} (key : A -> Q) (x : A) (l : list A) : list A :=
  match l with
  | [] => [x]
  | y :: l' => if Qlt_le_dec (key y) (key x) then y :: insert_by key x l'
               else x :: y :: l'
  end.

Definition sorted_by {A} (key : A -> Q) (l : list A) : list A :=
  foldr (insert_by key) [] l.

(** ** River trees *)

Module Tree.

(** Modelled from the spec: the river tree node of [workflow/tree.py], which
    is not among the sources.  A node owns one segment, a back-reference to
    its parent (none for a root) and an ordered collection of children.
    Nodes live in an arena and are addressed by index, so that the in-place
    updates of the source are updates of the arena. *)
Record Node := { segment : Segment; parent : option nat; children : list nat }.

Abbreviation arena := (list Node) (only parsing).

(** The fields of node [n]; those of an index that is not in the arena are
    empty. *)
Definition children_of (a : arena) (n : nat) : list nat :=
  match a !! n with Some nd => children nd | None => [] end.
Definition parent_of (a : arena) (n : nat) : option nat :=
  match a !! n with Some nd => parent nd | None => None end.
Definition segment_of (a : arena) (n : nat) : Segment :=
  match a !! n with Some nd => segment nd | None => [] end.

(** [Tree(segment)]. *)
Definition new (s : Segment) : Node :=
  {| segment := s; parent := None; children := [] |}.

Definition get (a : arena) (n : nat) : result Node :=
  of_option IndexError (a !! n).

(** [node.segment = s]. *)
Definition set_segment (a : arena) (n : nat) (s : Segment) : arena :=
  alter (fun nd => {| segment := s; parent := parent nd; children := children nd |}) n a.

Definition set_parent (a : arena) (n : nat) (p : option nat) : arena :=
  alter (fun nd => {| segment := segment nd; parent := p; children := children nd |}) n a.

Definition set_children (a : arena) (n : nat) (cs : list nat) : arena :=
  alter (fun nd => {| segment := segment nd; parent := parent nd; children := cs |}) n a.

(** Modelled from the spec: [p.addChild(c)] appends [c] to the children of
    [p] and makes [p] the parent of [c]. *)
Definition addChild (a : arena) (p c : nat) : arena :=
  let a := set_parent a c (Some p) in
  alter (fun nd => {| segment := segment nd; parent := parent nd;
                      children := children nd ++ [c] |}) p a.

(** [l.remove(x)] of a Python list: the first occurrence goes. *)
Fixpoint remove_first (x : nat) (l : list nat) : list nat :=
  match l with
  | [] => []
  | y :: l' => if Nat.eqb x y then l' else y :: remove_first x l'
  end.

(** Modelled from the spec: [n.remove()] detaches [n] from the children of
    its parent.  A root has no parent to be detached from. *)
Definition remove (a : arena) (n : nat) : result arena :=
  do nd <- get a n ;
  match parent nd with
  | None => Raise AttributeError
  | Some p =>
      do pd <- get a p ;
      Ok (set_children a p (remove_first n (children pd)))
  end.

(** Modelled from the spec: [n.preOrder()], the node and then the pre-order
    of each child in turn.  The recursion depth is bounded by [fuel]; a tree
    of an arena [a] is never deeper than [length a], so running out of fuel
    means a cycle, on which the source recurses without end. *)
Fixpoint preOrder_fuel (fuel : nat) (a : arena) (n : nat) : result (list nat) :=
  match fuel with
  | O => Raise RecursionError
  | S f =>
      do nd <- get a n ;
      do subs <- rmapM (preOrder_fuel f a) (children nd) ;
      Ok (n :: concat subs)
  end.

Definition preOrder (a : arena) (n : nat) : result (list nat) :=
  preOrder_fuel (S (length a)) a n.

Definition is_leaf (a : arena) (n : nat) : bool :=
  match a !! n with
  | Some nd => match children nd with [] => true | _ => false end
  | None => false
  end.

(** Modelled from the spec: [n.leaf_nodes()], the nodes of the tree that
    have no children. *)
Definition leaf_nodes (a : arena) (n : nat) : result (list nat) :=
  do ns <- preOrder a n ; Ok (filter (fun k => is_leaf a k = true) ns).

Definition segments_of (a : arena) (ns : list nat) : result (list Segment) :=
  rmapM (fun k => do nd <- get a k ; Ok (segment nd)) ns.

(** Modelled from the spec: [n.dfs()], the segments of all the nodes of the
    tree, depth first (the callers iterate over it for the reaches of a
    river). *)
Definition dfs (a : arena) (n : nat) : result (list Segment) :=
  do ns <- preOrder a n ; segments_of a ns.

(** Modelled from the spec: [n.leaves()], the segments of the leaf nodes. *)
Definition leaves (a : arena) (n : nat) : result (list Segment) :=
  do ns <- leaf_nodes a n ; segments_of a ns.

(** Modelled from the spec: [workflow.tree.is_consistent], the last
    coordinate of every child's segment is the first coordinate of its
    parent's segment. *)
Definition child_matches (a : arena) (p c : nat) : bool :=
  match a !! p, a !! c with
  | Some pd, Some cd =>
      match head (segment pd), last (segment cd) with
      | Some x, Some y => coord_eqb x y
      | _, _ => false
      end
  | _, _ => false
  end.

Definition node_consistent (a : arena) (n : nat) : bool :=
  match a !! n with
  | Some nd => forallb (child_matches a n) (children nd)
  | None => false
  end.

Definition is_consistent (a : arena) (n : nat) : bool :=
  match preOrder a n with
  | Ok ns => forallb (node_consistent a) ns
  | Raise _ => false
  end.

End Tree.

(** ** Forest construction and cleanup ([workflow/hydrography.py]) *)

Definition unit_vector (v : coord) : coord := (fst v / norm v, snd v / norm v).

(** The tie-break of [make_global_tree] for the node of segment [s] whose
    end has the several candidates [closest]: the candidate whose initial
    edge is best aligned with the final edge of [s]. *)
Definition tangent_dots (rivers : list Segment) (s : Segment)
    (closest : list nat) : result (list Q) :=
  do e <- coords_last s ;
  do e' <- coords_penultimate s ;
  let my_tan := unit_vector (sub e e') in
  do other_tans <-
    rmapM (fun c => do r <- of_option IndexError (rivers !! c) ;
                    do c1 <- coords_second r ;
                    do c0 <- coords_first r ;
                    Ok (unit_vector (sub c1 c0))) closest ;
  Ok (map (fun ot => inner ot my_tan) other_tans).

(** One turn of the loop of [make_global_tree], for node [j]; the state is
    the arena and the list [trees]. *)
Definition attach (rivers : list Segment) (coords : list coord) (tol : Q)
    (st : Tree.arena * list nat) (j : nat) : result (Tree.arena * list nat) :=
  let '(nodes, trees) := st in
  do n <- Tree.get nodes j ;
  do e <- coords_last (Tree.segment n) ;
  let closest := query_ball_point coords e tol in
  if (1 <? length closest)%nat then
    do dots <- tangent_dots rivers (Tree.segment n) closest ;
    do c <- of_option IndexError (closest !! argmax dots) ;
    Ok (Tree.addChild nodes c j, trees)
  else if (length closest =? 0)%nat then
    Ok (nodes, trees ++ [j])
  else
    do c <- of_option IndexError (closest !! 0%nat) ;
    Ok (Tree.addChild nodes c j, trees).

(** [make_global_tree(rivers, tol)]: node [j] of the arena is the node of
    [rivers[j]]; the second component is the returned list [trees]. *)
Definition make_global_tree (rivers : list Segment) (tol : Q)
    : result (Tree.arena * list nat) :=
  if (length rivers =? 0)%nat then Ok ([], [])
  else
    do coords <- rmapM coords_first rivers ;
    let nodes := map Tree.new rivers in
    rfold (attach rivers coords tol) (nodes, []) (seq 0 (length rivers)).

(** [prune(tree, prune_tol)]. *)
Definition prune_leaf (prune_tol : Q) (a : Tree.arena) (leaf : nat)
    : result Tree.arena :=
  do nd <- Tree.get a leaf ;
  if Qlt_le_dec (seg_length (Tree.segment nd)) prune_tol
  then Tree.remove a leaf
  else Ok a.

Definition prune (a : Tree.arena) (tree : nat) (prune_tol : Q)
    : result Tree.arena :=
  do ls <- Tree.leaf_nodes a tree ;
  rfold (prune_leaf prune_tol) a ls.

(** The inner loop of [merge]: the child gets the first coordinate of the
    parent of [node] as its last coordinate and is added to that parent.
    [node.parent] is [None] for a root, and [None.segment] raises. *)
Definition rehome (node : nat) (a : Tree.arena) (child : nat)
    : result Tree.arena :=
  do cd <- Tree.get a child ;
  do nd <- Tree.get a node ;
  do p <- of_option AttributeError (Tree.parent nd) ;
  do pd <- Tree.get a p ;
  do c0 <- coords_first (Tree.segment pd) ;
  let a := Tree.set_segment a child (removelast (Tree.segment cd) ++ [c0]) in
  Ok (Tree.addChild a p child).

Definition merge_node (tol : Q) (a : Tree.arena) (node : nat)
    : result Tree.arena :=
  do nd <- Tree.get a node ;
  if Qlt_le_dec (seg_length (Tree.segment nd)) tol then
    do a <- rfold (rehome node) a (Tree.children nd) ;
    Tree.remove a node
  else Ok a.

(** [merge(tree, tol)]: the loop runs over [list(tree.preOrder())], the
    pre-order as it is on entry. *)
Definition merge (a : Tree.arena) (tree : nat) (tol : Q) : result Tree.arena :=
  do ns <- Tree.preOrder a tree ;
  rfold (merge_node tol) a ns.

Section Cleanup.

(** [LineString.simplify] of shapely, an external capability. *)
Variable shapely_simplify : Segment -> Q -> Segment.

(** [simplify(tree, tol)]. *)
Definition simplify (a : Tree.arena) (tree : nat) (tol : Q) : result Tree.arena :=
  do ns <- Tree.preOrder a tree ;
  rfold (fun a node =>
           do nd <- Tree.get a node ;
           Ok (Tree.set_segment a node (shapely_simplify (Tree.segment nd) tol)))
        a ns.

(** [merge_tol != prune_tol] on optional numbers. *)
Definition tol_differ (x y : option Q) : bool :=
  match x, y with
  | None, None => false
  | Some u, Some v => negb (Qeq_bool u v)
  | _, _ => true
  end.

(** [cleanup(rivers, simp_tol, prune_tol, merge_tol)]; a tolerance of
    [None] switches its operator off. *)
Definition cleanup (a : Tree.arena) (rivers : list nat)
    (simp_tol prune_tol merge_tol : option Q) : result Tree.arena :=
  do a <- match simp_tol with
          | Some t => rfold (fun a tree => simplify a tree t) a rivers
          | None => Ok a
          end ;
  rfold (fun a tree =>
           do a <- match merge_tol with
                   | Some t => merge a tree t
                   | None => Ok a
                   end ;
           match prune_tol with
           | Some t => if tol_differ merge_tol prune_tol
                       then prune a tree t else Ok a
           | None => Ok a
           end)
        a rivers.

End Cleanup.

(** The scenario of two reaches, [A] flowing into [B]. *)
Definition seg_A : Segment := [(0, 0); (1, 1)].
Definition seg_B : Segment := [(1, 1); (2, 2)].

(** A two by two raster with the identity as world-to-pixel map. *)
Definition raster22 : Raster.raster := [[1; 2]; [3; 4]].
Definition profile22 : Raster.profile :=
  {| Raster.height := 2; Raster.width := 2;
     Raster.inv_transform := {| Raster.af_a := 1; Raster.af_b := 0; Raster.af_c := 0;
                                Raster.af_d := 0; Raster.af_e := 1; Raster.af_f := 0 |} |}.

(** A raster of a single row. *)
Definition raster12 : Raster.raster := [[1; 2]].
Definition profile12 : Raster.profile :=
  {| Raster.height := 1; Raster.width := 2;
     Raster.inv_transform := Raster.inv_transform profile22 |}.

(** A reach shorter than the join tolerance used with it. *)
Definition short_reach : Segment := [(0, 0); (5 # 100, 0)].

(** A river of two reaches whose outlet reach is one unit long. *)
Definition outlet_reach : Segment := [(0, 0); (1, 0)].
Definition upstream_reach : Segment := [(-50, 0); (0, 0)].

(** ** The split-form boundary *)

Module HUCs.

(** A component of the boundary: an entry of [hucs.boundaries] or of
    [hucs.intersections]. *)
Inductive comp_ref : Set :=
  | Boundary (b : nat)
  | Intersection (b : nat).

Definition comp_ref_eqb (x y : comp_ref) : bool :=
  match x, y with
  | Boundary a, Boundary b => Nat.eqb a b
  | Intersection a, Intersection b => Nat.eqb a b
  | _, _ => false
  end.

(** Modelled from the spec: the split-form boundary of [workflow/hucs.py],
    which is not among the sources.  [segments] is the segment pool, a
    handle being an index into it; a component is the ordered collection of
    the handles of its segments. *)
Record t := {
  segments : list Segment;
  boundaries : list (list nat);
  intersections : list (list nat)
}.

(** [hucs.segments[h]]. *)
Definition segment (h : t) (handle : nat) : result Segment :=
  of_option KeyError (segments h !! handle).

(** [hucs.segments[h] = seg]. *)
Definition set_segment (h : t) (handle : nat) (seg : Segment) : t :=
  {| segments := <[handle := seg]> (segments h);
     boundaries := boundaries h; intersections := intersections h |}.

(** [hucs.segments.add_many(segs)]: the new segments get the next handles. *)
Definition add_many (h : t) (segs : list Segment) : t * list nat :=
  ({| segments := segments h ++ segs;
      boundaries := boundaries h; intersections := intersections h |},
   seq (length (segments h)) (length segs)).

(** [itertools.chain(hucs.boundaries.items(), hucs.intersections.items())]. *)
Definition components (h : t) : list (comp_ref * list nat) :=
  imap (fun b c => (Boundary b, c)) (boundaries h) ++
  imap (fun b c => (Intersection b, c)) (intersections h).

(** [component.add_many(handles)]. *)
Definition component_add_many (h : t) (r : comp_ref) (handles : list nat) : t :=
  match r with
  | Boundary b =>
      {| segments := segments h;
         boundaries := alter (fun c => c ++ handles) b (boundaries h);
         intersections := intersections h |}
  | Intersection b =>
      {| segments := segments h;
         boundaries := boundaries h;
         intersections := alter (fun c => c ++ handles) b (intersections h) |}
  end.


End HUCs.

(** ** Phase 1: boundary endpoints to river endpoints *)

(** The coordinates indexed by [snap_polygon_endpoints]: [coords1], the last
    coordinate of every segment of [tree.dfs()] of every tree, followed by
    [coords2], the first coordinate of every segment of [tree.leaves()]. *)
Definition river_endpoints (a : Tree.arena) (rivers : list nat)
    : result (list coord) :=
  do coords1 <- rmapM (fun tree => do rs <- Tree.dfs a tree ;
                                   rmapM coords_last rs) rivers ;
  do coords2 <- rmapM (fun tree => do rs <- Tree.leaves a tree ;
                                   rmapM coords_first rs) rivers ;
  Ok (concat coords1 ++ concat coords2).

(** The body of the loop of [snap_polygon_endpoints] for one segment. *)
Definition snap_segment_ends (coords : list coord) (tol : Q) (seg : Segment)
    : result Segment :=
  do p0 <- coords_first seg ;
  do p1 <- coords_last seg ;
  do q0 <- kd_query coords p0 ;
  do q1 <- kd_query coords p1 ;
  let '(d0, i0) := q0 in
  let '(d1, i1) := q1 in
  if Qlt_le_dec (py_min d0 d1) tol then
    let new_seg := seg in
    do new_seg <- (if Qlt_le_dec d0 tol
                   then do c <- of_option IndexError (coords !! i0) ;
                        Ok (<[0%nat := c]> new_seg)
                   else Ok new_seg) ;
    do new_seg <- (if Qlt_le_dec d1 tol
                   then do c <- of_option IndexError (coords !! i1) ;
                        Ok (<[pred (length new_seg) := c]> new_seg)
                   else Ok new_seg) ;
    Ok new_seg
  else Ok seg.

(** [snap_polygon_endpoints(hucs, rivers, tol)]. *)
Definition snap_polygon_endpoints (a : Tree.arena) (hucs : HUCs.t)
    (rivers : list nat) (tol : Q) : result HUCs.t :=
  do coords <- river_endpoints a rivers ;
  do kdtree <- cKDTree coords ;
  do segs <- rmapM (snap_segment_ends kdtree tol) (HUCs.segments hucs) ;
  Ok {| HUCs.segments := segs;
        HUCs.boundaries := HUCs.boundaries hucs;
        HUCs.intersections := HUCs.intersections hucs |}.

(** ** Phase 2: river endpoints to the boundary *)

(** Which end of a river segment a request is about: index [0] or [-1]. *)
Inductive endpoint : Set := First | Last.

(** An entry [(seg_handle, component, endpoint, node)] of [to_add]. *)
Record request := {
  rq_handle : nat;
  rq_component : HUCs.comp_ref;
  rq_endpoint : endpoint;
  rq_node : nat
}.

(** A coordinate with the flag that tells a new coordinate (1) from one of
    the segment (0). *)
Abbreviation flagged := (coord * bool)%type (only parsing).

(** [[i for i,(c,f) in enumerate(new_coords) if f is 1]], the enumeration
    starting at [i]. *)
Fixpoint breakpoints_from (i : nat) (new_coords : list flagged) : list nat :=
  match new_coords with
  | [] => []
  | (_, f) :: l => if f then i :: breakpoints_from (S i) l
                   else breakpoints_from (S i) l
  end.

Definition breakpoint_inds (new_coords : list flagged) : list nat :=
  breakpoints_from 0 new_coords.

(** [l[i:j]]. *)
Definition slice {A} (i j : nat) (l : list A) : list A :=
  take (j - i) (drop i l).

(** The loop that breaks [new_coords] into segments at the breakpoints,
    with its two assertions; [ind_start] is the running start index. *)
Fixpoint break_at (new_coords : list flagged) (ind_start : nat)
    (inds : list nat) : result (list Segment) :=
  match inds with
  | [] =>
      if (S ind_start <? length new_coords)%nat
      then Ok [map fst (drop ind_start new_coords)]
      else Raise AssertionError
  | ind_end :: inds' =>
      if (ind_end =? 0)%nat then Raise AssertionError
      else
        do rest <- break_at new_coords ind_end inds' ;
        Ok (map fst (slice ind_start (S ind_end) new_coords) :: rest)
  end.

(** [new_coords[0][1] = 0; new_coords[-1][1] = 0]. *)
Definition clear_end_flags (l : list flagged) : list flagged :=
  alter (fun cf => (fst cf, false)) (pred (length l))
        (alter (fun cf => (fst cf, false)) 0%nat l).

(** The [while] loop that drops the river coordinates that are closer to
    the new coordinate than the end they follow, at the front of [coords]. *)
Fixpoint drop_closer (new_coord : coord) (coords : list coord) : list coord :=
  match coords with
  | c0 :: ((c1 :: _ :: _) as rest) =>
      if Qlt_le_dec (distance new_coord c1) (distance new_coord c0)
      then drop_closer new_coord rest
      else coords
  | _ => coords
  end.

(** The river segment with its end [ep] moved to [new_coord]. *)
Definition move_end (ep : endpoint) (new_coord : coord) (river : Segment)
    : Segment :=
  match ep with
  | First => <[0%nat := new_coord]> (drop_closer new_coord river)
  | Last => rev (<[0%nat := new_coord]> (drop_closer new_coord (rev river)))
  end.

Definition end_coord (ep : endpoint) (river : Segment) : result coord :=
  match ep with
  | First => coords_first river
  | Last => coords_last river
  end.

(** The capabilities of [workflow/utils.py] (not among the sources) and of
    shapely that the snapping consumes: the broad-phase test
    [in_neighborhood(point, line, tol)], [nearest_point(line, point)],
    [close(p, q, tol)] with the tolerance [close_tol] it has when none is
    given, and [line.project(point)], the arclength of the point along the
    line. *)
Class Geometry := {
  in_neighborhood : coord -> Segment -> Q -> bool;
  nearest_point : Segment -> coord -> coord;
  close : coord -> coord -> Q -> bool;
  close_tol : Q;
  project : Segment -> coord -> Q
}.

Section Snapping.

Context {G : Geometry}.

(** [_snap_and_cut(point, line, tol)]; [None] is [None]. *)
Definition _snap_and_cut (point : coord) (line : Segment) (tol : Q)
    : option coord :=
  if in_neighborhood point line tol then
    let nearest_p := nearest_point line point in
    let dist := distance nearest_p point in
    if Qlt_le_dec dist tol then
      if Qlt_le_dec dist (1 # 10000000) then
        if existsb (fun c => close point c close_tol) line then None
        else Some nearest_p
      else Some nearest_p
    else None
  else None.

(** The state of the first loop of [snap_endpoints] while it is at one
    node: the arena, the list [to_add] and the local [river]. *)
Abbreviation snap_state := (Tree.arena * list request * Segment)%type (only parsing).

(** One stage of the loop: the segments of the component are tried in
    turn for the end [ep] of [river]; the first one that yields a new
    coordinate moves the end, and the loop over the component breaks. *)
Fixpoint snap_stage (hucs : HUCs.t) (tol : Q) (node : nat)
    (component : HUCs.comp_ref) (ep : endpoint) (handles : list nat)
    (st : snap_state) : result snap_state :=
  match handles with
  | [] => Ok st
  | seg_handle :: handles' =>
      let '(a, to_add, river) := st in
      do seg <- HUCs.segment hucs seg_handle ;
      do p <- end_coord ep river ;
      match _snap_and_cut p seg tol with
      | Some new_coord =>
          let river := move_end ep new_coord river in
          Ok (Tree.set_segment a node river,
              to_add ++ [{| rq_handle := seg_handle; rq_component := component;
                            rq_endpoint := ep; rq_node := node |}],
              river)
      | None => snap_stage hucs tol node component ep handles' st
      end
  end.

(** The body of the loop over the nodes: both stages on every component. *)
Definition snap_node (hucs : HUCs.t) (tol : Q)
    (st : Tree.arena * list request) (node : nat)
    : result (Tree.arena * list request) :=
  let '(a, to_add) := st in
  do nd <- Tree.get a node ;
  do st' <- rfold (fun st (bc : HUCs.comp_ref * list nat) =>
                     do st <- snap_stage hucs tol node (fst bc) First (snd bc) st ;
                     snap_stage hucs tol node (fst bc) Last (snd bc) st)
                  (a, to_add, Tree.segment nd) (HUCs.components hucs) ;
  Ok (fst st').

(** [to_add_dict]: the requests grouped by segment handle, the handles in
    the order of their first request. *)
Fixpoint group_add (k : nat) (v : request) (d : list (nat * list request))
    : list (nat * list request) :=
  match d with
  | [] => [(k, [v])]
  | (k', vs) :: d' => if (k =? k')%nat then (k', vs ++ [v]) :: d'
                      else (k', vs) :: group_add k v d'
  end.

Definition group_requests (to_add : list request) : list (nat * list request) :=
  foldl (fun d r => group_add (rq_handle r) r d) [] to_add.

(** [p[2].segment.coords[p[1]]]: the coordinate a request stands for, read
    from the node as it is now. *)
Definition request_coord (a : Tree.arena) (p : request) : result coord :=
  do nd <- Tree.get a (rq_node p) ;
  end_coord (rq_endpoint p) (Tree.segment nd).

(** The local function [equal(p1, p2)]. *)
Definition equal (a : Tree.arena) (p1 p2 : request) : result bool :=
  do c1 <- request_coord a p1 ;
  do c2 <- request_coord a p2 ;
  if close c1 c2 (1 # 100000) then
    if HUCs.comp_ref_eqb (rq_component p1) (rq_component p2) then Ok true
    else Raise AssertionError
  else Ok false.

(** [all(not equal(p1, p2) for p2 in new_list)]. *)
Fixpoint all_not_equal (a : Tree.arena) (p1 : request) (new_list : list request)
    : result bool :=
  match new_list with
  | [] => Ok true
  | p2 :: l => do e <- equal a p1 p2 ;
               if e then Ok false else all_not_equal a p1 l
  end.

(** The loop that builds [new_list] from [insert_list]. *)
Definition dedup (a : Tree.arena) (insert_list : list request)
    : result (list request) :=
  rfold (fun new_list p1 =>
           do fresh <- all_not_equal a p1 new_list ;
           Ok (if fresh then new_list ++ [p1] else new_list))
        [] insert_list.

(** The new segments that replace [seg] when the coordinates [ins] are
    inserted into it.  The sort key [seg.project(Point(a))] is applied to
    the pair [a = [c, f]]; the point built from such a pair is the point of
    its coordinate [c], so the key is [project seg (fst a)].  [sorted] is
    stable, as [sorted_by] is. *)
Definition split_segment (seg : Segment) (ins : list coord)
    : result (list Segment) :=
  do c0 <- coords_first seg ;
  do cl <- coords_last seg ;
  let key := fun a : flagged => project seg (fst a) in
  if negb (close c0 cl close_tol) then
    let new_coords :=
      sorted_by key (map (fun c => (c, false)) seg ++
                     map (fun c => (c, true)) ins) in
    break_at new_coords 0 (breakpoint_inds new_coords)
  else
    let new_coords :=
      sorted_by key (map (fun c => (c, false)) (removelast seg) ++
                     map (fun c => (c, true)) ins) in
    match breakpoint_inds new_coords with
    | [] => Raise AssertionError
    | b0 :: _ =>
        let new_coords := drop b0 new_coords ++ take (S b0) new_coords in
        let new_coords := clear_end_flags new_coords in
        break_at new_coords 0 (breakpoint_inds new_coords)
    end.

(** The body of the last loop of [snap_endpoints], for one segment handle
    and its list of requests. *)
Definition insert_points (a : Tree.arena) (hucs : HUCs.t)
    (entry : nat * list request) : result HUCs.t :=
  let '(seg_handle, insert_list) := entry in
  do seg <- HUCs.segment hucs seg_handle ;
  do ins <- rmapM (request_coord a) insert_list ;
  do new_segs <- split_segment seg ins ;
  match new_segs, insert_list with
  | s0 :: new_segs', p0 :: _ =>
      let hucs := HUCs.set_segment hucs seg_handle s0 in
      let '(hucs, new_handles) := HUCs.add_many hucs new_segs' in
      Ok (HUCs.component_add_many hucs (rq_component p0) new_handles)
  | _, _ => Raise IndexError
  end.

(** The first loop of [snap_endpoints]: the nodes of the tree are snapped
    in pre-order; the result is the arena and the list [to_add]. *)
Definition snap_requests (a : Tree.arena) (hucs : HUCs.t) (tree : nat)
    (tol : Q) : result (Tree.arena * list request) :=
  do ns <- Tree.preOrder a tree ;
  rfold (snap_node hucs tol) (a, []) ns.

(** [snap_endpoints(tree, hucs, tol)]. *)
Definition snap_endpoints (a : Tree.arena) (hucs : HUCs.t) (tree : nat)
    (tol : Q) : result (Tree.arena * HUCs.t) :=
  do st <- snap_requests a hucs tree tol ;
  let '(a, to_add) := st in
  let to_add_dict := group_requests to_add in
  do to_add_dict2 <-
    rmapM (fun e : nat * list request =>
             do new_list <- dedup a (snd e) ; Ok (fst e, new_list))
          to_add_dict ;
  do hucs <- rfold (insert_points a) hucs to_add_dict2 ;
  Ok (a, hucs).

End Snapping.



(** ** The snap operation *)

Section Snap.

Context {G : Geometry}.

(** [list(hucs.polygons())], the ring check of the boundary, which walks
    the ring of every polygon and raises [AssertionError] when one does not
    close ([workflow/hucs.py] is not among the sources). *)
Variable polygons : HUCs.t -> result unit.

(** The loop of Phase 2 in [snap]: [snap_endpoints] on every tree in turn. *)
Definition phase2 (a : Tree.arena) (hucs : HUCs.t) (rivers : list nat) (tol : Q)
    : result (Tree.arena * HUCs.t) :=
  rfold (fun st tree => snap_endpoints (fst st) (snd st) tree tol) (a, hucs) rivers.

(** [all(workflow.tree.is_consistent(river) for river in rivers)]. *)
Definition rivers_consistent (a : Tree.arena) (rivers : list nat) : bool :=
  forallb (Tree.is_consistent a) rivers.

(** What [snap] leaves behind: the returned flag, the two mutated
    structures and the messages it logged. *)
Record snapped := {
  sn_result : bool;
  sn_rivers : Tree.arena;
  sn_hucs : HUCs.t;
  sn_log : list string
}.

(** The check made after each phase: [Some msg] is the message logged
    before [return False]. *)
Definition recheck (a : Tree.arena) (hucs : HUCs.t) (rivers : list nat)
    : result (option string) :=
  if negb (rivers_consistent a rivers)
  then Ok (Some "  ...resulted in inconsistent rivers!"%string)
  else match polygons hucs with
       | Ok _ => Ok None
       | Raise AssertionError => Ok (Some "  ...resulted in inconsistent HUCs"%string)
       | Raise e => Raise e
       end.

(** [snap(hucs, rivers, tol, tol_triples)]. *)
Definition snap (a : Tree.arena) (hucs : HUCs.t) (rivers : list nat)
    (tol : Q) (tol_triples : option Q) : result snapped :=
  if negb (rivers_consistent a rivers) then Raise AssertionError
  else
    do _ <- polygons hucs ;
    if (length rivers =? 0)%nat then
      Ok {| sn_result := true; sn_rivers := a; sn_hucs := hucs; sn_log := [] |}
    else
      let tol_triples := default tol tol_triples in
      let log := [" Snapping polygon segment boundaries to river endpoints"%string] in
      do hucs <- snap_polygon_endpoints a hucs rivers tol_triples ;
      do r <- recheck a hucs rivers ;
      match r with
      | Some msg =>
          Ok {| sn_result := false; sn_rivers := a; sn_hucs := hucs;
                sn_log := log ++ [msg] |}
      | None =>
          let log := log ++ [" Snapping river endpoints to the polygon"%string] in
          do st <- phase2 a hucs rivers tol ;
          let '(a, hucs) := st in
          do r <- recheck a hucs rivers ;
          match r with
          | Some msg =>
              Ok {| sn_result := false; sn_rivers := a; sn_hucs := hucs;
                    sn_log := log ++ [msg] |}
          | None =>
              Ok {| sn_result := true; sn_rivers := a; sn_hucs := hucs;
                    sn_log := log |}
          end
      end.

End Snap.

(** ** A planar instance of the geometry capabilities *)

Module Planar.

Definition Qabs_le (x tol : Q) : bool := Qle_bool (Qabs x) tol.

(** Bounding box of the line, grown by [tol], against the point. *)
Definition in_neighborhood (p : coord) (line : Segment) (tol : Q) : bool :=
  existsb (fun c => Qle_bool (fst c - tol) (fst p)) line &&
  existsb (fun c => Qle_bool (fst p) (fst c + tol)) line &&
  existsb (fun c => Qle_bool (snd c - tol) (snd p)) line &&
  existsb (fun c => Qle_bool (snd p) (snd c + tol)) line.

(** The parameter in [0, 1] of the point of the edge [a b] nearest to [p]. *)
Definition edge_param (a b p : coord) : Q :=
  let d := sub b a in
  if Qeq_bool (inner d d) 0 then 0
  else py_max 0 (py_min 1 (inner (sub p a) d / inner d d)).

Definition edge_point (a b : coord) (t : Q) : coord :=
  (fst a + t * (fst b - fst a), snd a + t * (snd b - snd a)).

(** The nearest point of the line to [p], with its squared distance to [p]
    and its arclength along the line; [before] is the length of the edges
    already passed. *)
Fixpoint nearest_on (before : Q) (line : Segment) (p : coord)
    : option (Q * coord * Q) :=
  match line with
  | a :: ((b :: _) as rest) =>
      let t := edge_param a b p in
      let q := edge_point a b t in
      let here := (dist2 q p, q, before + t * distance a b) in
      match nearest_on (before + distance a b) rest p with
      | Some ((d', _, _) as there) =>
          if Qlt_le_dec d' (dist2 q p) then Some there else Some here
      | None => Some here
      end
  | _ => None
  end.

Definition nearest_point (line : Segment) (p : coord) : coord :=
  match nearest_on 0 line p with
  | Some (_, q, _) => q
  | None => default p (head line)
  end.

Definition project (line : Segment) (p : coord) : Q :=
  match nearest_on 0 line p with
  | Some (_, _, s) => s
  | None => 0
  end.

(** Two coordinates agree within the absolute tolerance [tol]. *)
Definition close (p q : coord) (tol : Q) : bool :=
  Qabs_le (fst p - fst q) tol && Qabs_le (snd p - snd q) tol.

Definition geometry : Geometry :=
  Build_Geometry in_neighborhood nearest_point close (1 # 10000000) project.

End Planar.

(** ** The pipeline entry point ([hilev.simplify_and_prune]) *)

Module Hilev.

(** The names bound at the top level of [workflow/hydrography.py]: its
    imports and its functions; these are the attributes of the module
    [workflow.hydrography]. *)
Definition hydrography_names : list string :=
  ["math"; "copy"; "logging"; "np"; "plt"; "scipy"; "itertools"; "shapely";
   "workflow";
   "snap"; "_snap_and_cut"; "_snap_crossing"; "snap_crossings";
   "snap_polygon_endpoints"; "snap_endpoints"; "make_global_tree";
   "filter_rivers_to_huc"; "quick_cleanup"; "cleanup"; "prune"; "merge";
   "simplify"]%string.

(** [module.name]: looking up a name a module does not bind raises. *)
Definition getattr (names : list string) (name : string) : result unit :=
  if existsb (String.eqb name) names then Ok tt else Raise AttributeError.

(** A call with [given] positional arguments of a function that has
    [params] parameters. *)
Definition positional (params given : nat) : result unit :=
  if (given <=? params)%nat then Ok tt else Raise TypeError.

(** [snap(hucs, rivers, tol=0.1, tol_triples=None)] has four parameters. *)
Definition snap_params : nat := 4.

Section Pipeline.

Context {G : Geometry}.
Variable polygons : HUCs.t -> result unit.
Variable shapely_simplify : Segment -> Q -> Segment.

(** The collaborators of the pipeline that are not among the sources:
    [hucs.exterior()], [workflow.split_hucs.simplify(hucs, tol)] and
    [len(tree)]. *)
Variable shape : Type.
Variable exterior : HUCs.t -> shape.
Variable split_hucs_simplify : HUCs.t -> Q -> result HUCs.t.
Variable tree_len : Tree.arena -> nat -> nat.

(** What the call [filter_rivers_to_shape(shape, reaches, tol)] would do if
    [workflow.hydrography] bound that name. *)
Variable filter_rivers_to_shape : shape -> list Segment -> Q -> result (list Segment).

(** [simplify_and_prune(hucs, reaches, simplify, prune_reach_size,
    cut_intersections)]; the result is the returned forest. *)
Definition simplify_and_prune (hucs : HUCs.t) (reaches : list Segment)
    (simplify : Q) (prune_reach_size : nat) (cut_intersections : bool)
    : result (Tree.arena * list nat) :=
  let tol := simplify in
  do _ <- getattr hydrography_names "filter_rivers_to_shape" ;
  do reaches <- filter_rivers_to_shape (exterior hucs) reaches tol ;
  if (length reaches =? 0)%nat then Ok ([], [])
  else
    do _ <- getattr hydrography_names "make_global_tree" ;
    do forest <- make_global_tree reaches (1 # 10) ;
    let '(a, rivers) := forest in
    let rivers :=
      filter (fun t => (prune_reach_size <= tree_len a t)%nat) rivers in
    if (length rivers =? 0)%nat then Ok (a, rivers)
    else
      do _ <- getattr hydrography_names "cleanup" ;
      do a <- cleanup shapely_simplify a rivers (Some tol) (Some tol) (Some tol) ;
      do hucs <- split_hucs_simplify hucs tol ;
      do _ <- getattr hydrography_names "snap" ;
      do _ <- positional snap_params 5 ;
      do s <- snap polygons a hucs rivers tol (Some (3 * tol)) ;
      (* [rivers] is now the flag returned by [snap], and [len(rivers)]
         of a flag raises *)
      Raise TypeError.

End Pipeline.

End Hilev.

(** The forest of the scenario, as [make_global_tree] builds it: node 1 is
    the root [B], node 0 its child [A]. *)
Definition forest_AB : Tree.arena :=
  [ {| Tree.segment := seg_A; Tree.parent := Some 1%nat; Tree.children := [] |};
    {| Tree.segment := seg_B; Tree.parent := None; Tree.children := [0%nat] |} ].

(** The index of Phase 1 as the specification words it: the last
    coordinate of the root of every tree and the first coordinate of every
    leaf. *)
Definition outlets_and_inlets (a : Tree.arena) (rivers : list nat)
    : result (list coord) :=
  do outlets <- rmapM (fun tree => do nd <- Tree.get a tree ;
                                   coords_last (Tree.segment nd)) rivers ;
  do inlets <- rmapM (fun tree => do rs <- Tree.leaves a tree ;
                                  rmapM coords_first rs) rivers ;
  Ok (outlets ++ concat inlets).

(** A boundary of one segment that ends next to the junction of [A] and
    [B]. *)
Definition hucs_at_junction : HUCs.t :=
  {| HUCs.segments := [[(5, 5); (105 # 100, 1)]];
     HUCs.boundaries := [[0%nat]]; HUCs.intersections := [] |}.

(** ** The two-phase protocol, in the words of the specification *)

Section Protocol.

Context {G : Geometry}.
Variable polygons : HUCs.t -> result unit.

(** Both invariants hold: every tree is consistent and every ring closes. *)
Definition invariants_hold (a : Tree.arena) (hucs : HUCs.t) (rivers : list nat)
    : Prop :=
  rivers_consistent a rivers = true /\ exists u, polygons hucs = Ok u.

(** One of the invariants is found broken: a tree is inconsistent, or the
    ring check raises its assertion. *)
Definition invariant_broken (a : Tree.arena) (hucs : HUCs.t) (rivers : list nat)
    : Prop :=
  rivers_consistent a rivers = false \/ polygons hucs = Raise AssertionError.

(** The outcomes of the protocol: Phase 1, both checks, Phase 2, both
    checks; a broken invariant after a phase ends the operation with
    failure and with the structures as that phase left them. *)
Inductive protocol (a : Tree.arena) (hucs : HUCs.t) (rivers : list nat)
    (tol tol_triples : Q) : bool -> Tree.arena -> HUCs.t -> Prop :=
  | fails_after_phase1 hucs1 :
      snap_polygon_endpoints a hucs rivers tol_triples = Ok hucs1 ->
      invariant_broken a hucs1 rivers ->
      protocol a hucs rivers tol tol_triples false a hucs1
  | fails_after_phase2 hucs1 a2 hucs2 :
      snap_polygon_endpoints a hucs rivers tol_triples = Ok hucs1 ->
      invariants_hold a hucs1 rivers ->
      phase2 a hucs1 rivers tol = Ok (a2, hucs2) ->
      invariant_broken a2 hucs2 rivers ->
      protocol a hucs rivers tol tol_triples false a2 hucs2
  | succeeds hucs1 a2 hucs2 :
      snap_polygon_endpoints a hucs rivers tol_triples = Ok hucs1 ->
      invariants_hold a hucs1 rivers ->
      phase2 a hucs1 rivers tol = Ok (a2, hucs2) ->
      invariants_hold a2 hucs2 rivers ->
      protocol a hucs rivers tol tol_triples true a2 hucs2.

End Protocol.

(** A boundary of one segment far from the reaches [A] and [B]. *)
Definition hucs_far : HUCs.t :=
  {| HUCs.segments := [[(50, 50); (60, 60)]];
     HUCs.boundaries := [[0%nat]]; HUCs.intersections := [] |}.

(** The forest of the scenario after [prune] with tolerance 2: the leaf [A]
    is detached from [B], which stays as a root without children. *)
Definition forest_AB_pruned : Tree.arena :=
  [ {| Tree.segment := seg_A; Tree.parent := Some 1%nat; Tree.children := [] |};
    {| Tree.segment := seg_B; Tree.parent := None; Tree.children := [] |} ].

(** [b] is what [prune] can make of [a]: the same nodes with the same
    segments and parents, every list of children thinned out. *)
Record pruned_from (a b : Tree.arena) : Prop := {
  pf_length : length b = length a;
  pf_segment : forall n, Tree.segment_of b n = Tree.segment_of a n;
  pf_parent : forall n, Tree.parent_of b n = Tree.parent_of a n;
  pf_subset : forall p k, k ∈ Tree.children_of b p -> k ∈ Tree.children_of a p;
  pf_nodup : forall p, NoDup (Tree.children_of a p) -> NoDup (Tree.children_of b p)
}.

(** A chain of three reaches: the outlet [R], the short reach [X] flowing
    into it and the short reach [Y] flowing into [X]. *)
Definition chain_RXY : Tree.arena :=
  [ {| Tree.segment := [(10, 0); (20, 0)]; Tree.parent := None;
       Tree.children := [1%nat] |};
    {| Tree.segment := [(95 # 10, 0); (10, 0)]; Tree.parent := Some 0%nat;
       Tree.children := [2%nat] |};
    {| Tree.segment := [(92 # 10, 0); (95 # 10, 0)]; Tree.parent := Some 1%nat;
       Tree.children := [] |} ].

(** The shape of the arena that [merge] relies on and keeps: children lie
    strictly below their parents (there is a rank that grows from every
    node to its children and from every parent to its node), and every
    node that is listed as a child has a parent. *)
Record forest_shaped (a : Tree.arena) : Prop := {
  fs_rank : exists rank : nat -> nat,
    (forall q c, c ∈ Tree.children_of a q -> (rank q < rank c)%nat) /\
    (forall k p, Tree.parent_of a k = Some p -> (rank p < rank k)%nat);
  fs_child_has_parent :
    forall q c, c ∈ Tree.children_of a q -> Tree.parent_of a c <> None
}.

(** What [merge] does with a short node [node] of parent [p]: the children
    of [node] get the first coordinate of the segment of [p] as their last
    coordinate and [p] as their parent, and follow the children of [p], from
    which [node] is taken out. *)
Record rewired (a : Tree.arena) (node p : nat) (a' : Tree.arena) : Prop := {
  rw_length : length a' = length a;
  rw_children : forall q,
    Tree.children_of a' q =
    if decide (q = p)
    then Tree.remove_first node (Tree.children_of a p ++ Tree.children_of a node)
    else Tree.children_of a q;
  rw_parent : forall k,
    Tree.parent_of a' k =
    if decide (k ∈ Tree.children_of a node) then Some p else Tree.parent_of a k;
  rw_segment : forall k,
    if decide (k ∈ Tree.children_of a node)
    then exists c0, Tree.segment_of a p !! 0%nat = Some c0 /\
                    Tree.segment_of a' k = removelast (Tree.segment_of a k) ++ [c0]
    else Tree.segment_of a' k = Tree.segment_of a k
}.

(** The run of [merge] over the nodes [ns] in turn: a node whose segment is
    not shorter than the tolerance when its turn comes is kept, a shorter
    one is taken out and its children are re-homed. *)
Inductive merge_run (tol : Q) : list nat -> Tree.arena -> Tree.arena -> Prop :=
  | run_done a : merge_run tol [] a a
  | run_keep a a' node ns :
      tol <= seg_length (Tree.segment_of a node) ->
      merge_run tol ns a a' ->
      merge_run tol (node :: ns) a a'
  | run_drop a a1 a' node ns p :
      seg_length (Tree.segment_of a node) < tol ->
      Tree.parent_of a node = Some p ->
      rewired a node p a1 ->
      merge_run tol ns a1 a' ->
      merge_run tol (node :: ns) a a'.

(** Every request of the list differs, in the sense of [equal], from all
    the requests before it. *)
Definition pairwise_distinct {G : Geometry} (a : Tree.arena) (l : list request)
    : Prop :=
  forall i j p1 p2, (i < j)%nat -> l !! i = Some p2 -> l !! j = Some p1 ->
    equal a p1 p2 = Ok false.

(** A river whose two inlets, 0.000001 apart, lie on the segment from
    (0, 0) to (10, 0), as Phase 2 leaves them when it has snapped them. *)
Definition two_inlets : Tree.arena :=
  [ {| Tree.segment := [(5, 3); (5, 20)]; Tree.parent := None;
       Tree.children := [1%nat; 2%nat] |};
    {| Tree.segment := [(4, 0); (5, 3)]; Tree.parent := Some 0%nat;
       Tree.children := [] |};
    {| Tree.segment := [(4000001 # 1000000, 0); (5, 3)];
       Tree.parent := Some 0%nat; Tree.children := [] |} ].

(** The same river before Phase 2, its inlets 0.05 above the segment. *)
Definition two_inlets_before : Tree.arena :=
  [ {| Tree.segment := [(5, 3); (5, 20)]; Tree.parent := None;
       Tree.children := [1%nat; 2%nat] |};
    {| Tree.segment := [(4, 5 # 100); (5, 3)]; Tree.parent := Some 0%nat;
       Tree.children := [] |};
    {| Tree.segment := [(4000001 # 1000000, 5 # 100); (5, 3)];
       Tree.parent := Some 0%nat; Tree.children := [] |} ].

Definition hucs_line : HUCs.t :=
  {| HUCs.segments := [[(0, 0); (10, 0)]];
     HUCs.boundaries := [[0%nat]]; HUCs.intersections := [] |}.


(** The request [r] is in the group of the handle [k] in the dictionary. *)
Definition in_group (d : list (nat * list request)) (k : nat) (r : request)
    : Prop :=
  exists vs, (k, vs) ∈ d /\ r ∈ vs.


(** ** Invariants of the forest built by [make_global_tree] *)

(** The state of [make_global_tree] on the reaches [rivers] once the nodes
    below [k] have had their turn: node [j] carries [rivers[j]] unchanged; the
    returned list [trees] holds, once each, the nodes below [k] that have no
    parent; the children of a node are, once each, the nodes below [k] whose
    parent it is; the start of a parent's segment lies within [tol] of the
    end of its child's segment; the nodes from [k] on are still detached. *)
Record linked (rivers : list Segment) (tol : Q) (k : nat) (a : Tree.arena)
    (trees : list nat) : Prop := {
  lk_length : length a = length rivers;
  lk_segment : forall j, Tree.segment_of a j = default [] (rivers !! j);
  lk_roots : forall j, j ∈ trees <-> (j < k)%nat /\ Tree.parent_of a j = None;
  lk_roots_nodup : NoDup trees;
  lk_child : forall p c,
    c ∈ Tree.children_of a p <-> (c < k)%nat /\ Tree.parent_of a c = Some p;
  lk_child_nodup : forall p, NoDup (Tree.children_of a p);
  lk_near : forall p c, Tree.parent_of a c = Some p ->
    exists s e, head (Tree.segment_of a p) = Some s /\
                last (Tree.segment_of a c) = Some e /\
                dist2 s e <= tol * tol;
  lk_pending : forall j, (k <= j)%nat -> Tree.parent_of a j = None
}.

(** ** Where Phase 2 leaves the ends of a river *)

Section SnapTargets.

Context {G : Geometry}.

(** Where one stage of the node loop of [snap_endpoints] leaves an end of
    the river that is at [p] when the stage begins: at the new coordinate
    of the first segment of the component that yields one, or at [p]. *)
Fixpoint stage_target (hucs : HUCs.t) (tol : Q) (handles : list nat) (p : coord)
    : coord :=
  match handles with
  | [] => p
  | h :: handles' =>
      match _snap_and_cut p (default [] (HUCs.segments hucs !! h)) tol with
      | Some q => q
      | None => stage_target hucs tol handles' p
      end
  end.

(** Where the node loop leaves it, after the stages of all the components. *)
Definition node_target (hucs : HUCs.t) (tol : Q) (p : coord) : coord :=
  foldl (fun p bc => stage_target hucs tol (snd bc) p) p (HUCs.components hucs).

End SnapTargets.

(** ** The index of the segment pool *)

(** The handles that the components of the boundary list. *)
Definition listed_handles (h : HUCs.t) : list nat :=
  concat (HUCs.boundaries h) ++ concat (HUCs.intersections h).

(** Every handle of the pool is listed by one component, once, and the
    components list nothing else. *)
Definition well_indexed (h : HUCs.t) : Prop :=
  NoDup (listed_handles h) /\
  forall k, k ∈ listed_handles h <-> (k < length (HUCs.segments h))%nat.

(** The component [r] is one of the boundary [h]. *)
Definition component_of (h : HUCs.t) (r : HUCs.comp_ref) : Prop :=
  match r with
  | HUCs.Boundary b => (b < length (HUCs.boundaries h))%nat
  | HUCs.Intersection b => (b < length (HUCs.intersections h))%nat
  end.

(** The components [cs'] are the components [cs], each with handles added
    at its end. *)
Definition extended (cs cs' : list (list nat)) : Prop :=
  length cs' = length cs /\
  forall b c, cs !! b = Some c -> exists new, cs' !! b = Some (c ++ new).

(** Every request names a component of the boundary [hucs]. *)
Definition components_valid (hucs : HUCs.t) (to_add : list request) : Prop :=
  Forall (fun r => component_of hucs (rq_component r)) to_add.

(** ** What Phase 2 needs of a snapped coordinate, and what it makes of it *)








(** ** Filtering the rivers to the watershed ([filter_rivers_to_huc]) *)

(** The values that [filter_rivers_to_huc] tells apart in its argument
    [rivers]: a [MultiLineString]; a list whose first element is a
    [LineString]; a list whose first element is a [Tree], the trees being
    given by their roots in an arena; anything else that is not an empty
    list.  The empty list is [ListOfLineString []] or [ListOfTree a []]. *)
Inductive rivers_arg : Type :=
  | MultiLineString (lines : list Segment)
  | ListOfLineString (rivers : list Segment)
  | ListOfTree (a : Tree.arena) (rivers : list nat)
  | OtherValue.

(** [type(rivers) is list and len(rivers) is 0]. *)
Definition is_empty_list (rivers : rivers_arg) : bool :=
  match rivers with
  | ListOfLineString [] | ListOfTree _ [] => true
  | _ => false
  end.

Section FilterRivers.

(** The capabilities of shapely and of [workflow/hucs.py] that the function
    consumes: [list(hucs.polygons())], with its ring check;
    [cascaded_union(polygons).buffer(tol, 4)]; [union.intersects(r)]. *)
Variables polygon region : Type.
Variable polygons : HUCs.t -> result (list polygon).
Variable buffered_union : list polygon -> Q -> region.
Variable intersects : region -> Segment -> bool.

(** [filter_rivers_to_huc(hucs, rivers, tol)].  With an argument of none of
    the expected types no branch binds [rivers2], and its use raises. *)
Definition filter_rivers_to_huc (hucs : HUCs.t) (rivers : rivers_arg) (tol : Q)
    : result (Tree.arena * list nat) :=
  if is_empty_list rivers then Ok ([], [])
  else
    do polys <- polygons hucs ;
    let union := buffered_union polys tol in
    do rivers2 <-
      match rivers with
      | MultiLineString rs | ListOfLineString rs =>
          Ok (filter (fun r => intersects union r = true) rs)
      | ListOfTree a trees =>
          do rss <- rmapM (Tree.dfs a) trees ;
          Ok (filter (fun r => intersects union r = true) (concat rss))
      | OtherValue => Raise UnboundLocalError
      end ;
    make_global_tree rivers2 (1 # 10).

End FilterRivers.

(** ** Draping a mesh on a raster ([hilev.elevate]) *)

(** [elevate(mesh_points, mesh_crs, dem, dem_profile, algorithm)]: the
    points with the sampled value as third coordinate.  The points are
    already in the coordinate system of the raster, as for
    [values_from_raster]. *)
Definition elevate (mesh_points : list (Q * Q)) (dem : Raster.raster)
    (dem_profile : Raster.profile) (alg : Raster.algorithm)
    : result (list (Q * Q * Q)) :=
  do elev <- Raster.values_from_raster mesh_points dem dem_profile alg ;
  Ok (zip_with (fun xy z => (fst xy, snd xy, z)) mesh_points elev).

(** Every value of the raster lies between [lo] and [hi]. *)
Definition raster_within (lo hi : Q) (ras : Raster.raster) : Prop :=
  Forall (Forall (fun v => lo <= v <= hi)) ras.

(** ** The extent of a plot ([bin_utils.plot_with_dem]) *)

(** A bounding box [[xmin, ymin, xmax, ymax]]. *)
Record bbox := { xmin : Q; ymin : Q; xmax : Q; ymax : Q }.

(** The extent that [plot_with_dem] plots: [args.extent] when it is given;
    otherwise the bounds of the exterior of the watersheds, padded by
    [args.pad_fraction] when that is given, which must then be of length 1,
    2 or 4. *)
Definition plot_extent (extent : option bbox) (exterior_bounds : bbox)
    (pad_fraction : option (list Q)) : result bbox :=
  match extent with
  | Some e => Ok e
  | None =>
      let e := exterior_bounds in
      match pad_fraction with
      | None => Ok e
      | Some pf =>
          do pads <-
            match pf with
            | [f0] =>
                let dxp := (xmax e - xmin e) * f0 in
                Ok (dxp, dxp, dxp, dxp)
            | [f0; f1] =>
                let dxp := (xmax e - xmin e) * f0 in
                let dyp := (ymax e - ymin e) * f1 in
                Ok (dxp, dyp, dxp, dyp)
            | [f0; f1; f2; f3] =>
                Ok ((xmax e - xmin e) * f0, (ymax e - ymin e) * f1,
                    (xmax e - xmin e) * f2, (ymax e - ymin e) * f3)
            | _ => Raise ValueError
            end ;
          let '(dxm, dym, dxp, dyp) := pads in
          Ok {| xmin := xmin e - dxm; ymin := ymin e - dym;
                xmax := xmax e + dxp; ymax := ymax e + dyp |}
      end
  end.

(** The box [inner] lies in the box [outer]. *)
Definition bbox_within (inner outer : bbox) : Prop :=
  xmin outer <= xmin inner /\ ymin outer <= ymin inner /\
  xmax inner <= xmax outer /\ ymax inner <= ymax outer.

(** ** Exceptions beyond those of the conflation code *)

(** The exceptions of [exn], those that only the code below raises, and
    the exceptions of the external capabilities (the network, the file
    system, the readers of geographic files), told apart by a name. *)
Inductive exception : Set :=
  | Builtin (e : exn)
  | RuntimeError
  | OverflowError
  | External (what : string).

Inductive outcome (A : Type) : Type :=
  | Return (a : A)
  | Throw (e : exception).

Arguments Return {A} a.
Arguments Throw {A} e.

Definition obind {A B} (m : outcome A) (k : A -> outcome B) : outcome B :=
  match m with
  | Return a => k a
  | Throw e => Throw e
  end.

Notation "'do' x <~ m ; k" := (obind m (fun x => k))
  (at level 10, x name, m at level 100, k at level 200).

Definition lift {A} (r : result A) : outcome A :=
  match r with Ok a => Return a | Raise e => Throw (Builtin e) end.

(** [assert(b)]. *)
Definition assert_ (b : bool) : outcome unit :=
  if b then Return tt else Throw (Builtin AssertionError).

(** ** Colouring a raster by shapes ([hilev.color_raster_from_shapes]) *)

(** [np.round]: the nearest integer, a half going to the even one. *)
Definition np_round (q : Q) : Z :=
  let f := Qfloor q in
  match Qcompare (q - inject_Z f) (1 # 2) with
  | Lt => f
  | Gt => (f + 1)%Z
  | Eq => if Z.even f then f else (f + 1)%Z
  end.

(** [int(np.ceil(n / d))] on numpy floats: a division by zero gives an
    infinity or a NaN, which [int] refuses. *)
Definition int_ceil_div (n d : Q) : outcome Z :=
  if Qeq_bool d 0 then
    if Qeq_bool n 0 then Throw (Builtin ValueError) else Throw OverflowError
  else Return (Qceiling (n / d)).

(** The canvas: the corner [(x0, y1)] of the first pixel and the size of
    a pixel, of which the transform of the returned profile is made, the
    numbers of columns and rows, and the bounds [img_bounds] of the image. *)
Record canvas := {
  target_x0 : Z;
  target_y1 : Z;
  pixel_size : Q;
  cv_width : Z;
  cv_height : Z;
  img_bounds : bbox
}.

Definition canvas_of (target_bounds : bbox) (target_dx : Q) : outcome canvas :=
  let x0 := np_round (xmin target_bounds - target_dx / 2) in
  let y1 := np_round (ymax target_bounds + target_dx / 2) in
  do width <~ int_ceil_div (xmax target_bounds + target_dx / 2 - inject_Z x0) target_dx ;
  do height <~ int_ceil_div (inject_Z y1 - ymin target_bounds - target_dx / 2) target_dx ;
  Return {| target_x0 := x0; target_y1 := y1; pixel_size := target_dx;
            cv_width := width; cv_height := height;
            img_bounds := {| xmin := inject_Z x0;
                             ymin := inject_Z y1 - target_dx * inject_Z height;
                             xmax := inject_Z x0 + target_dx * inject_Z width;
                             ymax := inject_Z y1 |} |}.

Section ColorRaster.

(** The shapes, the colours, and [rasterio.features.geometry_mask] with
    [invert=True], an external capability: whether the pixel of row [r] and
    column [c] of the canvas (its shape and its transform) is inside the
    shape. *)
Variables shape color : Type.
Variable inside : canvas -> shape -> nat -> nat -> bool.

(** [nodata * np.ones((height, width), dtype)]: numpy refuses a negative
    dimension. *)
Definition blank (cv : canvas) (nodata : color) : outcome (list (list color)) :=
  if ((cv_height cv <? 0) || (cv_width cv <? 0))%Z then Throw (Builtin ValueError)
  else Return (replicate (Z.to_nat (cv_height cv))
                 (replicate (Z.to_nat (cv_width cv)) nodata)).

(** [z[mask] = p_id]. *)
Definition paint (cv : canvas) (z : list (list color)) (pc : shape * color)
    : list (list color) :=
  imap (fun r row => imap (fun c v => if inside cv (fst pc) r c then snd pc else v) row) z.

(** [color_raster_from_shapes(target_bounds, target_dx, shapes,
    shape_colors, shapes_crs, nodata)]: the raster and the canvas, which
    holds what the returned profile and bounds are made of. *)
Definition color_raster_from_shapes (target_bounds : bbox) (target_dx : Q)
    (shapes : list shape) (shape_colors : list color) (nodata : color)
    : outcome (list (list color) * canvas) :=
  do _ <~ assert_ (length shapes =? length shape_colors)%nat ;
  do _ <~ assert_ (0 <? length shapes)%nat ;
  do cv <~ canvas_of target_bounds target_dx ;
  do z <~ blank cv nodata ;
  Return (foldl (paint cv) z (zip shapes shape_colors), cv).

End ColorRaster.

(** ** Strings of Python *)

(** ['{}'.format(n)] and ['{:d}'.format(n)] of a number that is not
    negative. *)
Definition decimal (n : nat) : string := NilEmpty.string_of_uint (Nat.to_uint n).

(** [sub in s]. *)
Definition str_in (sub s : string) : bool :=
  match String.index 0 sub s with Some _ => true | None => false end.

(** [s.endswith(suffix)]. *)
Definition endswith (suffix s : string) : bool :=
  (String.length suffix <=? String.length s)%nat &&
  String.eqb (substring (String.length s - String.length suffix)
                        (String.length suffix) s) suffix.

(** The white space of [str.split()], for the characters of ASCII. *)
Definition is_space (c : ascii) : bool :=
  let n := nat_of_ascii c in
  (n =? 32)%nat || ((9 <=? n)%nat && (n <=? 13)%nat) ||
  ((28 <=? n)%nat && (n <=? 31)%nat).

(** [s.split()]: the words of [s]; [cur] is the word being read. *)
Fixpoint split_words (cur s : string) : list string :=
  match s with
  | EmptyString => if String.eqb cur "" then [] else [cur]
  | String c s' =>
      if is_space c
      then if String.eqb cur "" then split_words "" s'
           else cur :: split_words "" s'
      else split_words (cur ++ String c "") s'
  end.

Definition words (s : string) : list string := split_words "" s.

(** [s.split("/")[-1]]; [cur] is the component being read. *)
Fixpoint last_component (cur s : string) : string :=
  match s with
  | EmptyString => cur
  | String c s' =>
      if Ascii.eqb c "/" then last_component "" s'
      else last_component (cur ++ String c "") s'
  end.

(** [os.path.join(a, b)] of POSIX. *)
Definition path_join (a b : string) : string :=
  if String.prefix "/" b then b
  else if String.eqb a "" || endswith "/" a then a ++ b
  else a ++ "/" ++ b.

(** [d[key]] of a dictionary with string keys. *)
Fixpoint getitem_str {A} (d : list (string * A)) (key : string) : outcome A :=
  match d with
  | [] => Throw (Builtin KeyError)
  | (k, v) :: d' => if String.eqb k key then Return v else getitem_str d' key
  end.

(** A list comprehension [[x for x in l if p(x)]] whose test can raise. *)
Fixpoint ofilter {A} (p : A -> outcome bool) (l : list A) : outcome (list A) :=
  match l with
  | [] => Return []
  | x :: l' =>
      do b <~ p x ;
      do rest <~ ofilter p l' ;
      Return (if b then x :: rest else rest)
  end.

(** ** The file managers of the national hydrography datasets
    ([workflow/sources/manager_nhd.py]) *)

Module NHD.

(** What the code asks of [workflow.sources.names.Names], which is not
    among the sources: the directories and the file of a hydrologic unit. *)
Record names := {
  data_dir : string;
  folder_name : string -> string;
  raw_folder_name : string -> string;
  file_name : string -> string
}.

(** The attributes of [_FileManagerNHD]. *)
Record manager := {
  name : string;
  file_level : nat;
  lowest_level : nat;
  name_manager : names
}.

(** A record of a layer, as fiona gives it: a dictionary with its
    ['properties'] and its ['geometry']. *)
Record feature (G : Type) := {
  properties : list (string * string);
  geometry : G
}.

Arguments properties {G} f.
Arguments geometry {G} f.

(** An item of the answer of the products service: a dictionary that may
    have a ['title'] and a ['downloadURL']. *)
Record item := { title : option string; downloadURL : option string }.

(** The answer to a query: a status that [raise_for_status] refuses, or the
    ['items'] of the JSON body. *)
Inductive response : Type :=
  | BadStatus
  | Items (items : list item).

(** ['downloadURL' in m and 'GDB' in m['downloadURL']]. *)
Definition is_gdb (it : item) : bool :=
  match downloadURL it with
  | Some u => str_in "GDB" u
  | None => false
  end.

(** [hucstr in m['title'].split()], for an item that has a title. *)
Definition has_code (hucstr : string) (it : item) : bool :=
  match title it with
  | Some t => existsb (String.eqb hucstr) (words t)
  | None => false
  end.

(** The item [it] is the one that [attempt] picks among [items]: the only
    GDB product that has the code among the words of its title or, when no
    GDB product has, the only GDB product. *)
Definition picked (hucstr : string) (items : list item) (it : item) : Prop :=
  let gdb := filter (fun it => is_gdb it = true) items in
  let titled := filter (fun it => has_code hucstr it = true) gdb in
  titled = [it] \/ (titled = [] /\ gdb = [it]).

(** The world outside: the file system and the network, with the
    capabilities the code consumes.  [world] is the state of the file
    system; [http_get] is [requests.get(rest_url, params=params)] together
    with the decoding of the body; [download], [unzip] and [move] are those
    of [workflow.sources.utils]; [open_layer] is [fiona.open(filename,
    mode='r', layer=layer)], giving the profile and the records of the
    layer; [items_within] is [fid.items(bbox=bounds)]; [Names] is the
    constructor of [workflow.sources.names.Names].  For [hilev.find_huc],
    [contains] and [intersects] are [huc_shply.contains(shply)] and
    [huc_shply.intersects(shply)] for the shape that is looked for, shrunk,
    and the geometry of a unit read with a profile and warped to the
    coordinate system of the shape. *)
Class Outside := {
  world : Type;
  geom : Type;
  profile : Type;
  bounds : Type;
  crs : Type;
  path_exists : world -> string -> bool;
  makedirs : world -> string -> outcome world;
  http_get : world -> list (string * string) -> outcome response;
  download : string -> string -> bool -> world -> outcome world;
  unzip : string -> string -> world -> outcome world;
  move : string -> string -> world -> outcome world;
  listdir : world -> string -> outcome (list string);
  open_layer : world -> string -> string -> outcome (profile * list (feature geom));
  items_within : list (feature geom) -> bounds -> list (feature geom);
  crs_of : profile -> crs;
  bounds_of : feature geom -> bounds;
  warp_bounds : bounds -> option crs -> crs -> bounds;
  Names : string -> string -> string -> string -> names;
  contains : profile -> geom -> bool;
  intersects : profile -> geom -> bool
}.

Section Managers.

Context {E : Outside}.

(** The local function [attempt(params)] of [_url]: [Some url] is the
    answer [(0, url)], [None] an answer [(1, ...)]. *)
Definition attempt (m : manager) (hucstr : string) (w : world)
    (params : list (string * string)) : outcome (option string) :=
  do r <~ http_get w params ;
  match r with
  | BadStatus => Return None
  | Items items =>
      let matches := filter (fun it => is_gdb it = true) items in
      do matches_f <~
        ofilter (fun it => match title it with
                           | Some t => Return (existsb (String.eqb hucstr) (words t))
                           | None => Throw (Builtin KeyError)
                           end) matches ;
      let matches := if (0 <? length matches_f)%nat then matches_f else matches in
      match matches with
      | [it] => match downloadURL it with
                | Some u => Return (Some u)
                | None => Throw (Builtin KeyError)
                end
      | _ => Return None
      end
  end.

(** [_url(hucstr)]. *)
Definition _url (m : manager) (hucstr : string) (w : world) : outcome string :=
  let hucstr := substring 0 (file_level m) hucstr in
  do a1 <~ attempt m hucstr w
             [("datasets", name m);
              ("polyType", "huc" ++ decimal (file_level m));
              ("polyCode", hucstr)]%string ;
  match a1 with
  | Some url => Return url
  | None =>
      do a2 <~ attempt m hucstr w [("datasets", name m)]%string ;
      match a2 with
      | Some url => Return url
      | None => Throw (Builtin ValueError)
      end
  end.

(** [_download(hucstr, force)]: the name of the file, and the file system
    as the call leaves it. *)
Definition _download (m : manager) (hucstr : string) (force : bool) (w : world)
    : outcome (string * world) :=
  let nm := name_manager m in
  do w <~ makedirs w (data_dir nm) ;
  do w <~ makedirs w (folder_name nm hucstr) ;
  let work_folder := raw_folder_name nm hucstr in
  do w <~ makedirs w work_folder ;
  let filename := file_name nm hucstr in
  do w <~ (if negb (path_exists w filename) || force then
             do url <~ _url m hucstr w ;
             let downloadfile := path_join work_folder (last_component "" url) in
             do w <~ (if negb (path_exists w downloadfile) || force
                      then download url downloadfile force w
                      else Return w) ;
             do w <~ unzip downloadfile work_folder w ;
             do files <~ listdir w work_folder ;
             match filter (fun f => endswith ".gdb" f = true) files with
             | [f] => move (path_join work_folder f) filename w
             | _ => Throw (Builtin AssertionError)
             end
           else Return w) ;
  if negb (path_exists w filename) then Throw RuntimeError
  else Return (filename, w).

(** [hu['properties']['HUC{:d}'.format(level)]]. *)
Definition huc_code (level : nat) (hu : feature geom) : outcome string :=
  getitem_str (properties hu) ("HUC" ++ decimal level)%string.

(** [get_hucs(huc, level)]; [huc] is the code as [huc_str] gives it. *)
Definition get_hucs (m : manager) (huc : string) (level : nat) (w : world)
    : outcome (profile * list (feature geom) * world) :=
  let huc_level := String.length huc in
  if (lowest_level m <? level)%nat then Throw (Builtin ValueError)
  else if (level <? huc_level)%nat then Throw (Builtin ValueError)
  else if (huc_level <? file_level m)%nat then Throw (Builtin ValueError)
  else
    do fw <~ _download m (substring 0 (file_level m) huc) false w ;
    let '(filename, w) := fw in
    do layer <~ open_layer w filename ("WBDHU" ++ decimal level)%string ;
    let '(profile, fid) := layer in
    do hus <~ ofilter (fun hu => do code <~ huc_code level hu ;
                                 Return (String.prefix huc code)) fid ;
    Return (profile, hus, w).

(** [get_huc(huc)]. *)
Definition get_huc (m : manager) (huc : string) (w : world)
    : outcome (profile * feature geom * world) :=
  do r <~ get_hucs m huc (String.length huc) w ;
  let '(profile, hus, w) := r in
  match hus with
  | [hu] => Return (profile, hu, w)
  | _ => Throw (Builtin AssertionError)
  end.

(** [get_hydro(huc, bounds, bounds_crs)]. *)
Definition get_hydro (m : manager) (huc : string) (bnds : option bounds)
    (bounds_crs : option crs) (w : world)
    : outcome (profile * list (feature geom) * world) :=
  if str_in "WBD" (name m) then Throw RuntimeError
  else
    let hint_level := String.length huc in
    do bw <~ match bnds with
             | Some b => Return (b, bounds_crs, w)
             | None =>
                 do r <~ get_huc m huc w ;
                 let '(profile, hu, w) := r in
                 Return (bounds_of hu, Some (crs_of profile), w)
             end ;
    let '(b, bounds_crs, w) := bw in
    if (hint_level <? file_level m)%nat then Throw (Builtin ValueError)
    else
      do fw <~ _download m (substring 0 (file_level m) huc) false w ;
      let '(_, w) := fw in
      let filename := file_name (name_manager m) (substring 0 (file_level m) huc) in
      do layer <~ open_layer w filename "NHDFlowline" ;
      let '(profile, fid) := layer in
      let b := warp_bounds b bounds_crs (crs_of profile) in
      Return (profile, items_within fid b, w).

(** *** Finding the smallest unit that holds a shape ([hilev.find_huc]) *)

(** The local function [_in_huc]. *)
Definition _in_huc (p : profile) (g : geom) : nat :=
  if contains p g then 2%nat else if intersects p g then 1%nat else 0%nat.

(** The loop of [_find_huc] over the units [subhus] of the level
    [search_level]; [recurse] is the recursive call, and falling out of the
    loop is [assert(False)]. *)
Fixpoint search (recurse : string -> world -> outcome (string * world))
    (p : profile) (search_level : nat) (hint : string) (w : world)
    (subhus : list (feature geom)) : outcome (string * world) :=
  match subhus with
  | [] => Throw (Builtin AssertionError)
  | subhu :: rest =>
      let inhuc := _in_huc p (geometry subhu) in
      do hname <~ huc_code search_level subhu ;
      if (inhuc =? 2)%nat then recurse hname w
      else if (inhuc =? 1)%nat then Return (hint, w)
      else search recurse p search_level hint w rest
  end.

(** The local function [_find_huc], with a manager of this family as its
    source; [fuel] is the depth of recursion that the interpreter allows. *)
Fixpoint _find_huc (fuel : nat) (m : manager) (hint : string) (w : world)
    : outcome (string * world) :=
  match fuel with
  | O => Throw (Builtin RecursionError)
  | S fuel' =>
      let search_level := (String.length hint + 2)%nat in
      if (lowest_level m <? search_level)%nat then Return (hint, w)
      else
        do r <~ get_hucs m hint search_level w ;
        let '(p, subhus, w) := r in
        search (_find_huc fuel' m) p search_level hint w subhus
  end.

(** [find_huc(source, shape, crs, hint, shrink_factor)]; [hint] is the code
    as [huc_str] gives it. *)
Definition find_huc (fuel : nat) (m : manager) (hint : string) (w : world)
    : outcome (string * world) :=
  do r <~ get_huc m hint w ;
  let '(p, hint_hu, w) := r in
  if negb (_in_huc p (geometry hint_hu) =? 2)%nat then Throw RuntimeError
  else _find_huc fuel m hint w.

(** A unit whose code starts with [r] holds the shape: a record of a layer
    of units, read from some file at some time, whose code at the level of
    the layer starts with [r] and whose geometry contains the shape. *)
Definition held_by_unit (r : string) : Prop :=
  exists w filename level p fid hu code,
    open_layer w filename ("WBDHU" ++ decimal level)%string = Return (p, fid) /\
    hu ∈ fid /\
    huc_code level hu = Return code /\
    String.prefix r code = true /\
    contains p (geometry hu) = true.

(** The layers are well formed: the codes of the layer of a level have the
    length of the level. *)
Definition layers_well_formed : Prop :=
  forall w filename level p fid hu code,
    open_layer w filename ("WBDHU" ++ decimal level)%string = Return (p, fid) ->
    hu ∈ fid -> huc_code level hu = Return code -> String.length code = level.

(** [FileManagerNHDPlus()], [FileManagerNHD()] and [FileManagerWBD()]. *)
Definition FileManagerNHDPlus : manager :=
  let name := "National Hydrography Dataset Plus High Resolution (NHDPlus HR)"%string in
  {| name := name; file_level := 4; lowest_level := 12;
     name_manager := Names name "hydrography" "NHDPlus_H_{}_GDB" "NHDPlus_H_{}.gdb" |}.

Definition FileManagerNHD : manager :=
  let name := "National Hydrography Dataset (NHD)"%string in
  {| name := name; file_level := 8; lowest_level := 12;
     name_manager := Names name "hydrography" "NHD_H_{}_GDB" "NHD_H_{}.gdb" |}.

Definition FileManagerWBD : manager :=
  let name := "National Watershed Boundary Dataset (WBD)"%string in
  {| name := name; file_level := 2; lowest_level := 12;
     name_manager := Names name "hydrography" "WBD_{}_GDB" "WBD_{}.gdb" |}.

End Managers.

End NHD.

(** ** A small world for examples *)

Module Toy.

(** The units of the example, by level: the code and a number that stands
    for the geometry. *)
Definition table : list (nat * string * nat) :=
  [(2, "06", 1); (4, "0601", 2); (4, "0602", 3);
   (6, "060101", 4); (6, "060102", 5)]%nat%string.

Definition unit_of (row : nat * string * nat) : NHD.feature nat :=
  {| NHD.properties := [("HUC" ++ decimal (fst (fst row)), snd (fst row))]%string;
     NHD.geometry := snd row |}.

(** The records of a layer: the units of the level the layer is named for. *)
Definition layer_records (layer : string) : list (NHD.feature nat) :=
  map unit_of
      (filter (fun row => String.eqb layer ("WBDHU" ++ decimal (fst (fst row))) = true)
              table).

(** The answer of the products service to any query. *)
Definition products : list NHD.item :=
  [ {| NHD.title := Some "WBD HU 06 in GDB format";
       NHD.downloadURL := Some "https://example.org/WBD_06_GDB.zip" |};
    {| NHD.title := Some "WBD HU 07 in GDB format";
       NHD.downloadURL := Some "https://example.org/WBD_07_GDB.zip" |};
    {| NHD.title := Some "WBD HU 06 as shapefile";
       NHD.downloadURL := Some "https://example.org/WBD_06_Shape.zip" |} ]%string.

Definition names : NHD.names :=
  {| NHD.data_dir := "data";
     NHD.folder_name h := ("data/" ++ h)%string;
     NHD.raw_folder_name h := ("data/" ++ h ++ "/raw")%string;
     NHD.file_name h := ("data/" ++ h ++ ".gdb")%string |}.

(** The file system is the list of the paths that exist; units 1 and 2 hold
    the shape, and every unit touches it. *)
Definition outside : NHD.Outside :=
  {| NHD.world := list string;
     NHD.geom := nat;
     NHD.profile := unit;
     NHD.bounds := unit;
     NHD.crs := unit;
     NHD.path_exists w f := existsb (String.eqb f) w;
     NHD.makedirs w d := Return (if existsb (String.eqb d) w then w else d :: w);
     NHD.http_get _ _ := Return (NHD.Items products);
     NHD.download _ f _ w := Return (f :: w);
     NHD.unzip _ _ w := Return w;
     NHD.move _ dst w := Return (dst :: w);
     NHD.listdir _ _ := Return [];
     NHD.open_layer w f layer :=
       if existsb (String.eqb f) w then Return (tt, layer_records layer)
       else Throw (External "DriverError");
     NHD.items_within fid _ := fid;
     NHD.crs_of _ := tt;
     NHD.bounds_of _ := tt;
     NHD.warp_bounds b _ _ := b;
     NHD.Names _ _ _ _ := names;
     NHD.contains _ g := (g <=? 2)%nat;
     NHD.intersects _ _ := true |}.

(** The managers of the boundary dataset and of the hydrography dataset on
    this world. *)
Definition wbd : NHD.manager := NHD.FileManagerWBD (E := outside).
Definition nhd : NHD.manager := NHD.FileManagerNHD (E := outside).

(** The file of region 06 is at hand. *)
Definition at_hand : list string := ["data/06.gdb"%string].

End Toy.

(** * Properties *)

(** ** Raster sampling *)

Section RasterFacts.
Import Raster.

Lemma np_index_ok {A} (l : list A) (i : Z) :
  (0 <= i < Z.of_nat (length l))%Z ->
  exists a, np_index l i = Ok a /\ l !! Z.to_nat i = Some a.
Proof.
  intros Hi. unfold np_index.
  destruct (Z.ltb_spec i 0); [lia|].
  destruct (Z.leb_spec 0 i); [|lia].
  destruct (Z.ltb_spec i (Z.of_nat (length l))); [|lia]. simpl.
  destruct (lookup_lt_is_Some_2 l (Z.to_nat i)) as [a Ha]; [lia|].
  rewrite Ha. eauto.
Qed.

Lemma getitem_ok ras p r c :
  well_shaped ras p -> (0 <= r < height p)%Z -> (0 <= c < width p)%Z ->
  exists v, getitem ras r c = Ok v.
Proof.
  intros [Hh Hw] Hr Hc. unfold getitem.
  destruct (np_index_ok ras r) as (row & -> & Hrow); [lia|]. simpl.
  rewrite Forall_forall in Hw.
  assert (Hlen : Z.of_nat (length row) = width p).
  { apply Hw. eapply list_elem_of_lookup_2. exact Hrow. }
  destruct (np_index_ok row c) as (v & -> & _); [lia|]. eauto.
Qed.

Lemma eps_value : eps == 1 # 10000000000.
Proof. reflexivity. Qed.

(** The clamp keeps a coordinate between [eps] and [dim - 1 - eps]. *)
Lemma clamp_bounds dim i :
  (2 <= dim)%Z -> eps <= clamp dim i /\ clamp dim i <= inject_Z dim - 1 - eps.
Proof.
  intros Hd. unfold clamp, py_max, py_min.
  assert (H2 : 2 <= inject_Z dim) by (rewrite Zle_Qle in Hd; exact Hd).
  pose proof eps_value as He.
  destruct (Qlt_le_dec i (inject_Z dim - 1 - eps));
    destruct (Qlt_le_dec eps _); split; lra.
Qed.

(** Both the floor and the ceiling of a clamped coordinate are indices of
    the axis. *)
Lemma clamp_indices dim i :
  (2 <= dim)%Z ->
  (0 <= Qfloor (clamp dim i) < dim)%Z /\ (0 <= Qceiling (clamp dim i) < dim)%Z.
Proof.
  intros Hd. destruct (clamp_bounds dim i Hd) as [Hl Hu].
  pose proof eps_value as He.
  assert (H0 : (0 <= Qfloor (clamp dim i))%Z).
  { change 0%Z with (Qfloor 0). apply Qfloor_resp_le. lra. }
  assert (H1 : (Qfloor (clamp dim i) <= Qceiling (clamp dim i))%Z).
  { rewrite Zle_Qle. pose proof (Qfloor_le (clamp dim i)).
    pose proof (Qle_ceiling (clamp dim i)). lra. }
  assert (H2 : (Qceiling (clamp dim i) <= dim - 1)%Z).
  { rewrite <- (Qceiling_Z (dim - 1)). apply Qceiling_resp_le.
    unfold Z.sub. rewrite inject_Z_plus, inject_Z_opp.
    change (inject_Z 1) with 1. lra. }
  lia.
Qed.

Lemma bilinear_at_ok ras p xy :
  well_shaped ras p -> (2 <= height p)%Z -> (2 <= width p)%Z ->
  exists v, bilinear_at ras p xy = Ok v.
Proof.
  intros Hws Hh Hw. unfold bilinear_at.
  destruct (apply (inv_transform p) xy) as [j i].
  destruct (clamp_indices (height p) (i - (1 # 2)) Hh) as [Hfi Hci].
  destruct (clamp_indices (width p) (j - (1 # 2)) Hw) as [Hfj Hcj].
  destruct (getitem_ok ras p _ _ Hws Hfi Hfj) as [b00 ->].
  destruct (getitem_ok ras p _ _ Hws Hfi Hcj) as [b01 ->].
  destruct (getitem_ok ras p _ _ Hws Hci Hfj) as [b10 ->].
  destruct (getitem_ok ras p _ _ Hws Hci Hcj) as [b11 ->].
  simpl. eauto.
Qed.

End RasterFacts.

(** C9, as amended.  In the piecewise bilinear mode, on a raster of at
    least two rows and two columns, every centred fractional pixel
    coordinate is clamped to the interval from [eps] to [dim - 1 - eps]
    (with [eps] = 1e-10), the floor and the ceiling of the clamped value are
    valid indices of their axis, and the sampling of any list of points
    returns a value for each of them and does not raise. *)
Theorem bilinear_sampling_in_bounds (points : list (Q * Q))
    (ras : Raster.raster) (p : Raster.profile) :
  Raster.well_shaped ras p ->
  (2 <= Raster.height p)%Z -> (2 <= Raster.width p)%Z ->
  (forall dim i, (2 <= dim)%Z ->
     Raster.eps <= Raster.clamp dim i <= inject_Z dim - 1 - Raster.eps /\
     (0 <= Qfloor (Raster.clamp dim i) < dim)%Z /\
     (0 <= Qceiling (Raster.clamp dim i) < dim)%Z) /\
  exists values,
    Raster.values_from_raster points ras p Raster.piecewise_bilinear = Ok values /\
    length values = length points.
Proof.
  intros Hws Hh Hw. split.
  - intros dim i Hd. split; [apply clamp_bounds, Hd | apply clamp_indices, Hd].
  - simpl. induction points as [|xy pts (vs & IH & Hlen)]; simpl.
    + exists []. auto.
    + destruct (bilinear_at_ok ras p xy Hws Hh Hw) as [v ->]. simpl.
      rewrite IH. simpl. exists (v :: vs). simpl. auto.
Qed.

Lemma bilinear_sampling_in_bounds_witness :
  exists values,
    Raster.values_from_raster [(5, 5); (-3, 1 # 2)] raster22 profile22
      Raster.piecewise_bilinear = Ok values /\ length values = 2%nat.
Proof.
  refine (proj2 (bilinear_sampling_in_bounds [(5, 5); (-3, 1 # 2)] raster22 profile22 _ _ _)).
  - split; [reflexivity | repeat constructor].
  - simpl. lia.
  - simpl. lia.
Defined.

(** C9, as stated, fails: the nearest mode does not clamp.  A point outside
    a two by two raster is looked up at row 5, column 5, which raises. *)
Lemma nearest_sampling_raises :
  Raster.well_shaped raster22 profile22 /\
  Raster.values_from_raster [(5, 5)] raster22 profile22 Raster.nearest
    = Raise IndexError.
Proof. split; [split; [reflexivity | repeat constructor] | reflexivity]. Qed.

(** On a raster of a single row the clamp of the bilinear mode yields
    [eps], whose ceiling, 1, is not a row. *)
Lemma bilinear_single_row_raises :
  Raster.well_shaped raster12 profile12 /\
  Raster.values_from_raster [(0, 0)] raster12 profile12 Raster.piecewise_bilinear
    = Raise IndexError.
Proof. split; [split; [reflexivity | repeat constructor] | reflexivity]. Qed.

(** ** Forest construction *)

Lemma rmapM_length {A B} (f : A -> result B) (l : list A) (bs : list B) :
  rmapM f l = Ok bs -> length bs = length l.
Proof.
  revert bs. induction l as [|a l IH]; simpl; intros bs H.
  - injection H as <-. reflexivity.
  - destruct (f a) as [b|]; [|discriminate]. simpl in H.
    destruct (rmapM f l) as [bs'|]; [|discriminate]. simpl in H.
    injection H as <-. simpl. f_equal. apply IH. reflexivity.
Qed.

(** [argmax_from] run on the tail [l] of [full] that starts at index [i],
    with [best] the index of the running maximum [bv]. *)
Lemma argmax_from_max (full l : list Q) : forall best bv i,
  full !! best = Some bv ->
  (forall t, (t < length l)%nat -> full !! (i + t)%nat = l !! t) ->
  exists v, full !! argmax_from best bv i l = Some v /\
            bv <= v /\ Forall (fun x => x <= v) l.
Proof.
  induction l as [|x l IH]; intros best bv i Hb Hl; simpl.
  - exists bv. split; [exact Hb|]. split; [apply Qle_refl | constructor].
  - assert (Hx : full !! i = Some x).
    { specialize (Hl 0%nat). rewrite Nat.add_0_r in Hl. apply Hl. simpl. lia. }
    assert (Hl' : forall t, (t < length l)%nat -> full !! (S i + t)%nat = l !! t).
    { intros t Ht. specialize (Hl (S t)). simpl in Hl.
      rewrite <- Hl by lia. f_equal. lia. }
    destruct (Qlt_le_dec bv x) as [Hlt|Hle].
    + destruct (IH i x (S i) Hx Hl') as (v & Hv & Hxv & Hall).
      exists v. split; [exact Hv|]. split; [lra|]. constructor; assumption.
    + destruct (IH best bv (S i) Hb Hl') as (v & Hv & Hbv & Hall).
      exists v. split; [exact Hv|]. split; [exact Hbv|]. constructor; [lra|assumption].
Qed.

(** [np.argmax] returns the index of an entry that no other exceeds. *)
Lemma argmax_max (l : list Q) :
  l <> [] -> exists v, l !! argmax l = Some v /\ Forall (fun x => x <= v) l.
Proof.
  destruct l as [|x l]; [congruence|]. intros _. unfold argmax.
  destruct (argmax_from_max (x :: l) l 0%nat x 1%nat) as (v & Hv & Hxv & Hall).
  - reflexivity.
  - intros t Ht. reflexivity.
  - exists v. split; [exact Hv|]. constructor; assumption.
Qed.

Section ForestFacts.

Variables (rivers : list Segment) (coords : list coord) (tol : Q).
Variables (nodes : Tree.arena) (trees : list nat) (j : nat) (n : Tree.Node).
Variable e : coord.
Hypothesis Hn : nodes !! j = Some n.
Hypothesis He : last (Tree.segment n) = Some e.

(** No start coordinate within [tol] of the end: the node is appended to
    the roots, and the arena is left alone. *)
Lemma attach_root :
  query_ball_point coords e tol = [] ->
  attach rivers coords tol (nodes, trees) j = Ok (nodes, trees ++ [j]).
Proof.
  intros Hq. unfold attach, Tree.get, coords_last. rewrite Hn. simpl. rewrite He. simpl.
  rewrite Hq. reflexivity.
Qed.

(** A single match [c]: the node becomes a child of node [c]. *)
Lemma attach_single c :
  query_ball_point coords e tol = [c] ->
  attach rivers coords tol (nodes, trees) j = Ok (Tree.addChild nodes c j, trees).
Proof.
  intros Hq. unfold attach, Tree.get, coords_last. rewrite Hn. simpl. rewrite He. simpl.
  rewrite Hq. reflexivity.
Qed.

(** Several matches: the node becomes a child of a candidate whose
    alignment no other candidate exceeds. *)
Lemma attach_several dots :
  (1 < length (query_ball_point coords e tol))%nat ->
  tangent_dots rivers (Tree.segment n) (query_ball_point coords e tol) = Ok dots ->
  exists c v,
    query_ball_point coords e tol !! argmax dots = Some c /\
    dots !! argmax dots = Some v /\ Forall (fun d => d <= v) dots /\
    attach rivers coords tol (nodes, trees) j = Ok (Tree.addChild nodes c j, trees).
Proof.
  intros Hlen Hdots.
  assert (Hdl : length dots = length (query_ball_point coords e tol)).
  { unfold tangent_dots in Hdots.
    destruct (coords_last _); [|discriminate]. simpl in Hdots.
    destruct (coords_penultimate _); [|discriminate]. simpl in Hdots.
    destruct (rmapM _ _) as [ots|] eqn:Hots; [|discriminate]. simpl in Hdots.
    injection Hdots as <-. rewrite length_map. eapply rmapM_length, Hots. }
  destruct (argmax_max dots) as (v & Hv & Hall).
  { intros ->. simpl in Hdl. lia. }
  destruct (lookup_lt_is_Some_2 (query_ball_point coords e tol) (argmax dots)) as [c Hc].
  { rewrite <- Hdl. eapply lookup_lt_Some, Hv. }
  exists c, v. repeat split; try assumption.
  unfold attach, Tree.get, coords_last. rewrite Hn. simpl. rewrite He. simpl.
  destruct (Nat.ltb_spec 1 (length (query_ball_point coords e tol))); [|lia].
  rewrite Hdots. simpl. rewrite Hc. reflexivity.
Qed.

End ForestFacts.

(** C4.  A reach whose own start lies within the tolerance of its end is
    matched with itself: it is made a child of its own node, the returned
    forest is empty, and the reach is in no tree. *)
Theorem make_global_tree_self_match :
  make_global_tree [short_reach] (1 # 10)
  = Ok ([{| Tree.segment := short_reach; Tree.parent := Some 0%nat;
            Tree.children := [0%nat] |}], []).
Proof. reflexivity. Qed.

(** ** Merge *)

(** A root whose segment is shorter than the tolerance and that has a child
    makes [merge] raise: the root is the first node visited, and re-homing
    its first child reads the segment of the parent it does not have. *)
Lemma merge_short_root_raises (a : Tree.arena) (root c : nat) (cs : list nat)
    (nd cd : Tree.Node) (tol : Q) :
  a !! root = Some nd -> Tree.parent nd = None ->
  Tree.children nd = c :: cs -> a !! c = Some cd ->
  seg_length (Tree.segment nd) < tol ->
  raises (merge a root tol).
Proof.
  intros Hnd Hp Hc Hcd Hlen. unfold merge, Tree.preOrder. simpl.
  unfold Tree.get at 1. rewrite Hnd. simpl.
  destruct (rmapM _ _) as [subs|ex]; simpl; [|eexists; reflexivity].
  unfold merge_node at 1. unfold Tree.get at 1. rewrite Hnd. simpl.
  destruct (Qlt_le_dec _ _) as [_|Hge]; [|lra].
  rewrite Hc. simpl. unfold rehome at 1. unfold Tree.get. rewrite Hcd, Hnd. simpl.
  rewrite Hp. simpl. eexists; reflexivity.
Qed.

(** C5.  The forest built from a one-unit outlet reach and a long reach
    flowing into it is a single tree; merging it with the default tolerance
    of 10 raises instead of returning. *)
Theorem merge_fails_on_short_root :
  exists a,
    make_global_tree [outlet_reach; upstream_reach] (1 # 10) = Ok (a, [0%nat]) /\
    Tree.is_consistent a 0 = true /\
    merge a 0 10 = Raise AttributeError /\
    (forall simp, cleanup simp a [0%nat] None (Some 10) (Some 10) = Raise AttributeError).
Proof.
  exists [ {| Tree.segment := outlet_reach; Tree.parent := None;
              Tree.children := [1%nat] |};
           {| Tree.segment := upstream_reach; Tree.parent := Some 0%nat;
              Tree.children := [] |} ].
  repeat split; intros; vm_compute; reflexivity.
Qed.

(** ** The pipeline entry point *)

(** [workflow.hydrography] binds [filter_rivers_to_huc], and does not bind
    [filter_rivers_to_shape]. *)
Lemma hydrography_lacks_filter_rivers_to_shape :
  Hilev.getattr Hilev.hydrography_names "filter_rivers_to_huc" = Ok tt /\
  Hilev.getattr Hilev.hydrography_names "filter_rivers_to_shape" = Raise AttributeError.
Proof. split; reflexivity. Qed.

(** The call of [snap] in the pipeline has one positional argument too
    many. *)
Lemma snap_call_has_too_many_arguments :
  Hilev.positional Hilev.snap_params 5 = Raise TypeError.
Proof. reflexivity. Qed.

(** Whatever the collaborators do and whatever the list of reaches is,
    [simplify_and_prune] raises [AttributeError] before any filtering,
    simplification or snapping; the call of [snap] further down hands five
    positional arguments to a function of four parameters. *)
Lemma simplify_and_prune_always_raises {G : Geometry}
    (polygons : HUCs.t -> result unit)
    (shapely_simplify : Segment -> Q -> Segment)
    (shape : Type) (exterior : HUCs.t -> shape)
    (split_hucs_simplify : HUCs.t -> Q -> result HUCs.t)
    (tree_len : Tree.arena -> nat -> nat)
    (filter_rivers_to_shape : shape -> list Segment -> Q -> result (list Segment))
    (hucs : HUCs.t) (reaches : list Segment) (simplify : Q)
    (prune_reach_size : nat) (cut_intersections : bool) :
  Hilev.simplify_and_prune polygons shapely_simplify shape exterior
    split_hucs_simplify tree_len filter_rivers_to_shape
    hucs reaches simplify prune_reach_size cut_intersections
  = Raise AttributeError /\
  Hilev.positional Hilev.snap_params 5 = Raise TypeError.
Proof. split; reflexivity. Qed.

(** C10.  The code fails on the empty list of reaches, which the claim has
    return normally.  The lookup of [filter_rivers_to_shape], a name that
    [workflow.hydrography] does not bind, comes before the test
    [len(reaches) is 0] that is meant to hand the empty list back: whatever
    the boundary, the arguments and the collaborators are, also if the
    missing function would return the empty list it is given, the call on
    the empty list raises [AttributeError]. *)
Theorem simplify_and_prune_empty_raises {G : Geometry}
    (polygons : HUCs.t -> result unit)
    (shapely_simplify : Segment -> Q -> Segment)
    (shape : Type) (exterior : HUCs.t -> shape)
    (split_hucs_simplify : HUCs.t -> Q -> result HUCs.t)
    (tree_len : Tree.arena -> nat -> nat)
    (filter_rivers_to_shape : shape -> list Segment -> Q -> result (list Segment))
    (hucs : HUCs.t) (simplify : Q)
    (prune_reach_size : nat) (cut_intersections : bool) :
  Hilev.simplify_and_prune polygons shapely_simplify shape exterior
    split_hucs_simplify tree_len filter_rivers_to_shape
    hucs [] simplify prune_reach_size cut_intersections
  = Raise AttributeError.
Proof. reflexivity. Qed.

(** ** Phase 1 *)

Lemma rmapM_elem_of {A B} (f : A -> result B) (l : list A) (bs : list B) :
  rmapM f l = Ok bs ->
  forall b, b ∈ bs <-> exists x, x ∈ l /\ f x = Ok b.
Proof.
  revert bs. induction l as [|x l IH]; simpl; intros bs H b.
  - injection H as <-. split.
    + intros Hb. inversion Hb.
    + intros (y & Hy & _). inversion Hy.
  - destruct (f x) as [b0|] eqn:Hx; [|discriminate]. simpl in H.
    destruct (rmapM f l) as [bs'|]; [|discriminate]. simpl in H.
    injection H as <-. rewrite elem_of_cons, (IH bs' eq_refl b). split.
    + intros [->|(y & Hy & Hfy)].
      * exists x. split; [left|]; auto.
      * exists y. split; [right|]; auto.
    + intros (y & Hy & Hfy). apply elem_of_cons in Hy as [->|Hy].
      * left. congruence.
      * right. eauto.
Qed.

Lemma rmapM_lookup {A B} (f : A -> result B) (l : list A) (bs : list B) :
  rmapM f l = Ok bs ->
  forall i x, l !! i = Some x -> exists b, bs !! i = Some b /\ f x = Ok b.
Proof.
  revert bs. induction l as [|y l IH]; simpl; intros bs H i x Hi.
  - discriminate.
  - destruct (f y) as [b0|] eqn:Hy; [|discriminate]. simpl in H.
    destruct (rmapM f l) as [bs'|]; [|discriminate]. simpl in H.
    injection H as <-. destruct i as [|i]; simpl in *.
    + injection Hi as <-. eauto.
    + eapply IH; eauto.
Qed.

Lemma elem_of_concat {A} (x : A) (ls : list (list A)) :
  x ∈ concat ls <-> exists l, x ∈ l /\ l ∈ ls.
Proof.
  induction ls as [|l ls IH]; simpl.
  - split; [intros H; inversion H | intros (l & _ & H); inversion H].
  - rewrite elem_of_app, IH. split.
    + intros [H|(l' & H1 & H2)]; [exists l | exists l']; split; auto;
        [left | right; assumption].
    + intros (l' & H1 & H2). apply elem_of_cons in H2 as [->|H2]; eauto.
Qed.

(** The coordinates of the index of Phase 1 are the last coordinates of
    all the nodes of the trees and the first coordinates of their leaves. *)
Lemma river_endpoints_elem_of (a : Tree.arena) (rivers : list nat)
    (coords : list coord) :
  river_endpoints a rivers = Ok coords ->
  forall c, c ∈ coords <->
    (exists tree ns n nd, tree ∈ rivers /\ Tree.preOrder a tree = Ok ns /\
        n ∈ ns /\ a !! n = Some nd /\ last (Tree.segment nd) = Some c) \/
    (exists tree ns n nd, tree ∈ rivers /\ Tree.leaf_nodes a tree = Ok ns /\
        n ∈ ns /\ a !! n = Some nd /\ Tree.segment nd !! 0%nat = Some c).
Proof.
  unfold river_endpoints. intros H c.
  destruct (rmapM _ rivers) as [coords1|] eqn:H1; [|discriminate]. simpl in H.
  destruct (rmapM _ rivers) as [coords2|] eqn:H2 in H; [|discriminate]. simpl in H.
  injection H as <-. rewrite elem_of_app, !elem_of_concat.
  assert (Hseg : forall ns rs, Tree.segments_of a ns = Ok rs ->
            forall r, r ∈ rs <-> exists n nd, n ∈ ns /\ a !! n = Some nd /\ Tree.segment nd = r).
  { intros ns rs Hrs r. unfold Tree.segments_of in Hrs.
    rewrite (rmapM_elem_of _ _ _ Hrs). split.
    - intros (n & Hn & Hg). unfold Tree.get in Hg.
      destruct (a !! n) as [nd|] eqn:Hnd; [|discriminate]. simpl in Hg.
      injection Hg as <-. eauto.
    - intros (n & nd & Hn & Hnd & <-). exists n. split; [assumption|].
      unfold Tree.get. rewrite Hnd. reflexivity. }
  match goal with |- (?A1 \/ ?A2) <-> (?B1 \/ ?B2) =>
    cut ((A1 <-> B1) /\ (A2 <-> B2)); [tauto|] end.
  split.
  - split.
    + intros (cs & Hc & Hcs).
      apply (rmapM_elem_of _ _ _ H1) in Hcs as (tree & Ht & Hcs).
      unfold Tree.dfs in Hcs.
      destruct (Tree.preOrder a tree) as [ns|] eqn:Hns; [|discriminate]. simpl in Hcs.
      destruct (Tree.segments_of a ns) as [rs|] eqn:Hrs; [|discriminate]. simpl in Hcs.
      apply (rmapM_elem_of _ _ _ Hcs) in Hc as (r & Hr & Hl).
      apply (Hseg _ _ Hrs) in Hr as (n & nd & Hn & Hnd & <-).
      unfold coords_last in Hl.
      destruct (last (Tree.segment nd)) eqn:Hlast; [|discriminate].
      injection Hl as <-. exists tree, ns, n, nd. auto.
    + intros (tree & ns & n & nd & Ht & Hns & Hn & Hnd & Hl).
      apply list_elem_of_lookup in Ht as [i Hi].
      destruct (rmapM_lookup _ _ _ H1 i tree Hi) as (cs & Hcs & Hf).
      exists cs. split; [|eapply list_elem_of_lookup_2; eauto].
      unfold Tree.dfs in Hf. rewrite Hns in Hf. simpl in Hf.
      destruct (Tree.segments_of a ns) as [rs|] eqn:Hrs; [|discriminate]. simpl in Hf.
      apply (rmapM_elem_of _ _ _ Hf). exists (Tree.segment nd). split.
      * apply (Hseg _ _ Hrs). eauto.
      * unfold coords_last. rewrite Hl. reflexivity.
  - split.
    + intros (cs & Hc & Hcs).
      apply (rmapM_elem_of _ _ _ H2) in Hcs as (tree & Ht & Hcs).
      unfold Tree.leaves in Hcs.
      destruct (Tree.leaf_nodes a tree) as [ns|] eqn:Hns; [|discriminate]. simpl in Hcs.
      destruct (Tree.segments_of a ns) as [rs|] eqn:Hrs; [|discriminate]. simpl in Hcs.
      apply (rmapM_elem_of _ _ _ Hcs) in Hc as (r & Hr & Hl).
      apply (Hseg _ _ Hrs) in Hr as (n & nd & Hn & Hnd & <-).
      unfold coords_first in Hl.
      destruct (Tree.segment nd !! 0%nat) eqn:Hfirst; [|discriminate].
      injection Hl as <-. exists tree, ns, n, nd. auto.
    + intros (tree & ns & n & nd & Ht & Hns & Hn & Hnd & Hl).
      apply list_elem_of_lookup in Ht as [i Hi].
      destruct (rmapM_lookup _ _ _ H2 i tree Hi) as (cs & Hcs & Hf).
      exists cs. split; [|eapply list_elem_of_lookup_2; eauto].
      unfold Tree.leaves in Hf. rewrite Hns in Hf. simpl in Hf.
      destruct (Tree.segments_of a ns) as [rs|] eqn:Hrs; [|discriminate]. simpl in Hf.
      apply (rmapM_elem_of _ _ _ Hf). exists (Tree.segment nd). split.
      * apply (Hseg _ _ Hrs). eauto.
      * unfold coords_first. rewrite Hl. reflexivity.
Qed.

(** The answer of the index to a query is a nearest coordinate. *)
Lemma kd_query_nearest (coords : list coord) (p : coord) (d : Q) (i : nat) :
  kd_query coords p = Ok (d, i) ->
  exists c, coords !! i = Some c /\ d = distance c p /\
            forall c', c' ∈ coords -> dist2 c p <= dist2 c' p.
Proof.
  unfold kd_query. set (i0 := argmax _). intros H.
  destruct (coords !! i0) as [c|] eqn:Hc; [|discriminate]. simpl in H.
  injection H as <- <-. exists c. split; [exact Hc|]. split; [reflexivity|].
  intros c' Hc'.
  destruct (argmax_max (map (fun c => - dist2 c p) coords)) as (v & Hv & Hall).
  { intros Hnil. destruct coords; [inversion Hc'|discriminate]. }
  fold i0 in Hv.
  change (map (fun c => - dist2 c p) coords) with ((fun c => - dist2 c p) <$> coords) in Hv, Hall.
  rewrite list_lookup_fmap, Hc in Hv. simpl in Hv. injection Hv as <-.
  rewrite Forall_forall in Hall.
  specialize (Hall (- dist2 c' p)).
  assert (Hin : - dist2 c' p ∈ (fun c => - dist2 c p) <$> coords).
  { apply list_elem_of_fmap. eauto. }
  specialize (Hall Hin). lra.
Qed.

Lemma last_insert_pred {A} (l : list A) (x : A) :
  l <> [] -> last (<[pred (length l) := x]> l) = Some x.
Proof.
  intros Hl. rewrite last_lookup, length_insert.
  apply list_lookup_insert_eq. destruct l; [congruence|simpl; lia].
Qed.

(** What Phase 1 does to one segment of the pool: each end whose nearest
    indexed coordinate is nearer than [tol] takes that coordinate, and
    nothing else changes. *)
Lemma snap_segment_ends_spec (coords : list coord) (tol : Q) (seg seg' : Segment) :
  (2 <= length seg)%nat ->
  snap_segment_ends coords tol seg = Ok seg' ->
  exists p0 p1 d0 i0 d1 i1,
    seg !! 0%nat = Some p0 /\ last seg = Some p1 /\
    kd_query coords p0 = Ok (d0, i0) /\ kd_query coords p1 = Ok (d1, i1) /\
    length seg' = length seg /\
    seg' !! 0%nat = (if Qlt_le_dec d0 tol then coords !! i0 else Some p0) /\
    last seg' = (if Qlt_le_dec d1 tol then coords !! i1 else Some p1) /\
    forall k, (0 < k < pred (length seg))%nat -> seg' !! k = seg !! k.
Proof.
  intros Hlen. unfold snap_segment_ends, coords_first, coords_last.
  destruct (seg !! 0%nat) as [p0|] eqn:Hp0; [|discriminate]. simpl.
  destruct (last seg) as [p1|] eqn:Hp1; [|discriminate]. simpl.
  destruct (kd_query coords p0) as [[d0 i0]|] eqn:Hq0; [|discriminate]. simpl.
  destruct (kd_query coords p1) as [[d1 i1]|] eqn:Hq1; [|discriminate]. simpl.
  intros H. exists p0, p1, d0, i0, d1, i1.
  do 4 (split; [first [assumption | reflexivity]|]).
  assert (Hne : seg <> []) by (destruct seg; [simpl in Hlen; lia|congruence]).
  destruct (Qlt_le_dec (py_min d0 d1) tol) as [Hmin|Hmin].
  - destruct (Qlt_le_dec d0 tol) as [H0|H0]; destruct (Qlt_le_dec d1 tol) as [H1|H1].
    + destruct (kd_query_nearest _ _ _ _ Hq0) as (c0 & Hc0 & _).
      destruct (kd_query_nearest _ _ _ _ Hq1) as (c1 & Hc1 & _).
      rewrite Hc0 in H |- *. cbn [rbind of_option] in H. rewrite Hc1 in H |- *. cbn [rbind of_option] in H.
      injection H as <-. rewrite !length_insert. split; [reflexivity|].
      split; [|split].
      * rewrite list_lookup_insert_ne by lia.
        apply list_lookup_insert_eq. lia.
      * rewrite last_lookup, !length_insert. apply list_lookup_insert_eq.
        rewrite length_insert. lia.
      * intros k Hk. rewrite !list_lookup_insert_ne by lia. reflexivity.
    + destruct (kd_query_nearest _ _ _ _ Hq0) as (c0 & Hc0 & _).
      rewrite Hc0 in H |- *. cbn [rbind of_option] in H. injection H as <-.
      rewrite length_insert. split; [reflexivity|]. split; [|split].
      * apply list_lookup_insert_eq. lia.
      * rewrite last_lookup, length_insert, list_lookup_insert_ne by lia.
        rewrite <- last_lookup. exact Hp1.
      * intros k Hk. rewrite list_lookup_insert_ne by lia. reflexivity.
    + destruct (kd_query_nearest _ _ _ _ Hq1) as (c1 & Hc1 & _).
      cbn [rbind of_option] in H. rewrite Hc1 in H |- *. cbn [rbind of_option] in H. injection H as <-.
      rewrite length_insert. split; [reflexivity|]. split; [|split].
      * rewrite list_lookup_insert_ne by lia. exact Hp0.
      * apply last_insert_pred. exact Hne.
      * intros k Hk. rewrite list_lookup_insert_ne by lia. reflexivity.
    + exfalso. unfold py_min in Hmin. destruct (Qlt_le_dec d1 d0); lra.
  - injection H as <-. split; [reflexivity|].
    assert (tol <= d0 /\ tol <= d1) as [H0 H1].
    { unfold py_min in Hmin. destruct (Qlt_le_dec d1 d0); split; lra. }
    destruct (Qlt_le_dec d0 tol); [lra|]. destruct (Qlt_le_dec d1 tol); [lra|].
    auto.
Qed.

(** C2, as amended.  The index of Phase 1 holds the last coordinate of
    every node of every tree (not of the roots only) and the first
    coordinate of every leaf.  For every segment of the pool, each of its
    two ends whose nearest indexed coordinate is nearer than the tolerance
    is replaced by that coordinate; the other coordinates of the segment,
    the handles and the components are left as they are. *)
Theorem snap_polygon_endpoints_spec (a : Tree.arena) (hucs hucs' : HUCs.t)
    (rivers : list nat) (tol : Q) :
  Forall (fun seg : Segment => (2 <= length seg)%nat) (HUCs.segments hucs) ->
  snap_polygon_endpoints a hucs rivers tol = Ok hucs' ->
  exists coords,
    river_endpoints a rivers = Ok coords /\
    (forall c, c ∈ coords <->
      (exists tree ns n nd, tree ∈ rivers /\ Tree.preOrder a tree = Ok ns /\
          n ∈ ns /\ a !! n = Some nd /\ last (Tree.segment nd) = Some c) \/
      (exists tree ns n nd, tree ∈ rivers /\ Tree.leaf_nodes a tree = Ok ns /\
          n ∈ ns /\ a !! n = Some nd /\ Tree.segment nd !! 0%nat = Some c)) /\
    HUCs.boundaries hucs' = HUCs.boundaries hucs /\
    HUCs.intersections hucs' = HUCs.intersections hucs /\
    length (HUCs.segments hucs') = length (HUCs.segments hucs) /\
    forall h seg, HUCs.segments hucs !! h = Some seg ->
      exists seg' p0 p1 c0 c1,
        HUCs.segments hucs' !! h = Some seg' /\
        seg !! 0%nat = Some p0 /\ last seg = Some p1 /\
        c0 ∈ coords /\ (forall c, c ∈ coords -> dist2 c0 p0 <= dist2 c p0) /\
        c1 ∈ coords /\ (forall c, c ∈ coords -> dist2 c1 p1 <= dist2 c p1) /\
        length seg' = length seg /\
        seg' !! 0%nat = Some (if Qlt_le_dec (distance c0 p0) tol then c0 else p0) /\
        last seg' = Some (if Qlt_le_dec (distance c1 p1) tol then c1 else p1) /\
        forall k, (0 < k < pred (length seg))%nat -> seg' !! k = seg !! k.
Proof.
  intros Hlen. unfold snap_polygon_endpoints.
  destruct (river_endpoints a rivers) as [coords|] eqn:Hc; [|discriminate]. simpl.
  destruct (cKDTree coords) as [kd|] eqn:Hkd; [|discriminate]. simpl.
  assert (kd = coords) as -> by (destruct coords; [discriminate|]; simpl in Hkd; congruence).
  destruct (rmapM _ _) as [segs|] eqn:Hsegs; [|discriminate]. simpl.
  intros H. injection H as <-. simpl. exists coords.
  split; [reflexivity|]. split; [apply river_endpoints_elem_of, Hc|].
  do 2 (split; [reflexivity|]). split; [eapply rmapM_length, Hsegs|].
  intros h seg Hh.
  destruct (rmapM_lookup _ _ _ Hsegs h seg Hh) as (seg' & Hseg' & Hf).
  rewrite Forall_forall in Hlen.
  destruct (snap_segment_ends_spec coords tol seg seg') as
    (p0 & p1 & d0 & i0 & d1 & i1 & Hp0 & Hp1 & Hq0 & Hq1 & Hl & Hfirst & Hlast & Hmid);
    [eapply Hlen, list_elem_of_lookup_2, Hh | exact Hf |].
  destruct (kd_query_nearest _ _ _ _ Hq0) as (c0 & Hc0 & -> & Hn0).
  destruct (kd_query_nearest _ _ _ _ Hq1) as (c1 & Hc1 & -> & Hn1).
  exists seg', p0, p1, c0, c1.
  split; [exact Hseg'|]. do 2 (split; [assumption|]).
  split; [eapply list_elem_of_lookup_2, Hc0|]. split; [exact Hn0|].
  split; [eapply list_elem_of_lookup_2, Hc1|]. split; [exact Hn1|].
  split; [exact Hl|]. split; [|split; [|exact Hmid]].
  - rewrite Hfirst. destruct (Qlt_le_dec (distance c0 p0) tol); [exact Hc0|reflexivity].
  - rewrite Hlast. destruct (Qlt_le_dec (distance c1 p1) tol); [exact Hc1|reflexivity].
Qed.

Lemma snap_polygon_endpoints_spec_witness :
  length (HUCs.segments
            {| HUCs.segments := [[(5, 5); (1, 1)]];
               HUCs.boundaries := [[0%nat]]; HUCs.intersections := [] |})
  = length (HUCs.segments hucs_at_junction).
Proof.
  destruct (snap_polygon_endpoints_spec forest_AB hucs_at_junction
              {| HUCs.segments := [[(5, 5); (1, 1)]];
                 HUCs.boundaries := [[0%nat]]; HUCs.intersections := [] |}
              [1%nat] (1 # 10))
    as (coords & _ & _ & _ & _ & Hlen & _).
  - repeat constructor.
  - vm_compute. reflexivity.
  - exact Hlen.
Defined.

(** C2, as stated, fails: the junction (1, 1) of the two reaches is in the
    index although it is neither the outlet of the tree nor the inlet of a
    leaf, and a boundary segment that ends next to it is moved onto it. *)
Lemma phase1_index_holds_junctions :
  river_endpoints forest_AB [1%nat] = Ok [(2, 2); (1, 1); (0, 0)] /\
  outlets_and_inlets forest_AB [1%nat] = Ok [(2, 2); (0, 0)] /\
  snap_polygon_endpoints forest_AB hucs_at_junction [1%nat] (1 # 10)
  = Ok {| HUCs.segments := [[(5, 5); (1, 1)]];
          HUCs.boundaries := [[0%nat]]; HUCs.intersections := [] |}.
Proof. repeat split; vm_compute; reflexivity. Qed.

(** ** The snap operation *)

Section SnapFacts.

Context {G : Geometry}.
Variable polygons : HUCs.t -> result unit.

Lemma recheck_passes a hucs rivers :
  recheck polygons a hucs rivers = Ok None <-> invariants_hold polygons a hucs rivers.
Proof.
  unfold recheck, invariants_hold.
  destruct (rivers_consistent a rivers); simpl.
  - destruct (polygons hucs) as [u|e].
    + split; eauto.
    + split.
      * destruct e; discriminate.
      * intros [_ [u Hu]]. discriminate.
  - split; [discriminate | intros [? _]; discriminate].
Qed.

Lemma recheck_fails a hucs rivers :
  (exists msg, recheck polygons a hucs rivers = Ok (Some msg)) <->
  invariant_broken polygons a hucs rivers.
Proof.
  unfold recheck, invariant_broken.
  destruct (rivers_consistent a rivers); simpl.
  - destruct (polygons hucs) as [u|e].
    + split; [intros [? ?]; discriminate | intros [?|?]; discriminate].
    + destruct e; split; try (intros [? ?]; discriminate);
        try (intros [?|?]; discriminate); eauto.
  - split; eauto.
Qed.

End SnapFacts.

(** C1, as amended.  For a non-empty list of consistent river trees and a
    boundary whose rings close, whenever [snap] returns it has followed the
    protocol: Phase 1, then both checks, then Phase 2, then both checks
    again; it returns [False] exactly when a check after a phase found an
    invariant broken, leaving both structures as that phase left them, and
    [True] when all the checks passed.  Conversely every outcome of the
    protocol is returned by [snap]. *)
Theorem snap_follows_protocol {G : Geometry} (polygons : HUCs.t -> result unit)
    (a : Tree.arena) (hucs : HUCs.t) (rivers : list nat)
    (tol : Q) (tol_triples : option Q) :
  rivers <> [] ->
  invariants_hold polygons a hucs rivers ->
  forall (b : bool) (a' : Tree.arena) (hucs' : HUCs.t),
    (exists log, snap polygons a hucs rivers tol tol_triples
                 = Ok {| sn_result := b; sn_rivers := a'; sn_hucs := hucs';
                         sn_log := log |}) <->
    protocol polygons a hucs rivers tol (default tol tol_triples) b a' hucs'.
Proof.
  intros Hne [Hcons [u Hpoly]] b a' hucs'. unfold snap.
  rewrite Hcons, Hpoly. simpl.
  destruct rivers as [|t rivers']; [congruence|]. set (rivers := t :: rivers') in *.
  change (length rivers =? 0)%nat with false. cbv iota.
  split.
  - intros [log H].
    destruct (snap_polygon_endpoints _ _ _ _) as [hucs1|] eqn:H1; [|discriminate].
    simpl in H.
    destruct (recheck polygons a hucs1 rivers) as [[msg|]|] eqn:Hr1; [| |discriminate].
    + simpl in H. injection H as <- <- <- <-.
      eapply fails_after_phase1; [exact H1|]. apply recheck_fails. eauto.
    + simpl in H.
      destruct (phase2 a hucs1 rivers tol) as [[a2 hucs2]|] eqn:H2; [|discriminate].
      simpl in H.
      destruct (recheck polygons a2 hucs2 rivers) as [[msg|]|] eqn:Hr2; [| |discriminate].
      * simpl in H. injection H as <- <- <- <-.
        eapply fails_after_phase2; eauto.
        -- apply recheck_passes, Hr1.
        -- apply recheck_fails. eauto.
      * simpl in H. injection H as <- <- <- <-.
        eapply succeeds; eauto; apply recheck_passes; assumption.
  - intros Hp. inversion Hp as [hucs1 H1 Hb | hucs1 a2 hucs2 H1 Hh H2 Hb
                               | hucs1 a2 hucs2 H1 Hh H2 Hh2]; subst.
    + rewrite H1. simpl. apply recheck_fails in Hb as [msg ->]. simpl. eauto.
    + rewrite H1. simpl. apply recheck_passes in Hh. rewrite Hh. simpl.
      rewrite H2. simpl.
      apply recheck_fails in Hb as [msg ->]. simpl. eauto.
    + rewrite H1. simpl. apply recheck_passes in Hh. rewrite Hh. simpl.
      rewrite H2. simpl.
      apply recheck_passes in Hh2. rewrite Hh2. simpl. eauto.
Qed.

Lemma snap_follows_protocol_witness :
  protocol (G := Planar.geometry) (fun _ => Ok tt) forest_AB hucs_far [1%nat]
    (1 # 10) (1 # 10) true forest_AB hucs_far.
Proof.
  apply (snap_follows_protocol (G := Planar.geometry) (fun _ => Ok tt)
           forest_AB hucs_far [1%nat] (1 # 10) None).
  - discriminate.
  - split; [vm_compute; reflexivity | exists tt; reflexivity].
  - eexists. vm_compute. reflexivity.
Defined.

(** C1, as stated, fails on the empty list of rivers: [snap] returns [True]
    at once, having run neither phase and logged nothing, whereas Phase 1
    cannot even build its index on no river, so no outcome of the protocol
    exists. *)
Lemma snap_empty_runs_no_phase :
  snap (G := Planar.geometry) (fun _ => Ok tt) forest_AB hucs_at_junction []
    (1 # 10) None
  = Ok {| sn_result := true; sn_rivers := forest_AB;
          sn_hucs := hucs_at_junction; sn_log := [] |} /\
  snap_polygon_endpoints forest_AB hucs_at_junction [] (1 # 10) = Raise ValueError /\
  forall b a' hucs',
    ~ protocol (G := Planar.geometry) (fun _ => Ok tt) forest_AB hucs_at_junction []
        (1 # 10) (1 # 10) b a' hucs'.
Proof.
  assert (H1 : snap_polygon_endpoints forest_AB hucs_at_junction [] (1 # 10)
               = Raise ValueError) by (vm_compute; reflexivity).
  split; [vm_compute; reflexivity|]. split; [exact H1|].
  intros b a' hucs' Hp. inversion Hp; congruence.
Qed.

(** A boundary whose rings do not close on entry makes [snap] raise: the
    first ring check is outside any [try]. *)
Lemma snap_raises_on_open_rings {G : Geometry} a hucs rivers tol tol_triples :
  snap (fun _ => Raise AssertionError) a hucs rivers tol tol_triples
  = Raise AssertionError.
Proof. unfold snap. destruct (rivers_consistent a rivers); reflexivity. Qed.

(** ** The arena of river tree nodes *)

Section ArenaFacts.
Import Tree.

Lemma remove_first_elem_of x k l : x ∈ remove_first k l -> x ∈ l.
Proof.
  induction l as [|y l IH]; simpl; [auto|].
  destruct (Nat.eqb_spec k y).
  - intros H. right. exact H.
  - rewrite !elem_of_cons. intros [->|H]; auto.
Qed.

Lemma remove_first_other x k l : x ∈ l -> x <> k -> x ∈ remove_first k l.
Proof.
  induction l as [|y l IH]; simpl; [auto|].
  rewrite elem_of_cons. intros Hx Hne.
  destruct (Nat.eqb_spec k y) as [->|Hky].
  - destruct Hx as [->|Hx]; [congruence|exact Hx].
  - rewrite elem_of_cons. destruct Hx as [->|Hx]; auto.
Qed.

Lemma remove_first_NoDup k l :
  NoDup l -> NoDup (remove_first k l) /\ k ∉ remove_first k l.
Proof.
  induction 1 as [|y l Hy Hl IH]; simpl.
  - split; [constructor | apply not_elem_of_nil].
  - destruct (Nat.eqb_spec k y) as [->|Hky].
    + split; assumption.
    + destruct IH as [IH1 IH2]. split.
      * constructor; [|exact IH1]. intros H. apply Hy. eapply remove_first_elem_of, H.
      * rewrite not_elem_of_cons. split; assumption.
Qed.

Lemma remove_first_absent k l : k ∉ l -> remove_first k l = l.
Proof.
  induction l as [|y l IH]; simpl; [reflexivity|].
  rewrite not_elem_of_cons. intros [Hne Hk].
  destruct (Nat.eqb_spec k y); [congruence|]. f_equal. apply IH, Hk.
Qed.

Variable a : arena.

Lemma children_of_set_children p cs q :
  children_of (set_children a p cs) q
  = if decide (q = p /\ (p < length a)%nat) then cs else children_of a q.
Proof.
  unfold children_of, set_children.
  destruct (decide (q = p /\ (p < length a)%nat)) as [[-> Hp]|Hn].
  - rewrite list_lookup_alter_eq.
    destruct (lookup_lt_is_Some_2 a p Hp) as [nd ->]. reflexivity.
  - destruct (decide (p = q)) as [->|Hpq].
    + rewrite list_lookup_alter_eq.
      destruct (a !! q) eqn:Hq; [|reflexivity].
      exfalso. apply Hn. split; [reflexivity|]. eapply lookup_lt_Some, Hq.
    + rewrite list_lookup_alter_ne by assumption. reflexivity.
Qed.

Lemma parent_of_set_children p cs q :
  parent_of (set_children a p cs) q = parent_of a q.
Proof.
  unfold parent_of, set_children.
  destruct (decide (p = q)) as [->|Hpq].
  - rewrite list_lookup_alter_eq. destruct (a !! q); reflexivity.
  - rewrite list_lookup_alter_ne by assumption. reflexivity.
Qed.

Lemma segment_of_set_children p cs q :
  segment_of (set_children a p cs) q = segment_of a q.
Proof.
  unfold segment_of, set_children.
  destruct (decide (p = q)) as [->|Hpq].
  - rewrite list_lookup_alter_eq. destruct (a !! q); reflexivity.
  - rewrite list_lookup_alter_ne by assumption. reflexivity.
Qed.

Lemma children_of_set_segment n s q :
  children_of (set_segment a n s) q = children_of a q.
Proof.
  unfold children_of, set_segment.
  destruct (decide (n = q)) as [->|Hpq].
  - rewrite list_lookup_alter_eq. destruct (a !! q); reflexivity.
  - rewrite list_lookup_alter_ne by assumption. reflexivity.
Qed.

Lemma parent_of_set_segment n s q :
  parent_of (set_segment a n s) q = parent_of a q.
Proof.
  unfold parent_of, set_segment.
  destruct (decide (n = q)) as [->|Hpq].
  - rewrite list_lookup_alter_eq. destruct (a !! q); reflexivity.
  - rewrite list_lookup_alter_ne by assumption. reflexivity.
Qed.

Lemma segment_of_set_segment n s q :
  segment_of (set_segment a n s) q
  = if decide (q = n /\ (n < length a)%nat) then s else segment_of a q.
Proof.
  unfold segment_of, set_segment.
  destruct (decide (q = n /\ (n < length a)%nat)) as [[-> Hp]|Hn].
  - rewrite list_lookup_alter_eq.
    destruct (lookup_lt_is_Some_2 a n Hp) as [nd ->]. reflexivity.
  - destruct (decide (n = q)) as [->|Hpq].
    + rewrite list_lookup_alter_eq.
      destruct (a !! q) eqn:Hq; [|reflexivity].
      exfalso. apply Hn. split; [reflexivity|]. eapply lookup_lt_Some, Hq.
    + rewrite list_lookup_alter_ne by assumption. reflexivity.
Qed.

Lemma children_of_addChild p c q :
  (c < length a)%nat ->
  children_of (addChild a p c) q
  = if decide (q = p /\ (p < length a)%nat) then children_of a p ++ [c]
    else children_of a q.
Proof.
  intros Hc. unfold children_of, addChild, set_parent.
  destruct (decide (q = p /\ (p < length a)%nat)) as [[-> Hp]|Hn].
  - rewrite list_lookup_alter_eq.
    destruct (decide (c = p)) as [->|Hcp].
    + rewrite list_lookup_alter_eq.
      destruct (lookup_lt_is_Some_2 a p Hp) as [nd ->]. reflexivity.
    + rewrite list_lookup_alter_ne by assumption.
      destruct (lookup_lt_is_Some_2 a p Hp) as [nd ->]. reflexivity.
  - destruct (decide (p = q)) as [->|Hpq].
    + rewrite list_lookup_alter_eq.
      destruct (decide (c = q)) as [->|Hcq].
      * exfalso. apply Hn. auto.
      * rewrite list_lookup_alter_ne by assumption.
        destruct (a !! q) eqn:Hq; [|reflexivity].
        exfalso. apply Hn. split; [reflexivity|]. eapply lookup_lt_Some, Hq.
    + rewrite list_lookup_alter_ne by assumption.
      destruct (decide (c = q)) as [->|Hcq].
      * rewrite list_lookup_alter_eq. destruct (a !! q); reflexivity.
      * rewrite list_lookup_alter_ne by assumption. reflexivity.
Qed.

Lemma parent_of_addChild p c q :
  (c < length a)%nat ->
  parent_of (addChild a p c) q = if decide (q = c) then Some p else parent_of a q.
Proof.
  intros Hc. unfold parent_of, addChild, set_parent.
  destruct (lookup_lt_is_Some_2 a c Hc) as [cd Hcd].
  destruct (decide (p = q)) as [->|Hpq].
  - rewrite list_lookup_alter_eq.
    destruct (decide (q = c)) as [->|Hqc].
    + rewrite list_lookup_alter_eq, Hcd. reflexivity.
    + rewrite list_lookup_alter_ne by congruence. destruct (a !! q); reflexivity.
  - rewrite list_lookup_alter_ne by assumption.
    destruct (decide (q = c)) as [->|Hqc].
    + rewrite list_lookup_alter_eq, Hcd. reflexivity.
    + rewrite list_lookup_alter_ne by congruence. reflexivity.
Qed.

Lemma segment_of_addChild p c q :
  segment_of (addChild a p c) q = segment_of a q.
Proof.
  unfold segment_of, addChild, set_parent.
  destruct (decide (p = q)) as [->|Hpq].
  - rewrite list_lookup_alter_eq.
    destruct (decide (c = q)) as [->|Hcq].
    + rewrite list_lookup_alter_eq. destruct (a !! q); reflexivity.
    + rewrite list_lookup_alter_ne by assumption. destruct (a !! q); reflexivity.
  - rewrite list_lookup_alter_ne by assumption.
    destruct (decide (c = q)) as [->|Hcq].
    + rewrite list_lookup_alter_eq. destruct (a !! q); reflexivity.
    + rewrite list_lookup_alter_ne by assumption. reflexivity.
Qed.

Lemma length_set_children p cs : length (set_children a p cs) = length a.
Proof. apply length_alter. Qed.

Lemma length_set_segment n s : length (set_segment a n s) = length a.
Proof. apply length_alter. Qed.

Lemma length_addChild p c : length (addChild a p c) = length a.
Proof. unfold addChild, set_parent. rewrite !length_alter. reflexivity. Qed.

(** Detaching [n] from its parent [p]. *)
Lemma remove_ok n p :
  parent_of a n = Some p -> (p < length a)%nat ->
  remove a n = Ok (set_children a p (remove_first n (children_of a p))).
Proof.
  unfold parent_of, children_of, remove, get. intros Hp Hlt.
  destruct (a !! n) as [nd|]; [|discriminate]. simpl. rewrite Hp.
  destruct (lookup_lt_is_Some_2 a p Hlt) as [pd ->]. reflexivity.
Qed.

End ArenaFacts.

(** ** Prune *)

Section PruneFacts.
Import Tree.

Variable tol : Q.

Lemma pruned_from_refl (a : arena) : pruned_from a a.
Proof. constructor; auto. Qed.

Lemma pruned_from_trans (a b c : arena) :
  pruned_from a b -> pruned_from b c -> pruned_from a c.
Proof.
  intros [L1 S1 P1 U1 N1] [L2 S2 P2 U2 N2]. constructor.
  - congruence.
  - intros n. rewrite S2. apply S1.
  - intros n. rewrite P2. apply P1.
  - intros p k Hk. apply U1, U2, Hk.
  - intros p Hp. apply N2, N1, Hp.
Qed.

(** One turn of the loop of [prune], at the node [k]: if its segment is
    short it is detached from its parent, and nothing else changes. *)
Lemma prune_leaf_step (a : arena) (k : nat) :
  (k < length a)%nat ->
  (seg_length (segment_of a k) < tol ->
     exists p, parent_of a k = Some p /\ (p < length a)%nat) ->
  exists a', prune_leaf tol a k = Ok a' /\ pruned_from a a' /\
    (forall p x, x ∈ children_of a p -> x ∉ children_of a' p ->
       x = k /\ seg_length (segment_of a k) < tol) /\
    (seg_length (segment_of a k) < tol ->
       forall p, parent_of a k = Some p -> NoDup (children_of a p) ->
       k ∉ children_of a' p).
Proof.
  intros Hk Hpar. unfold prune_leaf, get.
  destruct (lookup_lt_is_Some_2 a k Hk) as [nd Hnd].
  rewrite Hnd. simpl.
  assert (Hseg : segment nd = segment_of a k).
  { unfold segment_of. rewrite Hnd. reflexivity. }
  rewrite Hseg. destruct (Qlt_le_dec (seg_length (segment_of a k)) tol) as [Hs|Hs].
  - destruct (Hpar Hs) as (p & Hp & Hlt).
    rewrite (remove_ok a k p Hp Hlt).
    eexists. split; [reflexivity|]. split; [|split].
    + constructor.
      * apply length_set_children.
      * intros n. apply segment_of_set_children.
      * intros n. apply parent_of_set_children.
      * intros q x. rewrite children_of_set_children.
        destruct (decide _) as [[-> _]|_]; [|auto].
        apply remove_first_elem_of.
      * intros q Hq. rewrite children_of_set_children.
        destruct (decide _) as [[-> _]|_]; [|exact Hq].
        apply remove_first_NoDup, Hq.
    + intros q x Hx. rewrite children_of_set_children.
      destruct (decide _) as [[-> _]|_]; [|contradiction].
      intros Hnx. split; [|exact Hs].
      destruct (decide (x = k)) as [|Hne]; [assumption|].
      exfalso. apply Hnx. apply remove_first_other; assumption.
    + intros _ q Hq Hnd'. rewrite Hp in Hq. injection Hq as <-.
      rewrite children_of_set_children. rewrite decide_True by auto.
      apply remove_first_NoDup, Hnd'.
  - exists a. split; [reflexivity|]. split; [apply pruned_from_refl|]. split.
    + intros p x Hx Hnx. contradiction.
    + intros Hs'. lra.
Qed.

(** The whole loop, over a list [l] of nodes. *)
Lemma prune_loop (l : list nat) : forall a : arena,
  (forall k, k ∈ l -> (k < length a)%nat) ->
  (forall k, k ∈ l -> seg_length (segment_of a k) < tol ->
     exists p, parent_of a k = Some p /\ (p < length a)%nat) ->
  exists a', rfold (prune_leaf tol) a l = Ok a' /\ pruned_from a a' /\
    (forall p x, x ∈ children_of a p -> x ∉ children_of a' p ->
       x ∈ l /\ seg_length (segment_of a x) < tol) /\
    (forall k p, k ∈ l -> seg_length (segment_of a k) < tol ->
       parent_of a k = Some p -> NoDup (children_of a p) ->
       k ∉ children_of a' p).
Proof.
  induction l as [|k l IH]; intros a Hlt Hpar; simpl.
  - exists a. split; [reflexivity|]. split; [apply pruned_from_refl|]. split.
    + intros p x Hx Hnx. contradiction.
    + intros k p Hk. inversion Hk.
  - destruct (prune_leaf_step a k) as (a1 & -> & Ha1 & Hrem1 & Hgone1).
    { apply Hlt. left. }
    { apply Hpar. left. }
    simpl.
    destruct (IH a1) as (a' & -> & Ha' & Hrem & Hgone).
    { intros x Hx. rewrite (pf_length _ _ Ha1). apply Hlt. right. exact Hx. }
    { intros x Hx. rewrite (pf_segment _ _ Ha1), (pf_parent _ _ Ha1), (pf_length _ _ Ha1).
      apply Hpar. right. exact Hx. }
    exists a'. split; [reflexivity|].
    split; [eapply pruned_from_trans; eassumption|]. split.
    + intros p x Hx Hnx.
      destruct (decide (x ∈ children_of a1 p)) as [Hin|Hnin].
      * destruct (Hrem p x Hin Hnx) as [Hl Hs].
        rewrite (pf_segment _ _ Ha1) in Hs. split; [right; exact Hl|exact Hs].
      * destruct (Hrem1 p x Hx Hnin) as [-> Hs]. split; [left|exact Hs].
    + intros x p Hx Hs Hp Hnd. apply elem_of_cons in Hx as [->|Hx].
      * intros Hin. apply (Hgone1 Hs p Hp Hnd).
        eapply pf_subset; [exact Ha'|exact Hin].
      * apply Hgone; [exact Hx| | |].
        -- rewrite (pf_segment _ _ Ha1). exact Hs.
        -- rewrite (pf_parent _ _ Ha1). exact Hp.
        -- apply (pf_nodup _ _ Ha1), Hnd.
Qed.

Lemma is_leaf_lt (a : arena) (k : nat) : is_leaf a k = true -> (k < length a)%nat.
Proof.
  unfold is_leaf. destruct (a !! k) eqn:Hk; [|discriminate].
  intros _. eapply lookup_lt_Some, Hk.
Qed.

End PruneFacts.

(** C8, as amended.  The forest of the two reaches is the single tree
    rooted at [B] with [A] as its child; pruning it with tolerance 2
    detaches the leaf [A] and keeps [B], which was not a leaf, as a root
    without children, so the forest is not empty.  In general [prune]
    detaches the nodes that are leaves on entry, have a parent and have a
    segment shorter than the tolerance, each from the children of its
    parent, and changes nothing else: no node that was not a leaf and no
    node with a longer segment leaves a list of children. *)
Theorem prune_removes_short_leaves :
  (make_global_tree [seg_A; seg_B] (1 # 100) = Ok (forest_AB, [1%nat]) /\
   prune forest_AB 1 2 = Ok forest_AB_pruned /\
   Tree.preOrder forest_AB_pruned 1 = Ok [1%nat]) /\
  forall (a : Tree.arena) (tree : nat) (tol : Q) (ls : list nat),
    Tree.leaf_nodes a tree = Ok ls ->
    (forall k, k ∈ ls -> seg_length (Tree.segment_of a k) < tol ->
       exists p, Tree.parent_of a k = Some p /\ (p < length a)%nat) ->
    exists a',
      prune a tree tol = Ok a' /\ pruned_from a a' /\
      (forall p x, x ∈ Tree.children_of a p -> x ∉ Tree.children_of a' p ->
         x ∈ ls /\ Tree.is_leaf a x = true /\
         seg_length (Tree.segment_of a x) < tol) /\
      (forall k p, k ∈ ls -> seg_length (Tree.segment_of a k) < tol ->
         Tree.parent_of a k = Some p -> NoDup (Tree.children_of a p) ->
         k ∉ Tree.children_of a' p).
Proof.
  split.
  - repeat split; vm_compute; reflexivity.
  - intros a tree tol ls Hls Hpar.
    assert (Hleaf : forall k, k ∈ ls -> Tree.is_leaf a k = true).
    { unfold Tree.leaf_nodes in Hls.
      destruct (Tree.preOrder a tree) as [ns|]; [|discriminate]. simpl in Hls.
      injection Hls as <-. intros k Hk. apply list_elem_of_filter in Hk. tauto. }
    destruct (prune_loop tol ls a) as (a' & Hrun & Ha' & Hrem & Hgone).
    { intros k Hk. apply is_leaf_lt, Hleaf, Hk. }
    { exact Hpar. }
    exists a'. unfold prune. rewrite Hls. simpl.
    split; [exact Hrun|]. split; [exact Ha'|]. split; [|exact Hgone].
    intros p x Hx Hnx. destruct (Hrem p x Hx Hnx) as [Hl Hs]. auto.
Qed.

Lemma prune_removes_short_leaves_witness :
  exists a',
    prune forest_AB 1 2 = Ok a' /\ pruned_from forest_AB a' /\
    0%nat ∉ Tree.children_of a' 1.
Proof.
  destruct (proj2 prune_removes_short_leaves forest_AB 1%nat 2 [0%nat])
    as (a' & Hrun & Ha' & _ & Hgone).
  - vm_compute. reflexivity.
  - intros k Hk _. apply list_elem_of_singleton in Hk as ->.
    exists 1%nat. split; [reflexivity | simpl; lia].
  - exists a'. split; [exact Hrun|]. split; [exact Ha'|].
    apply Hgone.
    + apply list_elem_of_singleton. reflexivity.
    + vm_compute. reflexivity.
    + reflexivity.
    + repeat constructor. apply not_elem_of_nil.
Defined.

(** C8, as stated, fails: after the pruning the tree still has its root
    [B], so the forest is not empty. *)
Lemma prune_keeps_root :
  make_global_tree [seg_A; seg_B] (1 # 100) = Ok (forest_AB, [1%nat]) /\
  seg_length seg_B < 2 /\
  exists a', prune forest_AB 1 2 = Ok a' /\
             Tree.preOrder a' 1 = Ok [1%nat] /\
             Tree.segment_of a' 1 = seg_B.
Proof.
  split; [vm_compute; reflexivity|]. split; [vm_compute; reflexivity|].
  exists forest_AB_pruned. repeat split; vm_compute; reflexivity.
Qed.

(** ** Merge, node by node *)

Section MergeFacts.
Import Tree.

Variables (node p : nat).

(** One turn of the inner loop of [merge]. *)
Lemma rehome_ok (b b1 : arena) (c : nat) :
  parent_of b node = Some p ->
  rehome node b c = Ok b1 ->
  (c < length b)%nat /\ (p < length b)%nat /\
  exists c0, segment_of b p !! 0%nat = Some c0 /\
    b1 = addChild (set_segment b c (removelast (segment_of b c) ++ [c0])) p c.
Proof.
  unfold parent_of, segment_of, rehome, get, coords_first. intros Hp.
  destruct (b !! c) as [cd|] eqn:Hc; [|discriminate]. simpl.
  destruct (b !! node) as [nd|] eqn:Hn; [|discriminate]. simpl.
  rewrite Hp. simpl.
  destruct (b !! p) as [pd|] eqn:Hpd; [|discriminate]. simpl.
  destruct (segment pd !! 0%nat) as [c0|] eqn:Hc0; [|discriminate]. simpl.
  intros H. injection H as <-.
  split; [eapply lookup_lt_Some, Hc|]. split; [eapply lookup_lt_Some, Hpd|].
  exists c0. split; reflexivity.
Qed.

(** The inner loop of [merge] over the children [cs] of [node]. *)
Lemma rehome_loop (cs : list nat) : forall b b' : arena,
  parent_of b node = Some p -> node ∉ cs -> p ∉ cs ->
  rfold (rehome node) b cs = Ok b' ->
  length b' = length b /\
  (forall q, children_of b' q =
             if decide (q = p) then children_of b p ++ cs else children_of b q) /\
  (forall k, parent_of b' k = if decide (k ∈ cs) then Some p else parent_of b k) /\
  (forall k, if decide (k ∈ cs)
             then exists c0, segment_of b p !! 0%nat = Some c0 /\
                             segment_of b' k = removelast (segment_of b k) ++ [c0]
             else segment_of b' k = segment_of b k).
Proof.
  induction cs as [|c cs IH]; intros b b' Hp Hn Hpc; cbn [rfold].
  - intros H. injection H as <-. split; [reflexivity|]. split; [|split].
    + intros q. destruct (decide (q = p)) as [->|]; [|reflexivity].
      rewrite app_nil_r. reflexivity.
    + intros k. rewrite decide_False by apply not_elem_of_nil. reflexivity.
    + intros k. rewrite decide_False by apply not_elem_of_nil. reflexivity.
  - apply not_elem_of_cons in Hn as [Hnc Hn]. apply not_elem_of_cons in Hpc as [Hpc0 Hpc].
    destruct (rehome node b c) as [b1|] eqn:Hstep; [|discriminate]. cbn [rbind].
    destruct (rehome_ok b b1 c Hp Hstep) as (Hc & Hplt & c0 & Hc0 & Hb1).
    set (s := removelast (segment_of b c) ++ [c0]) in *.
    assert (Hc' : (c < length (set_segment b c s))%nat)
      by (rewrite length_set_segment; exact Hc).
    assert (Hlen1 : length b1 = length b).
    { rewrite Hb1, length_addChild, length_set_segment. reflexivity. }
    assert (Hch1 : forall q, children_of b1 q =
              if decide (q = p) then children_of b p ++ [c] else children_of b q).
    { intros q. rewrite Hb1, (children_of_addChild _ p c q Hc'), length_set_segment.
      rewrite !children_of_set_segment.
      destruct (decide (q = p)) as [->|Hq].
      - rewrite decide_True by auto. reflexivity.
      - rewrite decide_False by tauto. reflexivity. }
    assert (Hpa1 : forall k, parent_of b1 k =
              if decide (k = c) then Some p else parent_of b k).
    { intros k. rewrite Hb1, (parent_of_addChild _ p c k Hc').
      rewrite parent_of_set_segment. reflexivity. }
    assert (Hse1 : forall k, segment_of b1 k =
              if decide (k = c) then s else segment_of b k).
    { intros k. rewrite Hb1, segment_of_addChild, segment_of_set_segment.
      destruct (decide (k = c)) as [->|Hk].
      - rewrite decide_True by auto. reflexivity.
      - rewrite decide_False by tauto. reflexivity. }
    intros Hrest.
    destruct (IH b1 b') as (Hlen & Hch & Hpa & Hse); [|assumption|assumption|exact Hrest|].
    { rewrite Hpa1, decide_False by congruence. exact Hp. }
    split; [congruence|]. split; [|split].
    + intros q. rewrite Hch, !Hch1.
      destruct (decide (q = p)) as [->|Hq].
      * rewrite decide_True by reflexivity. rewrite <- app_assoc. reflexivity.
      * reflexivity.
    + intros k. rewrite Hpa, Hpa1.
      destruct (decide (k ∈ cs)) as [Hk|Hk].
      * rewrite decide_True by (right; exact Hk). reflexivity.
      * destruct (decide (k = c)) as [->|Hkc].
        -- rewrite decide_True by left. reflexivity.
        -- rewrite decide_False; [reflexivity|].
           rewrite not_elem_of_cons. auto.
    + intros k. specialize (Hse k). rewrite !Hse1 in Hse.
      rewrite (decide_False (P := p = c)) in Hse by congruence.
      destruct (decide (k ∈ cs)) as [Hk|Hk].
      * rewrite decide_True by (right; exact Hk).
        destruct Hse as (c0' & Hc0' & Hse). exists c0'. split; [exact Hc0'|].
        rewrite Hse. destruct (decide (k = c)) as [->|Hkc]; [|reflexivity].
        subst s. rewrite removelast_last. congruence.
      * destruct (decide (k = c)) as [->|Hkc].
        -- rewrite decide_True by left. exists c0. split; [exact Hc0|exact Hse].
        -- rewrite decide_False; [exact Hse|]. rewrite not_elem_of_cons. auto.
Qed.

End MergeFacts.

(** ** Merge, as a whole *)

Section MergeRun.
Import Tree.

Lemma remove_inv (a a' : arena) (n : nat) :
  remove a n = Ok a' ->
  exists p, parent_of a n = Some p /\ (p < length a)%nat /\
            a' = set_children a p (remove_first n (children_of a p)).
Proof.
  unfold remove, get, parent_of, children_of.
  destruct (a !! n) as [nd|]; [|discriminate]. simpl.
  destruct (parent nd) as [p|]; [|discriminate].
  destruct (a !! p) as [pd|] eqn:Hp; [|discriminate]. simpl.
  intros H. injection H as <-. exists p.
  split; [reflexivity|]. split; [eapply lookup_lt_Some, Hp | rewrite Hp; reflexivity].
Qed.

(** The visit of one node by [merge]. *)
Lemma merge_node_spec (tol : Q) (a a' : arena) (node : nat) :
  forest_shaped a -> merge_node tol a node = Ok a' ->
  (tol <= seg_length (segment_of a node) /\ a' = a) \/
  (seg_length (segment_of a node) < tol /\
   exists p, parent_of a node = Some p /\ rewired a node p a').
Proof.
  intros [(rank & Hr1 & Hr2) _]. unfold merge_node, get.
  destruct (a !! node) as [nd|] eqn:Hnd; [|discriminate]. cbn [of_option rbind].
  assert (Hseg : segment nd = segment_of a node)
    by (unfold segment_of; rewrite Hnd; reflexivity).
  assert (Hcs : children nd = children_of a node)
    by (unfold children_of; rewrite Hnd; reflexivity).
  rewrite Hseg, Hcs.
  destruct (Qlt_le_dec (seg_length (segment_of a node)) tol) as [Hs|Hs].
  2: { intros H. injection H as <-. left. auto. }
  destruct (rfold (rehome node) a (children_of a node)) as [a1|] eqn:Hloop;
    [|discriminate].
  cbn [rbind]. intros Hrm. right. split; [exact Hs|].
  destruct (parent_of a node) as [p|] eqn:Hp.
  - exists p. split; [reflexivity|].
    assert (Hn : node ∉ children_of a node).
    { intros Hin. apply Hr1 in Hin. lia. }
    assert (Hpc : p ∉ children_of a node).
    { intros Hin. apply Hr1 in Hin. apply Hr2 in Hp. lia. }
    destruct (rehome_loop node p _ a a1 Hp Hn Hpc Hloop) as (Hlen & Hch & Hpa & Hse).
    destruct (remove_inv a1 a' node Hrm) as (p' & Hp' & Hlt & ->).
    rewrite Hpa, decide_False, Hp in Hp' by exact Hn. injection Hp' as <-.
    constructor.
    + rewrite length_set_children. exact Hlen.
    + intros q. rewrite children_of_set_children.
      destruct (decide (q = p)) as [->|Hq].
      * rewrite decide_True by auto. rewrite Hch, decide_True by reflexivity.
        reflexivity.
      * rewrite decide_False by tauto. rewrite Hch, decide_False by exact Hq.
        reflexivity.
    + intros k. rewrite parent_of_set_children. apply Hpa.
    + intros k. rewrite segment_of_set_children. apply Hse.
  - exfalso. destruct (children_of a node) as [|c cs].
    + simpl in Hloop. injection Hloop as <-.
      destruct (remove_inv a a' node Hrm) as (p' & Hp' & _). congruence.
    + simpl in Hloop. unfold rehome at 1 in Hloop. unfold get in Hloop.
      destruct (a !! c); [|discriminate]. cbn [of_option rbind] in Hloop.
      rewrite Hnd in Hloop. cbn [of_option rbind] in Hloop.
      unfold parent_of in Hp. rewrite Hnd in Hp. rewrite Hp in Hloop.
      discriminate.
Qed.

(** Re-homing keeps the shape of the arena and its roots. *)
Lemma rewired_shaped (a a' : arena) (node p : nat) :
  forest_shaped a -> parent_of a node = Some p -> rewired a node p a' ->
  forest_shaped a' /\
  (forall k, parent_of a' k = None <-> parent_of a k = None).
Proof.
  intros [(rank & Hr1 & Hr2) Hcp] Hp [Hlen Hch Hpa Hse].
  assert (Hpn : (rank p < rank node)%nat) by (apply Hr2, Hp).
  assert (Hin : forall q c, c ∈ children_of a' q ->
            c ∈ children_of a q \/ (q = p /\ c ∈ children_of a node)).
  { intros q c. rewrite Hch. destruct (decide (q = p)) as [->|_]; [|auto].
    intros Hc. apply remove_first_elem_of, elem_of_app in Hc. tauto. }
  split; [constructor|].
  - exists rank. split.
    + intros q c Hc. apply Hin in Hc as [Hc|[-> Hc]].
      * apply Hr1, Hc.
      * apply Hr1 in Hc. lia.
    + intros k p'. rewrite Hpa.
      destruct (decide (k ∈ children_of a node)) as [Hk|_].
      * intros H. injection H as <-. apply Hr1 in Hk. lia.
      * apply Hr2.
  - intros q c Hc. rewrite Hpa.
    destruct (decide (c ∈ children_of a node)) as [_|Hn]; [discriminate|].
    apply Hin in Hc as [Hc|[_ Hc]]; [eapply Hcp, Hc|contradiction].
  - intros k. rewrite Hpa.
    destruct (decide (k ∈ children_of a node)) as [Hk|_]; [|reflexivity].
    split; [discriminate|]. intros Hnone. exfalso. eapply Hcp; eassumption.
Qed.

(** The loop of [merge] over the nodes [ns]. *)
Lemma merge_loop (tol : Q) (ns : list nat) : forall a a' : arena,
  forest_shaped a -> rfold (merge_node tol) a ns = Ok a' ->
  merge_run tol ns a a' /\ forest_shaped a' /\
  (forall k, parent_of a' k = None <-> parent_of a k = None).
Proof.
  induction ns as [|node ns IH]; intros a a' Hfs; cbn [rfold].
  - intros H. injection H as <-. split; [constructor|]. split; [exact Hfs|tauto].
  - destruct (merge_node tol a node) as [a1|] eqn:Hstep; [|discriminate].
    cbn [rbind]. intros Hrest.
    destruct (merge_node_spec tol a a1 node Hfs Hstep)
      as [[Hlong ->]|(Hshort & p & Hp & Hrw)].
    + destruct (IH a a' Hfs Hrest) as (Hrun & Hfs' & Hroots).
      split; [|auto]. apply run_keep; assumption.
    + destruct (rewired_shaped a a1 node p Hfs Hp Hrw) as [Hfs1 Hroots1].
      destruct (IH a1 a' Hfs1 Hrest) as (Hrun & Hfs' & Hroots).
      split; [eapply run_drop; eassumption|]. split; [exact Hfs'|].
      intros k. rewrite Hroots. apply Hroots1.
Qed.

End MergeRun.

(** C6, as amended.  On an arena of tree shape, whenever [merge] returns it
    has visited the nodes in the pre-order taken on entry; a node whose
    segment, as it is when its turn comes (the children of a removed node
    have been re-homed by then), is shorter than the tolerance is taken out
    of the children of its parent, every one of its children having had the
    last coordinate of its segment replaced by the first coordinate of the
    segment of that parent and having been appended to the children of that
    parent; the other nodes are kept as they are; the roots of the arena
    are the same before and after. *)
Theorem merge_spec (a a' : Tree.arena) (tree : nat) (tol : Q) :
  forest_shaped a ->
  merge a tree tol = Ok a' ->
  exists ns,
    Tree.preOrder a tree = Ok ns /\
    merge_run tol ns a a' /\
    forest_shaped a' /\
    (forall k, Tree.parent_of a' k = None <-> Tree.parent_of a k = None).
Proof.
  intros Hfs. unfold merge.
  destruct (Tree.preOrder a tree) as [ns|]; [|discriminate]. cbn [rbind].
  intros Hrun. exists ns. split; [reflexivity|].
  apply merge_loop; assumption.
Qed.

Lemma chain_RXY_shaped : forest_shaped chain_RXY.
Proof.
  constructor.
  - exists (fun n => n). split.
    + intros [|[|[|q]]] c Hc; vm_compute in Hc.
      * apply list_elem_of_singleton in Hc as ->. lia.
      * apply list_elem_of_singleton in Hc as ->. lia.
      * inversion Hc.
      * inversion Hc.
    + intros [|[|[|k]]] p Hp; vm_compute in Hp; try discriminate;
        injection Hp as <-; lia.
  - intros [|[|[|q]]] c Hc; vm_compute in Hc.
    + apply list_elem_of_singleton in Hc as ->. discriminate.
    + apply list_elem_of_singleton in Hc as ->. discriminate.
    + inversion Hc.
    + inversion Hc.
Qed.

Lemma merge_spec_witness :
  exists ns,
    Tree.preOrder chain_RXY 0 = Ok ns /\
    merge_run (6 # 10) ns chain_RXY
      [ {| Tree.segment := [(10, 0); (20, 0)]; Tree.parent := None;
           Tree.children := [2%nat] |};
        {| Tree.segment := [(95 # 10, 0); (10, 0)]; Tree.parent := Some 0%nat;
           Tree.children := [2%nat] |};
        {| Tree.segment := [(92 # 10, 0); (10, 0)]; Tree.parent := Some 0%nat;
           Tree.children := [] |} ].
Proof.
  destruct (merge_spec chain_RXY
    [ {| Tree.segment := [(10, 0); (20, 0)]; Tree.parent := None;
         Tree.children := [2%nat] |};
      {| Tree.segment := [(95 # 10, 0); (10, 0)]; Tree.parent := Some 0%nat;
         Tree.children := [2%nat] |};
      {| Tree.segment := [(92 # 10, 0); (10, 0)]; Tree.parent := Some 0%nat;
         Tree.children := [] |} ] 0%nat (6 # 10))
    as (ns & Hns & Hrun & _).
  - exact chain_RXY_shaped.
  - vm_compute. reflexivity.
  - exists ns. split; assumption.
Defined.

(** C6, as stated, fails: in the chain the reach [Y] is shorter than the
    tolerance on entry, but when its turn comes it has been re-homed onto
    [R] and is longer, so it stays in the tree. *)
Lemma merge_keeps_rehomed_short_node :
  seg_length (Tree.segment_of chain_RXY 2) < 6 # 10 /\
  exists a', merge chain_RXY 0 (6 # 10) = Ok a' /\
             Tree.preOrder a' 0 = Ok [0%nat; 2%nat] /\
             Tree.segment_of a' 2 = [(92 # 10, 0); (10, 0)].
Proof.
  split; [vm_compute; reflexivity|].
  eexists. split; [vm_compute; reflexivity|].
  split; vm_compute; reflexivity.
Qed.

(** ** Sorting and breaking, the list work of Phase 2 *)

Section SortFacts.

Context {A : Type} (key : A -> Q).





End SortFacts.
















Section SplitFacts.

Context {G : Geometry}.



End SplitFacts.

(** ** Deduplication and insertion *)

Section DedupFacts.

Context {G : Geometry}.
Variable a : Tree.arena.


Lemma all_not_equal_true (p1 : request) (nl : list request) :
  all_not_equal a p1 nl = Ok true ->
  forall p2, p2 ∈ nl -> equal a p1 p2 = Ok false.
Proof.
  induction nl as [|q nl IH]; simpl; intros H p2 Hp2; [inversion Hp2|].
  destruct (equal a p1 q) as [[|]|] eqn:He; try discriminate.
  cbn [rbind] in H. apply elem_of_cons in Hp2 as [->|Hp2]; [exact He|].
  apply IH; assumption.
Qed.

Lemma all_not_equal_false (p1 : request) (nl : list request) :
  all_not_equal a p1 nl = Ok false ->
  exists p2, p2 ∈ nl /\ equal a p1 p2 = Ok true.
Proof.
  induction nl as [|q nl IH]; simpl; intros H; [discriminate|].
  destruct (equal a p1 q) as [[|]|] eqn:He; try discriminate.
  - exists q. split; [left|exact He].
  - cbn [rbind] in H. destruct (IH H) as (p2 & Hp2 & Heq).
    exists p2. split; [right; exact Hp2|exact Heq].
Qed.

Lemma dedup_loop (l : list request) : forall acc l',
  rfold (fun new_list p1 =>
           do fresh <- all_not_equal a p1 new_list ;
           Ok (if fresh then new_list ++ [p1] else new_list)) acc l = Ok l' ->
  (exists rest, l' = acc ++ rest /\ forall p, p ∈ rest -> p ∈ l) /\
  (forall p1, p1 ∈ l -> p1 ∈ l' \/ exists p2, p2 ∈ l' /\ equal a p1 p2 = Ok true) /\
  (pairwise_distinct a acc -> pairwise_distinct a l').
Proof.
  induction l as [|p l IH]; intros acc l'; cbn [rfold].
  - intros H. injection H as <-. split; [|split].
    + exists []. rewrite app_nil_r. split; [reflexivity|]. intros q Hq. inversion Hq.
    + intros q Hq. inversion Hq.
    + auto.
  - destruct (all_not_equal a p acc) as [fresh|] eqn:Hf; [|discriminate].
    cbn [rbind]. intros Hrest.
    destruct (IH _ _ Hrest) as ((rest & -> & Hsub) & Hcov & Hpd). clear IH.
    destruct fresh.
    + split; [|split].
      * exists (p :: rest). rewrite <- app_assoc. split; [reflexivity|].
        intros q Hq. apply elem_of_cons in Hq as [->|Hq]; [left|right; auto].
      * intros q Hq. apply elem_of_cons in Hq as [->|Hq]; [|auto].
        left. rewrite !elem_of_app. left. right. left.
      * intros Hacc. apply Hpd. intros i j p1 p2 Hij Hi Hj.
        destruct (decide (j < length acc)%nat) as [Hlt|Hge].
        -- rewrite lookup_app_l in Hi, Hj by lia. exact (Hacc i j p1 p2 Hij Hi Hj).
        -- rewrite lookup_app_r in Hj by lia.
           destruct (j - length acc)%nat as [|k] eqn:Hk; [|destruct k; discriminate].
           simpl in Hj. injection Hj as <-.
           rewrite lookup_app_l in Hi by lia.
           eapply all_not_equal_true; [exact Hf|].
           eapply list_elem_of_lookup_2, Hi.
    + split; [|split].
      * exists rest. split; [reflexivity|].
        intros q Hq. right. auto.
      * intros q Hq. apply elem_of_cons in Hq as [->|Hq]; [|auto].
        right. destruct (all_not_equal_false _ _ Hf) as (p2 & Hp2 & He).
        exists p2. split; [|exact He]. rewrite elem_of_app. left. exact Hp2.
      * exact Hpd.
Qed.

(** The deduplicated list keeps requests of the list it was given, one for
    every group of requests that [equal] identifies: a request that is left
    out is equal to one that is kept, and no two kept requests are equal. *)
Lemma dedup_spec (l l' : list request) :
  dedup a l = Ok l' ->
  (forall p, p ∈ l' -> p ∈ l) /\
  (forall p1, p1 ∈ l -> p1 ∈ l' \/ exists p2, p2 ∈ l' /\ equal a p1 p2 = Ok true) /\
  pairwise_distinct a l'.
Proof.
  intros H. destruct (dedup_loop l [] l' H) as ((rest & -> & Hsub) & Hcov & Hpd).
  split; [exact Hsub|]. split; [exact Hcov|]. apply Hpd.
  intros i j p1 p2 _ Hi. discriminate.
Qed.

(** What the insertion does to the boundary, for one segment handle. *)
Lemma insert_points_spec (hucs hucs' : HUCs.t) (h : nat) (l : list request) :
  insert_points a hucs (h, l) = Ok hucs' ->
  exists seg ins s0 rest p0 l0,
    l = p0 :: l0 /\
    HUCs.segments hucs !! h = Some seg /\
    rmapM (request_coord a) l = Ok ins /\
    split_segment seg ins = Ok (s0 :: rest) /\
    hucs' = HUCs.component_add_many
              {| HUCs.segments := <[h := s0]> (HUCs.segments hucs) ++ rest;
                 HUCs.boundaries := HUCs.boundaries hucs;
                 HUCs.intersections := HUCs.intersections hucs |}
              (rq_component p0)
              (seq (length (HUCs.segments hucs)) (length rest)).
Proof.
  unfold insert_points, HUCs.segment.
  destruct (HUCs.segments hucs !! h) as [seg|] eqn:Hseg; [|discriminate].
  cbn [of_option rbind].
  destruct (rmapM (request_coord a) l) as [ins|] eqn:Hins; [|discriminate].
  cbn [rbind].
  destruct (split_segment seg ins) as [[|s0 rest]|] eqn:Hsplit; try discriminate.
  cbn [rbind]. destruct l as [|p0 l0]; [discriminate|].
  intros H. injection H as <-.
  exists seg, ins, s0, rest, p0, l0. do 4 (split; [first [reflexivity | assumption]|]).
  unfold HUCs.add_many, HUCs.set_segment. simpl. rewrite length_insert. reflexivity.
Qed.

End DedupFacts.

(** ** Grouping the requests by segment handle *)

Lemma group_add_keys (k : nat) (v : request) (d : list (nat * list request)) :
  forall k', k' ∈ map fst (group_add k v d) <-> k' ∈ map fst d \/ k' = k.
Proof.
  induction d as [|[k0 vs] d IH]; intros k'; simpl.
  - rewrite elem_of_cons, elem_of_nil. tauto.
  - destruct (Nat.eqb_spec k k0) as [->|Hne]; simpl.
    + rewrite !elem_of_cons. tauto.
    + rewrite !elem_of_cons, IH. tauto.
Qed.

Lemma group_add_NoDup (k : nat) (v : request) (d : list (nat * list request)) :
  NoDup (map fst d) -> NoDup (map fst (group_add k v d)).
Proof.
  induction d as [|[k0 vs] d IH]; simpl; intros Hd.
  - repeat constructor. apply not_elem_of_nil.
  - destruct (Nat.eqb_spec k k0) as [->|Hne]; simpl; [exact Hd|].
    apply NoDup_cons in Hd as [Hk0 Hd]. apply NoDup_cons. split; [|auto].
    rewrite group_add_keys. intros [H| ->]; [contradiction|congruence].
Qed.

Lemma group_add_in (k : nat) (v : request) (d : list (nat * list request)) :
  forall k' r, in_group (group_add k v d) k' r <->
               in_group d k' r \/ (k' = k /\ r = v).
Proof.
  unfold in_group. induction d as [|[k0 vs] d IH]; intros k' r; simpl.
  - split.
    + intros (vs & Hvs & Hr). apply list_elem_of_singleton in Hvs.
      injection Hvs as -> ->. apply list_elem_of_singleton in Hr. auto.
    + intros [(vs & Hvs & _)|[-> ->]]; [inversion Hvs|].
      exists [v]. split; apply list_elem_of_singleton; reflexivity.
  - destruct (Nat.eqb_spec k k0) as [->|Hne].
    + split.
      * intros (vs' & Hvs & Hr). apply elem_of_cons in Hvs as [Heq|Hvs].
        -- injection Heq as -> ->. apply elem_of_app in Hr as [Hr|Hr].
           ++ left. exists vs. split; [left|exact Hr].
           ++ apply list_elem_of_singleton in Hr. auto.
        -- left. exists vs'. split; [right; exact Hvs|exact Hr].
      * intros [(vs' & Hvs & Hr)|[-> ->]].
        -- apply elem_of_cons in Hvs as [Heq|Hvs].
           ++ injection Heq as -> ->. exists (vs ++ [v]). split; [left|].
              rewrite elem_of_app. left. exact Hr.
           ++ exists vs'. split; [right; exact Hvs|exact Hr].
        -- exists (vs ++ [v]). split; [left|].
           rewrite elem_of_app. right. left.
    + split.
      * intros (vs' & Hvs & Hr). apply elem_of_cons in Hvs as [Heq|Hvs].
        -- injection Heq as -> ->. left. exists vs. split; [left|exact Hr].
        -- destruct (proj1 (IH k' r)) as [(vs'' & Hvs'' & Hr'')|Heq]; [eauto| |auto].
           left. exists vs''. split; [right; exact Hvs''|exact Hr''].
      * intros [(vs' & Hvs & Hr)|Heq].
        -- apply elem_of_cons in Hvs as [Heq|Hvs].
           ++ injection Heq as -> ->. exists vs. split; [left|exact Hr].
           ++ destruct (proj2 (IH k' r)) as (vs'' & Hvs'' & Hr''); [left; eauto|].
              exists vs''. split; [right; exact Hvs''|exact Hr''].
        -- destruct (proj2 (IH k' r)) as (vs'' & Hvs'' & Hr''); [right; exact Heq|].
           exists vs''. split; [right; exact Hvs''|exact Hr''].
Qed.

Lemma group_loop (l : list request) : forall d,
  NoDup (map fst d) ->
  NoDup (map fst (foldl (fun d r => group_add (rq_handle r) r d) d l)) /\
  forall k r, in_group (foldl (fun d r => group_add (rq_handle r) r d) d l) k r <->
              in_group d k r \/ (r ∈ l /\ rq_handle r = k).
Proof.
  induction l as [|x l IH]; intros d Hd; simpl.
  - split; [exact Hd|]. intros k r. rewrite elem_of_nil. tauto.
  - destruct (IH (group_add (rq_handle x) x d)) as [Hnd Hin];
      [apply group_add_NoDup, Hd|].
    split; [exact Hnd|]. intros k r.
    rewrite Hin, group_add_in, elem_of_cons. split.
    + intros [[H|[-> ->]]|H]; auto. tauto.
    + intros [H|[[->|H] <-]]; auto.
Qed.

(** The dictionary of [snap_endpoints] has one entry for each segment
    handle, which holds the requests for that handle. *)
Lemma group_requests_spec (to_add : list request) :
  NoDup (map fst (group_requests to_add)) /\
  forall k r, in_group (group_requests to_add) k r <->
              r ∈ to_add /\ rq_handle r = k.
Proof.
  destruct (group_loop to_add []) as [Hnd Hin]; [constructor|].
  split; [exact Hnd|]. intros k r. unfold group_requests. rewrite Hin.
  split; [|auto]. intros [(vs & Hvs & _)|H]; [inversion Hvs|exact H].
Qed.

(** ** Phase 2: the insertions *)

Section InsertFacts.

Context {G : Geometry}.
Variable a : Tree.arena.




End InsertFacts.

Section ConflationFacts.

Context {G : Geometry}.

Lemma dedup_entries (a : Tree.arena) (dict dict2 : list (nat * list request)) :
  rmapM (fun e : nat * list request =>
           do new_list <- dedup a (snd e) ; Ok (fst e, new_list)) dict = Ok dict2 ->
  map fst dict2 = map fst dict /\
  (forall k l', (k, l') ∈ dict2 -> exists vs, (k, vs) ∈ dict /\ dedup a vs = Ok l') /\
  (forall k vs, (k, vs) ∈ dict -> exists l', (k, l') ∈ dict2 /\ dedup a vs = Ok l').
Proof.
  revert dict2. induction dict as [|[k0 vs0] dict IH]; intros dict2; cbn [rmapM].
  - intros H. injection H as <-. split; [reflexivity|].
    split; intros ? ? Hin; inversion Hin.
  - cbn [fst snd]. destruct (dedup a vs0) as [l0|] eqn:Hd; [|discriminate].
    cbn [rbind]. destruct (rmapM _ dict) as [d2|] eqn:Hrest; [|discriminate].
    cbn [rbind]. intros H. injection H as <-.
    destruct (IH d2 eq_refl) as (Hkeys & H1 & H2). split; [|split].
    + simpl. f_equal. exact Hkeys.
    + intros k l' Hin. apply elem_of_cons in Hin as [Heq|Hin].
      * injection Heq as -> ->. exists vs0. split; [left|exact Hd].
      * destruct (H1 k l' Hin) as (vs & Hvs & Hdd). exists vs. split; [right|]; assumption.
    + intros k vs Hin. apply elem_of_cons in Hin as [Heq|Hin].
      * injection Heq as -> ->. exists l0. split; [left|exact Hd].
      * destruct (H2 k vs Hin) as (l' & Hl' & Hdd). exists l'. split; [right|]; assumption.
Qed.

End ConflationFacts.



(** ** Forest construction: every reach is linked once *)

Lemma query_ball_point_elem_of (coords : list coord) (p : coord) (r : Q) (i : nat) :
  i ∈ query_ball_point coords p r <->
  0 <= r /\ exists c, coords !! i = Some c /\ dist2 c p <= r * r.
Proof.
  unfold query_ball_point. destruct (Qlt_le_dec r 0) as [Hr|Hr].
  - split; [intros H; inversion H|]. intros [H _]. lra.
  - change (map fst ?l) with (fst <$> l).
    rewrite list_elem_of_fmap. split.
    + intros ([i' c] & -> & Hin). apply list_elem_of_filter in Hin as [Hd Hin].
      apply elem_of_lookup_imap in Hin as (i0 & c0 & Heq & Hl). injection Heq as -> ->.
      split; [exact Hr|]. exists c0. split; [exact Hl|]. simpl in Hd.
      apply Qle_bool_iff, Is_true_true. exact Hd.
    + intros (_ & c & Hl & Hd). exists (i, c). split; [reflexivity|].
      apply list_elem_of_filter. split.
      * simpl. apply Is_true_true, Qle_bool_iff. exact Hd.
      * apply elem_of_lookup_imap. exists i, c. auto.
Qed.

Lemma attach_inv rivers coords tol nodes trees j nodes' trees' :
  attach rivers coords tol (nodes, trees) j = Ok (nodes', trees') ->
  exists n e, nodes !! j = Some n /\ last (Tree.segment n) = Some e /\
    ((query_ball_point coords e tol = [] /\ nodes' = nodes /\ trees' = trees ++ [j]) \/
     (exists c, c ∈ query_ball_point coords e tol /\
                nodes' = Tree.addChild nodes c j /\ trees' = trees)).
Proof.
  unfold attach, Tree.get, coords_last.
  destruct (nodes !! j) as [n|] eqn:Hn; [|discriminate]. cbn [of_option rbind].
  destruct (last (Tree.segment n)) as [e|] eqn:He; [|discriminate]. cbn [of_option rbind].
  intros H. exists n, e. split; [reflexivity|]. split; [exact He|].
  destruct (1 <? length (query_ball_point coords e tol))%nat.
  - destruct (tangent_dots _ _ _) as [dots|]; [|discriminate]. cbn [rbind] in H.
    destruct (query_ball_point coords e tol !! argmax dots) as [c|] eqn:Hc; [|discriminate].
    cbn [of_option rbind] in H. injection H as <- <-. right. exists c.
    split; [eapply list_elem_of_lookup_2, Hc|]. auto.
  - destruct (Nat.eqb_spec (length (query_ball_point coords e tol)) 0) as [H0|H0].
    + injection H as <- <-. left. split; [|auto].
      destruct (query_ball_point coords e tol); [reflexivity|discriminate].
    + destruct (query_ball_point coords e tol !! 0%nat) as [c|] eqn:Hc; [|discriminate].
      cbn [of_option rbind] in H. injection H as <- <-. right. exists c.
      split; [eapply list_elem_of_lookup_2, Hc|]. auto.
Qed.

Lemma attach_linked rivers coords tol k a trees a' trees' :
  rmapM coords_first rivers = Ok coords ->
  linked rivers tol k a trees ->
  attach rivers coords tol (a, trees) k = Ok (a', trees') ->
  linked rivers tol (S k) a' trees'.
Proof.
  intros Hco [Hlen Hseg Hroots Hrnd Hch Hcnd Hnear Hpend] Hat.
  apply attach_inv in Hat as (n & e & Hn & He & Hcase).
  assert (Hk : (k < length a)%nat) by (eapply lookup_lt_Some, Hn).
  assert (Hpk : Tree.parent_of a k = None) by (apply Hpend; lia).
  assert (Hek : last (Tree.segment_of a k) = Some e).
  { unfold Tree.segment_of. rewrite Hn. exact He. }
  destruct Hcase as [(Hq & -> & ->)|(c & Hc & -> & ->)].
  - split; try assumption.
    + intros j. rewrite elem_of_app, list_elem_of_singleton, Hroots. split.
      * intros [[H1 H2]| ->]; [split; [lia|assumption]|]. split; [lia|assumption].
      * intros [H1 H2]. destruct (decide (j = k)) as [->|Hne]; [right; reflexivity|].
        left. split; [lia|assumption].
    + apply NoDup_app. split; [assumption|]. split; [|apply NoDup_singleton].
      intros x Hx Hx'. apply list_elem_of_singleton in Hx' as ->.
      apply Hroots in Hx. lia.
    + intros p c. rewrite Hch. split; intros [H1 H2]; (split; [|assumption]); [lia|].
      destruct (decide (c = k)) as [->|Hne]; [congruence|lia].
    + intros j Hj. apply Hpend. lia.
  - apply query_ball_point_elem_of in Hc as (Htol & s & Hs & Hd).
    assert (Hcl : (c < length a)%nat).
    { rewrite Hlen, <- (rmapM_length _ _ _ Hco). eapply lookup_lt_Some, Hs. }
    assert (Hsc : head (Tree.segment_of a c) = Some s).
    { rewrite Hseg.
      destruct (lookup_lt_is_Some_2 rivers c) as [r Hr]; [lia|].
      destruct (rmapM_lookup _ _ _ Hco c r Hr) as (s' & Hs' & Hf).
      rewrite Hr. simpl. unfold coords_first in Hf. rewrite <- head_lookup in Hf.
      destruct (head r); [|discriminate]. simpl in Hf. congruence. }
    split.
    + rewrite length_addChild. exact Hlen.
    + intros j. rewrite segment_of_addChild. apply Hseg.
    + intros j. rewrite Hroots, parent_of_addChild by exact Hk.
      destruct (decide (j = k)) as [->|Hne].
      * split; [intros [H1 _]; lia | intros [_ H2]; discriminate].
      * split; intros [H1 H2]; (split; [lia|assumption]).
    + exact Hrnd.
    + intros p c'. rewrite children_of_addChild, parent_of_addChild by exact Hk.
      destruct (decide (p = c /\ (c < length a)%nat)) as [[-> _]|Hn'].
      * rewrite elem_of_app, list_elem_of_singleton, Hch.
        destruct (decide (c' = k)) as [->|Hne].
        -- split; [intros _; split; [lia|reflexivity] | intros _; right; reflexivity].
        -- split; [intros [[H1 H2]|H]; [split; [lia|assumption]|contradiction]
                  | intros [H1 H2]; left; split; [lia|assumption]].
      * rewrite Hch. destruct (decide (c' = k)) as [->|Hne].
        -- split; [intros [H1 _]; lia|]. intros [_ H2]. injection H2 as <-.
           exfalso. apply Hn'. auto.
        -- split; intros [H1 H2]; (split; [lia|assumption]).
    + intros p. rewrite children_of_addChild by exact Hk.
      destruct (decide (p = c /\ (c < length a)%nat)) as [[-> _]|Hn']; [|apply Hcnd].
      apply NoDup_app. split; [apply Hcnd|]. split; [|apply NoDup_singleton].
      intros x Hx Hx'. apply list_elem_of_singleton in Hx' as ->.
      apply Hch in Hx. lia.
    + intros p c'. rewrite parent_of_addChild, !segment_of_addChild by exact Hk.
      destruct (decide (c' = k)) as [->|Hne].
      * intros H. injection H as <-. exists s, e. auto.
      * apply Hnear.
    + intros j Hj. rewrite parent_of_addChild by exact Hk.
      destruct (decide (j = k)) as [->|Hne]; [lia|]. apply Hpend. lia.
Qed.

Lemma attach_loop rivers coords tol (m : nat) : forall k a trees a' trees',
  rmapM coords_first rivers = Ok coords ->
  linked rivers tol k a trees ->
  rfold (attach rivers coords tol) (a, trees) (seq k m) = Ok (a', trees') ->
  linked rivers tol (k + m) a' trees'.
Proof.
  induction m as [|m IH]; intros k a trees a' trees' Hco Hl H.
  - simpl in H. injection H as <- <-. rewrite Nat.add_0_r. exact Hl.
  - cbn [rfold seq] in H.
    destruct (attach rivers coords tol (a, trees) k) as [[a1 t1]|] eqn:Hat;
      [|discriminate].
    cbn [rbind] in H. replace (k + S m)%nat with (S k + m)%nat by lia.
    eapply IH; [exact Hco| |exact H]. eapply attach_linked; eassumption.
Qed.

Lemma lookup_map_new (rivers : list Segment) (j : nat) :
  Tree.segment_of (map Tree.new rivers) j = default [] (rivers !! j) /\
  Tree.parent_of (map Tree.new rivers) j = None /\
  Tree.children_of (map Tree.new rivers) j = [].
Proof.
  unfold Tree.segment_of, Tree.parent_of, Tree.children_of.
  change (map Tree.new rivers) with (Tree.new <$> rivers).
  rewrite list_lookup_fmap. destruct (rivers !! j); simpl; auto.
Qed.

Lemma linked_init (rivers : list Segment) (tol : Q) :
  linked rivers tol 0 (map Tree.new rivers) [].
Proof.
  split.
  - apply length_map.
  - intros j. apply lookup_map_new.
  - intros j. split; [intros Hj; inversion Hj | intros [Hj _]; lia].
  - constructor.
  - intros p c. rewrite (proj2 (proj2 (lookup_map_new rivers p))).
    split; [intros Hj; inversion Hj | intros [Hj _]; lia].
  - intros p. rewrite (proj2 (proj2 (lookup_map_new rivers p))). constructor.
  - intros p c. rewrite (proj1 (proj2 (lookup_map_new rivers c))). discriminate.
  - intros j _. apply lookup_map_new.
Qed.

Lemma make_global_tree_links (rivers : list Segment) (tol : Q)
    (a : Tree.arena) (trees : list nat) :
  make_global_tree rivers tol = Ok (a, trees) ->
  linked rivers tol (length rivers) a trees.
Proof.
  unfold make_global_tree. destruct (Nat.eqb_spec (length rivers) 0) as [H0|H0].
  - intros H. injection H as <- <-. destruct rivers; [|discriminate].
    apply (linked_init [] tol).
  - destruct (rmapM coords_first rivers) as [coords|] eqn:Hco; [|discriminate].
    cbn [rbind]. intros H.
    apply (attach_loop rivers coords tol (length rivers) 0%nat _ _ _ _ Hco) in H;
      [exact H|]. apply linked_init.
Qed.

Lemma rmapM_ok_on {A B} (f : A -> result B) (l : list A) :
  (forall x, x ∈ l -> exists b, f x = Ok b) -> exists bs, rmapM f l = Ok bs.
Proof.
  induction l as [|x l IH]; intros Hf; simpl; [eauto|].
  destruct (Hf x) as [b ->]; [left|]. cbn [rbind].
  destruct IH as [bs ->]; [intros y Hy; apply Hf; right; exact Hy|].
  cbn [rbind]. eauto.
Qed.

Lemma two_coords (r : list coord) :
  (2 <= length r)%nat ->
  exists c0 c1 e e', r !! 0%nat = Some c0 /\ r !! 1%nat = Some c1 /\
                     last r = Some e /\ last (removelast r) = Some e'.
Proof.
  intros H. destruct r as [|c0 [|c1 r]]; simpl in H; try lia.
  exists c0, c1.
  destruct (last (c0 :: c1 :: r)) as [e|] eqn:He.
  2:{ apply last_None in He. discriminate. }
  destruct (last (removelast (c0 :: c1 :: r))) as [e'|] eqn:He'.
  2:{ apply last_None in He'. destruct r; discriminate. }
  exists e, e'. auto.
Qed.

Lemma attach_ok rivers coords tol k a trees :
  Forall (fun r : list coord => (2 <= length r)%nat) rivers ->
  rmapM coords_first rivers = Ok coords ->
  linked rivers tol k a trees ->
  (k < length rivers)%nat ->
  exists st, attach rivers coords tol (a, trees) k = Ok st.
Proof.
  intros Hall Hco Hl Hk. destruct Hl as [Hlen Hseg _ _ _ _ _ _].
  destruct (lookup_lt_is_Some_2 a k) as [n Hn]; [lia|].
  destruct (lookup_lt_is_Some_2 rivers k) as [r Hr]; [lia|].
  assert (Hnr : Tree.segment n = r).
  { specialize (Hseg k). unfold Tree.segment_of in Hseg. rewrite Hn, Hr in Hseg. exact Hseg. }
  destruct (two_coords r) as (c0 & c1 & e & e' & H0 & H1 & He & He').
  { eapply Forall_lookup_1 in Hall; [exact Hall|exact Hr]. }
  unfold attach, Tree.get, coords_last. rewrite Hn. cbn [of_option rbind].
  rewrite Hnr, He. cbn [of_option rbind].
  set (closest := query_ball_point coords e tol).
  destruct (Nat.ltb_spec 1 (length closest)) as [Hlt|Hge].
  - assert (Hd : exists dots, tangent_dots rivers r closest = Ok dots /\
                              length dots = length closest).
    { unfold tangent_dots, coords_last, coords_penultimate. rewrite He, He'.
      cbn [of_option rbind].
      destruct (rmapM_ok_on
                  (fun c => do r0 <- of_option IndexError (rivers !! c) ;
                            do c1 <- coords_second r0 ;
                            do c0 <- coords_first r0 ;
                            Ok (unit_vector (sub c1 c0))) closest) as [ots Hots].
      { intros c Hc. apply query_ball_point_elem_of in Hc as (_ & s & Hs & _).
        destruct (lookup_lt_is_Some_2 rivers c) as [rc Hrc].
        { rewrite <- (rmapM_length _ _ _ Hco). eapply lookup_lt_Some, Hs. }
        destruct (two_coords rc) as (d0 & d1 & _ & _ & Hd0 & Hd1 & _ & _).
        { eapply Forall_lookup_1 in Hall; [exact Hall|exact Hrc]. }
        rewrite Hrc. cbn [of_option rbind]. unfold coords_second, coords_first. rewrite Hd1.
        cbn [of_option rbind]. rewrite Hd0.
        cbn [of_option rbind]. eauto. }
      rewrite Hots. cbn [rbind]. eexists. split; [reflexivity|].
      rewrite length_map. eapply rmapM_length, Hots. }
    destruct Hd as (dots & -> & Hdl). cbn [rbind].
    destruct (argmax_max dots) as (v & Hv & _).
    { intros ->. simpl in Hdl. lia. }
    destruct (lookup_lt_is_Some_2 closest (argmax dots)) as [c ->].
    { rewrite <- Hdl. eapply lookup_lt_Some, Hv. }
    cbn [of_option rbind]. eauto.
  - destruct (Nat.eqb_spec (length closest) 0); [eauto|].
    destruct (lookup_lt_is_Some_2 closest 0) as [c ->]; [lia|].
    cbn [of_option rbind]. eauto.
Qed.

Lemma attach_loop_ok rivers coords tol (m : nat) : forall k a trees,
  Forall (fun r : list coord => (2 <= length r)%nat) rivers ->
  rmapM coords_first rivers = Ok coords ->
  linked rivers tol k a trees ->
  (k + m <= length rivers)%nat ->
  exists st, rfold (attach rivers coords tol) (a, trees) (seq k m) = Ok st.
Proof.
  induction m as [|m IH]; intros k a trees Hall Hco Hl Hk; cbn [rfold seq]; [eauto|].
  destruct (attach_ok rivers coords tol k a trees Hall Hco Hl) as [[a1 t1] Hat]; [lia|].
  rewrite Hat. cbn [rbind]. apply IH; try assumption; [|lia].
  eapply attach_linked; eassumption.
Qed.

(** On reaches of at least two coordinates each, no lookup of
    [make_global_tree] goes out of range. *)
Lemma make_global_tree_returns (rivers : list Segment) (tol : Q) :
  Forall (fun r : list coord => (2 <= length r)%nat) rivers ->
  exists st, make_global_tree rivers tol = Ok st.
Proof.
  intros Hall.
  unfold make_global_tree. destruct (length rivers =? 0)%nat; [eauto|].
  destruct (rmapM_ok_on coords_first rivers) as [coords Hco].
  { intros r Hr. apply list_elem_of_lookup in Hr as [i Hi].
    destruct (two_coords r) as (c0 & _ & _ & _ & H0 & _).
    { eapply Forall_lookup_1 in Hall; [exact Hall|exact Hi]. }
    unfold coords_first. rewrite H0. simpl. eauto. }
  rewrite Hco. cbn [rbind].
  apply (attach_loop_ok rivers coords tol (length rivers) 0%nat); auto using linked_init.
Qed.

(** X1.  [make_global_tree] on reaches of at least two coordinates each
    returns, and links every reach once: node [j] carries [rivers[j]]
    unchanged; a node is listed among the returned roots, once, exactly when
    it has no parent, and is otherwise listed once among the children of
    its one parent (which is the node itself when its own start is the
    match); the start of a parent's segment lies within the join tolerance
    of the end of the child's segment. *)
Theorem make_global_tree_forest (rivers : list Segment) (tol : Q) :
  Forall (fun r : list coord => (2 <= length r)%nat) rivers ->
  exists a trees,
    make_global_tree rivers tol = Ok (a, trees) /\
    linked rivers tol (length rivers) a trees.
Proof.
  intros Hall.
  destruct (make_global_tree_returns rivers tol Hall) as [[a trees] Hrun].
  exists a, trees. split; [exact Hrun|].
  apply make_global_tree_links. exact Hrun.
Qed.

Lemma make_global_tree_forest_witness :
  exists a trees,
    make_global_tree [seg_A; seg_B] (1 # 100) = Ok (a, trees) /\
    linked [seg_A; seg_B] (1 # 100) 2 a trees.
Proof.
  apply (make_global_tree_forest [seg_A; seg_B] (1 # 100)).
  repeat constructor; simpl; lia.
Defined.

(** ** Cleanup: when the operators do nothing *)




Lemma preOrder_fuel_lt (a : Tree.arena) (fuel : nat) : forall n ns,
  Tree.preOrder_fuel fuel a n = Ok ns -> Forall (fun k => (k < length a)%nat) ns.
Proof.
  induction fuel as [|f IH]; intros n ns; simpl; [discriminate|].
  unfold Tree.get. destruct (a !! n) as [nd|] eqn:Hn; [|discriminate].
  cbn [of_option rbind].
  destruct (rmapM (Tree.preOrder_fuel f a) (Tree.children nd)) as [subs|] eqn:Hs;
    [|discriminate].
  cbn [rbind]. intros H. injection H as <-. constructor.
  - eapply lookup_lt_Some, Hn.
  - apply Forall_concat. apply Forall_forall. intros l Hl.
    apply (rmapM_elem_of _ _ _ Hs) in Hl as (c & _ & Hc). eapply IH, Hc.
Qed.

Lemma rfold_fixed {A S} (f : S -> A -> result S) (s : S) (l : list A) :
  (forall x, x ∈ l -> f s x = Ok s) -> rfold f s l = Ok s.
Proof.
  induction l as [|x l IH]; intros Hf; simpl; [reflexivity|].
  rewrite Hf by left. cbn [rbind]. apply IH. intros y Hy. apply Hf. right. exact Hy.
Qed.

(** X3.  On a tree none of whose reaches is shorter than the tolerance,
    [merge] and [prune] both return and leave the tree as it is: no node is
    removed, no segment and no link is changed. *)
Theorem merge_and_prune_without_short_reach (a : Tree.arena) (tree : nat)
    (tol : Q) (ns : list nat) :
  Tree.preOrder a tree = Ok ns ->
  (forall n, n ∈ ns -> tol <= seg_length (Tree.segment_of a n)) ->
  merge a tree tol = Ok a /\ prune a tree tol = Ok a.
Proof.
  intros Hns Hlong.
  assert (Hlt : Forall (fun k => (k < length a)%nat) ns) by (eapply preOrder_fuel_lt, Hns).
  split.
  - unfold merge. rewrite Hns. cbn [rbind]. apply rfold_fixed. intros n Hn.
    unfold merge_node, Tree.get.
    destruct (lookup_lt_is_Some_2 a n) as [nd Hnd].
    { eapply Forall_forall in Hlt; [exact Hlt|exact Hn]. }
    rewrite Hnd. cbn [of_option rbind].
    specialize (Hlong n Hn). unfold Tree.segment_of in Hlong. rewrite Hnd in Hlong.
    destruct (Qlt_le_dec (seg_length (Tree.segment nd)) tol); [lra|reflexivity].
  - unfold prune, Tree.leaf_nodes. rewrite Hns. cbn [rbind]. apply rfold_fixed.
    intros n Hn. apply list_elem_of_filter in Hn as [_ Hn].
    unfold prune_leaf, Tree.get.
    destruct (lookup_lt_is_Some_2 a n) as [nd Hnd].
    { eapply Forall_forall in Hlt; [exact Hlt|exact Hn]. }
    rewrite Hnd. cbn [of_option rbind].
    specialize (Hlong n Hn). unfold Tree.segment_of in Hlong. rewrite Hnd in Hlong.
    destruct (Qlt_le_dec (seg_length (Tree.segment nd)) tol); [lra|reflexivity].
Qed.

Lemma merge_and_prune_without_short_reach_witness :
  merge forest_AB 1 1 = Ok forest_AB /\ prune forest_AB 1 1 = Ok forest_AB.
Proof.
  apply (merge_and_prune_without_short_reach forest_AB 1%nat 1 [1%nat; 0%nat]).
  - vm_compute. reflexivity.
  - intros n Hn. apply elem_of_cons in Hn as [->|Hn];
      [|apply list_elem_of_singleton in Hn as ->]; vm_compute; discriminate.
Defined.

(** ** Phase 2: what the snapping of a river keeps *)

Lemma drop_closer_suffix (q : coord) (l : list coord) :
  exists k, drop_closer q l = drop k l /\ ((2 <= length l)%nat -> (k + 2 <= length l)%nat).
Proof.
  induction l as [|c0 l IH]; [exists 0%nat; split; [reflexivity|simpl; lia]|].
  destruct l as [|c1 [|c2 l]]; try (exists 0%nat; split; [reflexivity|simpl; lia]).
  cbn [drop_closer].
  destruct (Qlt_le_dec (distance q c1) (distance q c0)).
  - destruct IH as (k & Hk & Hlen). exists (S k). split; [exact Hk|].
    intros _. simpl in *. lia.
  - exists 0%nat. split; [reflexivity|simpl; lia].
Qed.

Lemma move_end_length (ep : endpoint) (q : coord) (r : list coord) :
  (2 <= length r)%nat ->
  (2 <= length (move_end ep q r) <= length r)%nat.
Proof.
  intros Hr. destruct ep; unfold move_end.
  - destruct (drop_closer_suffix q r) as (k & -> & Hk). specialize (Hk Hr).
    rewrite length_insert, length_drop. lia.
  - destruct (drop_closer_suffix q (rev r)) as (k & -> & Hk).
    rewrite length_rev in Hk. specialize (Hk Hr).
    rewrite length_rev, length_insert, length_drop, length_rev. lia.
Qed.

Lemma head_insert_0 {A} (x : A) (l : list A) :
  l <> [] -> head (<[0%nat := x]> l) = Some x.
Proof. destruct l; [congruence|reflexivity]. Qed.

Lemma last_insert_0 {A} (x : A) (l : list A) :
  (2 <= length l)%nat -> last (<[0%nat := x]> l) = last l.
Proof. destruct l as [|a [|b l]]; simpl; try lia. reflexivity. Qed.

Lemma last_drop {A} (k : nat) (l : list A) :
  (k < length l)%nat -> last (drop k l) = last l.
Proof.
  intros Hk. rewrite !last_lookup, length_drop, lookup_drop. f_equal. lia.
Qed.

Lemma last_rev {A} (l : list A) : last (rev l) = head l.
Proof. destruct l as [|x l]; [reflexivity|]. simpl. apply last_snoc. Qed.

Lemma head_rev {A} (l : list A) : head (rev l) = last l.
Proof. rewrite <- (rev_involutive l) at 2. symmetry. apply last_rev. Qed.

(** The end that is moved is at the new coordinate. *)
Lemma end_coord_move_end (ep : endpoint) (q : coord) (r : list coord) :
  (2 <= length r)%nat -> end_coord ep (move_end ep q r) = Ok q.
Proof.
  intros Hr. destruct ep; unfold move_end, end_coord, coords_first, coords_last.
  - destruct (drop_closer_suffix q r) as (k & -> & Hk). specialize (Hk Hr).
    rewrite <- head_lookup, head_insert_0; [reflexivity|].
    intros H. apply (f_equal length) in H. rewrite length_drop in H. simpl in H. lia.
  - destruct (drop_closer_suffix q (rev r)) as (k & -> & Hk).
    rewrite length_rev in Hk. specialize (Hk Hr).
    rewrite last_rev, head_insert_0; [reflexivity|].
    intros H. apply (f_equal length) in H. rewrite length_drop, length_rev in H.
    simpl in H. lia.
Qed.

(** The other end stays where it is. *)
Lemma end_coord_move_end_other (ep ep' : endpoint) (q : coord) (r : list coord) :
  (2 <= length r)%nat -> ep <> ep' ->
  end_coord ep' (move_end ep q r) = end_coord ep' r.
Proof.
  intros Hr Hne. destruct ep, ep'; try congruence;
    unfold move_end, end_coord, coords_first, coords_last.
  - destruct (drop_closer_suffix q r) as (k & -> & Hk). specialize (Hk Hr).
    rewrite last_insert_0 by (rewrite length_drop; lia).
    rewrite last_drop by lia. reflexivity.
  - destruct (drop_closer_suffix q (rev r)) as (k & -> & Hk).
    rewrite length_rev in Hk. specialize (Hk Hr).
    rewrite <- !head_lookup, head_rev.
    rewrite last_insert_0 by (rewrite length_drop, length_rev; lia).
    rewrite last_drop by (rewrite length_rev; lia).
    rewrite last_rev. reflexivity.
Qed.

Section SnapKeeps.

Context {G : Geometry}.
Variables (hucs : HUCs.t) (tol : Q).

(** A stage on node [n], from a state in which [river] is the segment of
    [n], of at least two coordinates. *)
Lemma snap_stage_keeps (n : nat) (component : HUCs.comp_ref) (ep : endpoint)
    (handles : list nat) :
  forall (a : Tree.arena) (to_add : list request) (river : list coord)
         (a' : Tree.arena) (to_add' : list request) (river' : list coord),
  snap_stage hucs tol n component ep handles (a, to_add, river)
  = Ok (a', to_add', river') ->
  (n < length a)%nat -> Tree.segment_of a n = river ->
  length a' = length a /\
  (forall m, Tree.parent_of a' m = Tree.parent_of a m) /\
  (forall m, Tree.children_of a' m = Tree.children_of a m) /\
  (forall m, m <> n -> Tree.segment_of a' m = Tree.segment_of a m) /\
  Tree.segment_of a' n = river' /\
  ((2 <= length river)%nat ->
   (2 <= length river' <= length river)%nat /\
   (forall p, end_coord ep river = Ok p ->
              end_coord ep river' = Ok (stage_target hucs tol handles p)) /\
   (forall ep', ep <> ep' -> end_coord ep' river' = end_coord ep' river)).
Proof.
  induction handles as [|h handles IH]; intros a to_add river a' to_add' river';
    cbn [snap_stage].
  - intros H Hn Hseg. injection H as <- <- <-.
    repeat split; auto; try lia.
  - unfold HUCs.segment.
    destruct (HUCs.segments hucs !! h) as [seg|] eqn:Hh; [|discriminate].
    cbn [of_option rbind].
    destruct (end_coord ep river) as [p|] eqn:Hp; [|discriminate]. cbn [rbind].
    cbn [stage_target]. rewrite Hh. cbn [default from_option id].
    destruct (_snap_and_cut p seg tol) as [q|] eqn:Hq.
    + intros H Hn Hseg. injection H as <- <- <-.
      split; [apply length_set_segment|].
      split; [intros m; apply parent_of_set_segment|].
      split; [intros m; apply children_of_set_segment|].
      split.
      { intros m Hm. rewrite segment_of_set_segment.
        destruct (decide (m = n /\ (n < length a)%nat)) as [[-> _]|_]; [congruence|reflexivity]. }
      split.
      { rewrite segment_of_set_segment.
        destruct (decide (n = n /\ (n < length a)%nat)) as [_|Hno]; [reflexivity|].
        exfalso. apply Hno. auto. }
      intros Hlen. split; [apply move_end_length; exact Hlen|]. split.
      * intros p' Hp'. injection Hp' as Hpp. subst p'. rewrite Hq.
        apply end_coord_move_end. exact Hlen.
      * intros ep' Hne. apply end_coord_move_end_other; assumption.
    + intros H Hn Hseg.
      destruct (IH _ _ _ _ _ _ H Hn Hseg) as (H1 & H2 & H3 & H4 & H5 & H6).
      repeat (split; [assumption|]).
      intros Hlen. destruct (H6 Hlen) as (H7 & H8 & H9).
      split; [exact H7|]. split; [|exact H9].
      intros p' Hp'. injection Hp' as Hpp. subst p'. rewrite Hq. apply H8. exact Hp.
Qed.

(** The loop over the components, both stages on each. *)
Lemma snap_components_keep (n : nat) (comps : list (HUCs.comp_ref * list nat)) :
  forall (a : Tree.arena) (to_add : list request) (river : list coord)
         (a' : Tree.arena) (to_add' : list request) (river' : list coord),
  rfold (fun st (bc : HUCs.comp_ref * list nat) =>
           do st <- snap_stage hucs tol n (fst bc) First (snd bc) st ;
           snap_stage hucs tol n (fst bc) Last (snd bc) st)
        (a, to_add, river) comps = Ok (a', to_add', river') ->
  (n < length a)%nat -> Tree.segment_of a n = river ->
  length a' = length a /\
  (forall m, Tree.parent_of a' m = Tree.parent_of a m) /\
  (forall m, Tree.children_of a' m = Tree.children_of a m) /\
  (forall m, m <> n -> Tree.segment_of a' m = Tree.segment_of a m) /\
  Tree.segment_of a' n = river' /\
  ((2 <= length river)%nat ->
   (2 <= length river' <= length river)%nat /\
   (forall ep p, end_coord ep river = Ok p ->
      end_coord ep river'
      = Ok (foldl (fun p bc => stage_target hucs tol (snd bc) p) p comps))).
Proof.
  induction comps as [|bc comps IH]; intros a to_add river a' to_add' river';
    cbn [rfold].
  - intros H Hn Hseg. injection H as <- <- <-.
    repeat split; auto; try lia.
  - destruct (snap_stage hucs tol n (fst bc) First (snd bc) (a, to_add, river))
      as [[[a1 t1] r1]|] eqn:Hs1; [|discriminate]. cbn [rbind].
    destruct (snap_stage hucs tol n (fst bc) Last (snd bc) (a1, t1, r1))
      as [[[a2 t2] r2]|] eqn:Hs2; [|discriminate]. cbn [rbind].
    intros H Hn Hseg.
    destruct (snap_stage_keeps _ _ _ _ _ _ _ _ _ _ Hs1 Hn Hseg)
      as (L1 & P1 & C1 & O1 & S1 & E1).
    assert (Hn1 : (n < length a1)%nat) by lia.
    destruct (snap_stage_keeps _ _ _ _ _ _ _ _ _ _ Hs2 Hn1 S1)
      as (L2 & P2 & C2 & O2 & S2 & E2).
    assert (Hn2 : (n < length a2)%nat) by lia.
    destruct (IH _ _ _ _ _ _ H Hn2 S2) as (L3 & P3 & C3 & O3 & S3 & E3).
    split; [lia|].
    split; [intros m; rewrite P3, P2, P1; reflexivity|].
    split; [intros m; rewrite C3, C2, C1; reflexivity|].
    split; [intros m Hm; rewrite O3, O2, O1 by assumption; reflexivity|].
    split; [exact S3|].
    intros Hlen. destruct (E1 Hlen) as (M1 & T1 & K1).
    destruct (E2 ltac:(lia)) as (M2 & T2 & K2).
    destruct (E3 ltac:(lia)) as (M3 & T3).
    split; [lia|]. intros ep p Hp. cbn [foldl]. apply T3.
    destruct ep.
    + rewrite (K2 First) by discriminate. apply T1. exact Hp.
    + apply T2. rewrite (K1 Last) by discriminate. exact Hp.
Qed.

(** The body of the loop over the nodes. *)
Lemma snap_node_keeps (n : nat) (a a' : Tree.arena) (to_add to_add' : list request) :
  snap_node hucs tol (a, to_add) n = Ok (a', to_add') ->
  length a' = length a /\
  (forall m, Tree.parent_of a' m = Tree.parent_of a m) /\
  (forall m, Tree.children_of a' m = Tree.children_of a m) /\
  (forall m, m <> n -> Tree.segment_of a' m = Tree.segment_of a m) /\
  ((2 <= length (Tree.segment_of a n))%nat ->
   (2 <= length (Tree.segment_of a' n) <= length (Tree.segment_of a n))%nat /\
   (forall ep p, end_coord ep (Tree.segment_of a n) = Ok p ->
      end_coord ep (Tree.segment_of a' n) = Ok (node_target hucs tol p))).
Proof.
  unfold snap_node, Tree.get.
  destruct (a !! n) as [nd|] eqn:Hnd; [|discriminate]. cbn [of_option rbind].
  destruct (rfold _ _ _) as [[[a1 t1] r1]|] eqn:Hloop; [|discriminate].
  cbn [rbind fst]. intros H. injection H as <- <-.
  assert (Hn : (n < length a)%nat) by (eapply lookup_lt_Some, Hnd).
  assert (Hseg : Tree.segment_of a n = Tree.segment nd).
  { unfold Tree.segment_of. rewrite Hnd. reflexivity. }
  destruct (snap_components_keep _ _ _ _ _ _ _ _ Hloop Hn Hseg)
    as (L & P & C & O & S & E).
  repeat (split; [assumption|]). rewrite Hseg, S. exact E.
Qed.

End SnapKeeps.

Lemma snap_nodes_keep {G : Geometry} (hucs : HUCs.t) (tol : Q) (ns : list nat) :
  forall (a a' : Tree.arena) (to_add to_add' : list request),
  rfold (snap_node hucs tol) (a, to_add) ns = Ok (a', to_add') ->
  length a' = length a /\
  (forall m, Tree.parent_of a' m = Tree.parent_of a m) /\
  (forall m, Tree.children_of a' m = Tree.children_of a m) /\
  (forall m, m ∉ ns -> Tree.segment_of a' m = Tree.segment_of a m) /\
  (forall m, (2 <= length (Tree.segment_of a m))%nat ->
     (2 <= length (Tree.segment_of a' m) <= length (Tree.segment_of a m))%nat) /\
  (NoDup ns -> forall m, m ∈ ns -> (2 <= length (Tree.segment_of a m))%nat ->
     forall ep p, end_coord ep (Tree.segment_of a m) = Ok p ->
       end_coord ep (Tree.segment_of a' m) = Ok (node_target hucs tol p)).
Proof.
  induction ns as [|n ns IH]; intros a a' to_add to_add'; cbn [rfold].
  - intros H. injection H as <- <-. repeat split; auto; try lia.
    intros _ m Hm. inversion Hm.
  - destruct (snap_node hucs tol (a, to_add) n) as [[a1 t1]|] eqn:Hn; [|discriminate].
    cbn [rbind]. intros H.
    destruct (snap_node_keeps hucs tol n a a1 to_add t1 Hn) as (L1 & P1 & C1 & O1 & E1).
    destruct (IH _ _ _ _ H) as (L2 & P2 & C2 & O2 & M2 & E2).
    split; [lia|].
    split; [intros m; rewrite P2, P1; reflexivity|].
    split; [intros m; rewrite C2, C1; reflexivity|].
    split.
    { intros m Hm. apply not_elem_of_cons in Hm as [Hmn Hm].
      rewrite O2, O1 by assumption. reflexivity. }
    split.
    { intros m Hm. destruct (decide (m = n)) as [->|Hmn].
      - destruct (E1 Hm) as [Hl _]. specialize (M2 n ltac:(lia)). lia.
      - rewrite <- (O1 m Hmn) in Hm |- *. apply M2. exact Hm. }
    intros Hnd m Hm Hlen ep p Hp. apply NoDup_cons in Hnd as [Hnn Hnd].
    destruct (decide (m = n)) as [->|Hmn].
    + rewrite (O2 n Hnn). apply (E1 Hlen). exact Hp.
    + apply elem_of_cons in Hm as [Hm|Hm]; [contradiction|].
      rewrite <- (O1 m Hmn) in Hlen, Hp. apply (E2 Hnd m Hm Hlen ep p Hp).
Qed.

(** X4.  [snap_endpoints] only moves coordinates of river segments: when
    it returns, the arena has the nodes it had, every node has the parent
    and the children it had, a segment of two coordinates or more still has
    two or more, and no more than it had, and the segments of the nodes
    outside the tree are as they were. *)
Theorem snap_endpoints_keeps_tree {G : Geometry} (a a' : Tree.arena)
    (hucs hucs' : HUCs.t) (tree : nat) (tol : Q) :
  snap_endpoints a hucs tree tol = Ok (a', hucs') ->
  length a' = length a /\
  (forall m, Tree.parent_of a' m = Tree.parent_of a m /\
             Tree.children_of a' m = Tree.children_of a m) /\
  (forall m, (2 <= length (Tree.segment_of a m))%nat ->
     (2 <= length (Tree.segment_of a' m) <= length (Tree.segment_of a m))%nat) /\
  (forall ns m, Tree.preOrder a tree = Ok ns -> m ∉ ns ->
     Tree.segment_of a' m = Tree.segment_of a m).
Proof.
  unfold snap_endpoints, snap_requests.
  destruct (Tree.preOrder a tree) as [ns|] eqn:Hns; [|discriminate]. cbn [rbind].
  destruct (rfold (snap_node hucs tol) (a, []) ns) as [[a1 to_add]|] eqn:Hloop;
    [|discriminate]. cbn [rbind].
  destruct (rmapM _ _) as [d2|]; [|discriminate]. cbn [rbind].
  destruct (rfold (insert_points a1) hucs d2) as [h2|]; [|discriminate]. cbn [rbind].
  intros H. injection H as <- <-.
  destruct (snap_nodes_keep hucs tol ns _ _ _ _ Hloop) as (L & P & C & O & M & _).
  split; [exact L|]. split; [intros m; split; [apply P|apply C]|].
  split; [exact M|]. intros ns' m Hns' Hm. injection Hns' as <-. apply O. exact Hm.
Qed.

(** X5.  [snap_endpoints] keeps the junctions of a river together: two
    ends of reaches of the tree (each of two coordinates or more, each node
    met once by the pre-order) that are at the same coordinate before the
    call are at the same coordinate after it, so that the last coordinate
    of a child still is the first coordinate of its parent. *)
Theorem snap_endpoints_keeps_junctions {G : Geometry} (a a' : Tree.arena)
    (hucs hucs' : HUCs.t) (tree : nat) (tol : Q) (ns : list nat)
    (n1 n2 : nat) (ep1 ep2 : endpoint) (p : coord) :
  snap_endpoints a hucs tree tol = Ok (a', hucs') ->
  Tree.preOrder a tree = Ok ns -> NoDup ns ->
  n1 ∈ ns -> n2 ∈ ns ->
  (2 <= length (Tree.segment_of a n1))%nat ->
  (2 <= length (Tree.segment_of a n2))%nat ->
  end_coord ep1 (Tree.segment_of a n1) = Ok p ->
  end_coord ep2 (Tree.segment_of a n2) = Ok p ->
  exists q, end_coord ep1 (Tree.segment_of a' n1) = Ok q /\
            end_coord ep2 (Tree.segment_of a' n2) = Ok q.
Proof.
  unfold snap_endpoints, snap_requests. intros H Hns Hnd H1 H2 L1 L2 E1 E2.
  rewrite Hns in H. cbn [rbind] in H.
  destruct (rfold (snap_node hucs tol) (a, []) ns) as [[a1 to_add]|] eqn:Hloop;
    [|discriminate]. cbn [rbind] in H.
  destruct (rmapM _ _) as [d2|]; [|discriminate]. cbn [rbind] in H.
  destruct (rfold (insert_points a1) hucs d2) as [h2|]; [|discriminate]. cbn [rbind] in H.
  injection H as <- <-.
  destruct (snap_nodes_keep hucs tol ns _ _ _ _ Hloop) as (_ & _ & _ & _ & _ & E).
  exists (node_target hucs tol p). split; apply (E Hnd); assumption.
Qed.

Lemma snap_endpoints_keeps_tree_witness :
  exists a' hucs',
    snap_endpoints (G := Planar.geometry) two_inlets_before hucs_line 0 (1 # 10)
    = Ok (a', hucs') /\
    length a' = length two_inlets_before /\
    (forall m, Tree.parent_of a' m = Tree.parent_of two_inlets_before m /\
               Tree.children_of a' m = Tree.children_of two_inlets_before m).
Proof.
  assert (Hrun : exists r, snap_endpoints (G := Planar.geometry) two_inlets_before
                             hucs_line 0 (1 # 10) = Ok r)
    by (eexists; vm_compute; reflexivity).
  destruct Hrun as [[a' hucs'] Hrun].
  destruct (snap_endpoints_keeps_tree (G := Planar.geometry)
              two_inlets_before a' hucs_line hucs' 0%nat (1 # 10) Hrun)
    as (L & PC & _).
  exists a', hucs'. auto.
Defined.

Lemma snap_endpoints_keeps_junctions_witness :
  exists a' hucs' q,
    snap_endpoints (G := Planar.geometry) two_inlets_before hucs_line 0 (1 # 10)
    = Ok (a', hucs') /\
    end_coord First (Tree.segment_of a' 0) = Ok q /\
    end_coord Last (Tree.segment_of a' 1) = Ok q.
Proof.
  assert (Hrun : exists r, snap_endpoints (G := Planar.geometry) two_inlets_before
                             hucs_line 0 (1 # 10) = Ok r)
    by (eexists; vm_compute; reflexivity).
  destruct Hrun as [[a' hucs'] Hrun].
  destruct (snap_endpoints_keeps_junctions (G := Planar.geometry)
              two_inlets_before a' hucs_line hucs' 0%nat (1 # 10)
              [0; 1; 2]%nat 0%nat 1%nat First Last (5, 3) Hrun) as (q & H1 & H2).
  - vm_compute. reflexivity.
  - apply (bool_decide_unpack _). vm_compute. exact I.
  - apply (bool_decide_unpack _). vm_compute. exact I.
  - apply (bool_decide_unpack _). vm_compute. exact I.
  - simpl. lia.
  - simpl. lia.
  - reflexivity.
  - reflexivity.
  - exists a', hucs', q. auto.
Defined.

(** ** Phase 2: the pool and its index stay in step *)

Lemma concat_alter_app (new : list nat) (B : list (list nat)) : forall b,
  (b < length B)%nat ->
  concat (alter (fun c => c ++ new) b B) ≡ₚ concat B ++ new.
Proof.
  induction B as [|c B IH]; intros b Hb; simpl in Hb; [lia|].
  destruct b as [|b].
  - change (alter (fun c => c ++ new) 0%nat (c :: B)) with ((c ++ new) :: B).
    cbn [concat]. rewrite <- !app_assoc.
    apply Permutation_app_head, Permutation_app_comm.
  - change (alter (fun c => c ++ new) (S b) (c :: B))
      with (c :: alter (fun c => c ++ new) b B).
    cbn [concat]. rewrite IH by lia. rewrite app_assoc. reflexivity.
Qed.

Lemma extended_refl (cs : list (list nat)) : extended cs cs.
Proof. split; [reflexivity|]. intros b c Hc. exists []. rewrite app_nil_r. exact Hc. Qed.

Lemma extended_trans (cs1 cs2 cs3 : list (list nat)) :
  extended cs1 cs2 -> extended cs2 cs3 -> extended cs1 cs3.
Proof.
  intros [L1 E1] [L2 E2]. split; [congruence|]. intros b c Hc.
  destruct (E1 b c Hc) as [n1 H1]. destruct (E2 b _ H1) as [n2 H2].
  exists (n1 ++ n2). rewrite app_assoc. exact H2.
Qed.

Lemma extended_alter (new : list nat) (cs : list (list nat)) (b : nat) :
  extended cs (alter (fun c => c ++ new) b cs).
Proof.
  split; [apply length_alter|]. intros b' c Hc.
  destruct (decide (b = b')) as [->|Hne].
  - exists new. rewrite list_lookup_alter_eq, Hc. reflexivity.
  - exists []. rewrite list_lookup_alter_ne by assumption. rewrite app_nil_r. exact Hc.
Qed.

(** Adding the new segments [rest] of one insertion under new handles, and
    these handles to a component of the boundary. *)
Lemma add_many_indexed (hucs : HUCs.t) (h : nat) (s0 : list coord)
    (rest : list (list coord)) (r : HUCs.comp_ref) :
  well_indexed hucs -> component_of hucs r ->
  let hucs' :=
    HUCs.component_add_many
      {| HUCs.segments := <[h := s0]> (HUCs.segments hucs) ++ rest;
         HUCs.boundaries := HUCs.boundaries hucs;
         HUCs.intersections := HUCs.intersections hucs |}
      r (seq (length (HUCs.segments hucs)) (length rest)) in
  well_indexed hucs' /\
  extended (HUCs.boundaries hucs) (HUCs.boundaries hucs') /\
  extended (HUCs.intersections hucs) (HUCs.intersections hucs') /\
  length (HUCs.segments hucs') = (length (HUCs.segments hucs) + length rest)%nat.
Proof.
  intros [Hnd Hin] Hr hucs'.
  assert (Hperm : listed_handles hucs' ≡ₚ
            listed_handles hucs ++ seq (length (HUCs.segments hucs)) (length rest)).
  { unfold hucs', listed_handles. destruct r as [b|b]; simpl in *.
    - rewrite concat_alter_app by exact Hr.
      rewrite <- !app_assoc. apply Permutation_app_head, Permutation_app_comm.
    - rewrite concat_alter_app by exact Hr. rewrite app_assoc. reflexivity. }
  assert (Hlen : length (HUCs.segments hucs')
                 = (length (HUCs.segments hucs) + length rest)%nat).
  { unfold hucs'. destruct r; simpl; rewrite length_app, length_insert; reflexivity. }
  split; [split|].
  - rewrite Hperm. apply NoDup_app. split; [exact Hnd|]. split; [|apply NoDup_seq].
    intros k Hk Hk'. apply Hin in Hk. apply elem_of_seq in Hk'. lia.
  - intros k. rewrite Hperm, elem_of_app, Hin, elem_of_seq, Hlen. lia.
  - split; [|split; [|exact Hlen]]; unfold hucs'; destruct r; simpl;
      first [apply extended_refl | apply extended_alter].
Qed.

Lemma components_of_boundary (hucs : HUCs.t) :
  Forall (fun bc : HUCs.comp_ref * list nat => component_of hucs (fst bc))
         (HUCs.components hucs).
Proof.
  unfold HUCs.components. apply Forall_app. split; apply Forall_forall;
    intros [r c] Hin; apply elem_of_lookup_imap in Hin as (b & c' & Heq & Hb);
    injection Heq as -> ->; simpl; eapply lookup_lt_Some, Hb.
Qed.

Section RequestComponents.

Context {G : Geometry}.
Variables (hucs : HUCs.t) (tol : Q).

Lemma snap_stage_components node component ep (handles : list nat) :
  component_of hucs component ->
  forall (st st' : Tree.arena * list request * list coord),
  snap_stage hucs tol node component ep handles st = Ok st' ->
  components_valid hucs (snd (fst st)) -> components_valid hucs (snd (fst st')).
Proof.
  intros Hc. induction handles as [|h handles IH]; intros [[a to_add] river] st';
    cbn [snap_stage].
  - intros H. injection H as <-. auto.
  - destruct (HUCs.segment hucs h) as [seg|]; [|discriminate]. cbn [rbind].
    destruct (end_coord ep river) as [p|]; [|discriminate]. cbn [rbind].
    destruct (_snap_and_cut p seg tol) as [new_coord|].
    + intros H. injection H as <-. simpl. intros Hv.
      apply Forall_app. split; [exact Hv|]. constructor; [exact Hc|constructor].
    + apply IH.
Qed.

Lemma snap_loop_components node (comps : list (HUCs.comp_ref * list nat)) :
  Forall (fun bc : HUCs.comp_ref * list nat => component_of hucs (fst bc)) comps ->
  forall (st st' : Tree.arena * list request * list coord),
  rfold (fun st (bc : HUCs.comp_ref * list nat) =>
           do st <- snap_stage hucs tol node (fst bc) First (snd bc) st ;
           snap_stage hucs tol node (fst bc) Last (snd bc) st) st comps = Ok st' ->
  components_valid hucs (snd (fst st)) -> components_valid hucs (snd (fst st')).
Proof.
  induction comps as [|bc comps IH]; intros Hall st0 st'; cbn [rfold].
  - intros H. injection H as <-. auto.
  - apply Forall_cons in Hall as [Hbc Hall].
    destruct (snap_stage hucs tol node (fst bc) First (snd bc) st0) as [sa|] eqn:Ha;
      [|discriminate]. cbn [rbind].
    destruct (snap_stage hucs tol node (fst bc) Last (snd bc) sa) as [sb|] eqn:Hb;
      [|discriminate]. cbn [rbind].
    intros Hrest Hv. eapply IH; [exact Hall|exact Hrest|].
    eapply snap_stage_components; [exact Hbc|exact Hb|].
    eapply snap_stage_components; [exact Hbc|exact Ha|]. exact Hv.
Qed.

Lemma snap_requests_components (a a' : Tree.arena) (tree : nat)
    (to_add : list request) :
  snap_requests a hucs tree tol = Ok (a', to_add) -> components_valid hucs to_add.
Proof.
  unfold snap_requests.
  destruct (Tree.preOrder a tree) as [ns|]; [|discriminate]. cbn [rbind].
  assert (Hgen : forall st st', rfold (snap_node hucs tol) st ns = Ok st' ->
            components_valid hucs (snd st) -> components_valid hucs (snd st')).
  { induction ns as [|n ns IH]; intros st st'; cbn [rfold].
    - intros H. injection H as <-. auto.
    - destruct (snap_node hucs tol st n) as [st1|] eqn:H1; [|discriminate].
      cbn [rbind]. intros Hrest Hv. eapply IH; [exact Hrest|].
      destruct st as [a0 t0]. unfold snap_node in H1.
      destruct (Tree.get a0 n) as [nd|]; [|discriminate]. cbn [rbind] in H1.
      destruct (rfold _ _ _) as [st2|] eqn:Hloop; [|discriminate]. cbn [rbind] in H1.
      injection H1 as <-. destruct st2 as [[a2 t2] r2].
      apply (snap_loop_components n _ (components_of_boundary hucs) _ _ Hloop). exact Hv. }
  intros H. apply (Hgen _ _ H). constructor.
Qed.

End RequestComponents.

Lemma insert_loop_indexed {G : Geometry} (a : Tree.arena)
    (dict : list (nat * list request)) :
  forall hucs hucs' : HUCs.t,
  rfold (insert_points a) hucs dict = Ok hucs' ->
  well_indexed hucs ->
  (forall h l p, (h, l) ∈ dict -> p ∈ l -> component_of hucs (rq_component p)) ->
  well_indexed hucs' /\
  extended (HUCs.boundaries hucs) (HUCs.boundaries hucs') /\
  extended (HUCs.intersections hucs) (HUCs.intersections hucs') /\
  (length (HUCs.segments hucs) <= length (HUCs.segments hucs'))%nat.
Proof.
  induction dict as [|[h l] dict IH]; intros hucs hucs'; cbn [rfold].
  - intros H Hw _. injection H as <-. split; [exact Hw|].
    split; [apply extended_refl|]. split; [apply extended_refl|]. lia.
  - destruct (insert_points a hucs (h, l)) as [hucs1|] eqn:H1; [|discriminate].
    cbn [rbind]. intros Hrest Hw Hcomp.
    destruct (insert_points_spec a hucs hucs1 h l H1)
      as (seg & ins & s0 & rest & p0 & l0 & -> & Hseg & Hins & Hsplit & Heq).
    destruct (add_many_indexed hucs h s0 rest (rq_component p0) Hw) as (W1 & B1 & I1 & L1).
    { apply (Hcomp h (p0 :: l0) p0); left. }
    rewrite <- Heq in W1, B1, I1, L1.
    destruct (IH hucs1 hucs' Hrest W1) as (W2 & B2 & I2 & L2).
    { intros h' l' p Hin Hp.
      assert (Hc : component_of hucs (rq_component p)).
      { apply (Hcomp h' l' p); [right; exact Hin|exact Hp]. }
      destruct B1 as [LB _], I1 as [LI _].
      unfold component_of in *. destruct (rq_component p); lia. }
    split; [exact W2|].
    split; [eapply extended_trans; eassumption|].
    split; [eapply extended_trans; eassumption|]. lia.
Qed.

(** X6.  [snap_endpoints] keeps the segment pool and its index in step: if
    every handle of the pool is listed by one component, once, before the
    call, then so it is after it, the handles of the new segments included;
    every component keeps the handles it had, in their order, new handles
    being added at its end, and no segment leaves the pool. *)
Theorem snap_endpoints_keeps_index {G : Geometry} (a a' : Tree.arena)
    (hucs hucs' : HUCs.t) (tree : nat) (tol : Q) :
  well_indexed hucs ->
  snap_endpoints a hucs tree tol = Ok (a', hucs') ->
  well_indexed hucs' /\
  extended (HUCs.boundaries hucs) (HUCs.boundaries hucs') /\
  extended (HUCs.intersections hucs) (HUCs.intersections hucs') /\
  (length (HUCs.segments hucs) <= length (HUCs.segments hucs'))%nat.
Proof.
  intros Hw. unfold snap_endpoints.
  destruct (snap_requests a hucs tree tol) as [[a1 to_add]|] eqn:Hreq; [|discriminate].
  cbn [rbind].
  destruct (rmapM _ (group_requests to_add)) as [dict2|] eqn:Hdd; [|discriminate].
  cbn [rbind].
  destruct (rfold (insert_points a1) hucs dict2) as [hucs2|] eqn:Hins; [|discriminate].
  cbn [rbind]. intros H. injection H as <- <-.
  apply (insert_loop_indexed a1 dict2 hucs hucs2 Hins Hw).
  intros h l' p Hin Hp.
  destruct (dedup_entries a1 _ _ Hdd) as (_ & Hback & _).
  destruct (Hback h l' Hin) as (vs & Hvs & Hd).
  destruct (dedup_spec a1 vs l' Hd) as (Hsub & _).
  destruct (group_requests_spec to_add) as [_ Hgrp].
  assert (Hp' : p ∈ to_add).
  { apply (Hgrp h p). exists vs. split; [exact Hvs|]. apply Hsub. exact Hp. }
  pose proof (snap_requests_components hucs tol a a1 tree to_add Hreq) as Hall.
  eapply Forall_forall in Hall; [exact Hall|exact Hp'].
Qed.

Lemma hucs_line_indexed : well_indexed hucs_line.
Proof.
  split.
  - apply (bool_decide_unpack _). vm_compute. exact I.
  - intros k. unfold listed_handles. simpl. rewrite list_elem_of_singleton. lia.
Qed.

Lemma snap_endpoints_keeps_index_witness :
  exists a' hucs',
    snap_endpoints (G := Planar.geometry) two_inlets_before hucs_line 0 (1 # 10)
    = Ok (a', hucs') /\
    well_indexed hucs' /\
    extended (HUCs.boundaries hucs_line) (HUCs.boundaries hucs').
Proof.
  assert (Hrun : exists r, snap_endpoints (G := Planar.geometry) two_inlets_before
                             hucs_line 0 (1 # 10) = Ok r)
    by (eexists; vm_compute; reflexivity).
  destruct Hrun as [[a' hucs'] Hrun].
  destruct (snap_endpoints_keeps_index (G := Planar.geometry)
              two_inlets_before a' hucs_line hucs' 0%nat (1 # 10)
              hucs_line_indexed Hrun) as (W & B & _).
  exists a', hucs'. auto.
Defined.

(** ** Phase 2: nothing to snap *)

Lemma components_listed (hucs : HUCs.t) (r : HUCs.comp_ref) (hs : list nat) (h : nat) :
  (r, hs) ∈ HUCs.components hucs -> h ∈ hs -> h ∈ listed_handles hucs.
Proof.
  unfold HUCs.components, listed_handles. rewrite !elem_of_app.
  intros [Hin|Hin] Hh; apply elem_of_lookup_imap in Hin as (b & c & Heq & Hb);
    injection Heq as -> ->; [left|right]; apply elem_of_concat; exists c;
    (split; [exact Hh|]); eapply list_elem_of_lookup_2, Hb.
Qed.

Section NothingSnaps.

Context {G : Geometry}.
Variables (hucs : HUCs.t) (tol : Q) (a : Tree.arena) (n : nat) (river : list coord).

Hypothesis Hriver : river <> [].
Hypothesis Hnone : forall ep p h seg,
  end_coord ep river = Ok p -> h ∈ listed_handles hucs ->
  HUCs.segments hucs !! h = Some seg -> _snap_and_cut p seg tol = None.
Hypothesis Hvalid : forall k, k ∈ listed_handles hucs ->
  (k < length (HUCs.segments hucs))%nat.

Lemma end_coord_ok ep : exists p, end_coord ep river = Ok p.
Proof.
  destruct river as [|c r] eqn:Hr; [congruence|]. destruct ep; simpl.
  - exists c. reflexivity.
  - unfold coords_last. destruct (last (c :: r)) as [e|] eqn:He; [eauto|].
    apply last_None in He. discriminate.
Qed.

Lemma snap_stage_nothing component ep (handles : list nat) (to_add : list request) :
  (forall h, h ∈ handles -> h ∈ listed_handles hucs) ->
  snap_stage hucs tol n component ep handles (a, to_add, river)
  = Ok (a, to_add, river).
Proof.
  induction handles as [|h handles IH]; intros Hin; cbn [snap_stage]; [reflexivity|].
  assert (Hh : h ∈ listed_handles hucs) by (apply Hin; left).
  destruct (lookup_lt_is_Some_2 (HUCs.segments hucs) h (Hvalid h Hh)) as [seg Hseg].
  unfold HUCs.segment. rewrite Hseg. cbn [of_option rbind].
  destruct (end_coord_ok ep) as [p Hp]. rewrite Hp. cbn [rbind].
  rewrite (Hnone ep p h seg Hp Hh Hseg).
  apply IH. intros h' Hh'. apply Hin. right. exact Hh'.
Qed.

Lemma snap_loop_nothing (comps : list (HUCs.comp_ref * list nat))
    (to_add : list request) :
  (forall bc, bc ∈ comps -> bc ∈ HUCs.components hucs) ->
  rfold (fun st (bc : HUCs.comp_ref * list nat) =>
           do st <- snap_stage hucs tol n (fst bc) First (snd bc) st ;
           snap_stage hucs tol n (fst bc) Last (snd bc) st)
        (a, to_add, river) comps = Ok (a, to_add, river).
Proof.
  induction comps as [|[r hs] comps IH]; intros Hin; cbn [rfold]; [reflexivity|].
  assert (Hhs : forall h, h ∈ hs -> h ∈ listed_handles hucs).
  { intros h Hh. eapply components_listed; [apply Hin; left|exact Hh]. }
  cbn [fst snd]. rewrite (snap_stage_nothing r First hs to_add Hhs). cbn [rbind].
  rewrite (snap_stage_nothing r Last hs to_add Hhs).
  apply IH. intros bc Hbc. apply Hin. right. exact Hbc.
Qed.

End NothingSnaps.

(** X7.  When no end of a reach of the tree yields a new coordinate against
    any segment that the components list (every listed handle being a
    handle of the pool, every reach having a coordinate),
    [snap_endpoints] returns and leaves the river tree and the boundary
    exactly as they are: no request is recorded and no segment is cut. *)
Theorem snap_endpoints_nothing_to_snap {G : Geometry} (a : Tree.arena)
    (hucs : HUCs.t) (tree : nat) (tol : Q) (ns : list nat) :
  Tree.preOrder a tree = Ok ns ->
  (forall k, k ∈ listed_handles hucs -> (k < length (HUCs.segments hucs))%nat) ->
  (forall n, n ∈ ns -> Tree.segment_of a n <> []) ->
  (forall n ep p h seg, n ∈ ns ->
     end_coord ep (Tree.segment_of a n) = Ok p ->
     h ∈ listed_handles hucs -> HUCs.segments hucs !! h = Some seg ->
     _snap_and_cut p seg tol = None) ->
  snap_endpoints a hucs tree tol = Ok (a, hucs).
Proof.
  intros Hns Hvalid Hne Hnone.
  assert (Hreq : snap_requests a hucs tree tol = Ok (a, [])).
  { unfold snap_requests. rewrite Hns. cbn [rbind]. apply rfold_fixed.
    intros n Hn. unfold snap_node, Tree.get.
    destruct (a !! n) as [nd|] eqn:Hnd.
    2:{ exfalso. apply (Hne n Hn). unfold Tree.segment_of. rewrite Hnd. reflexivity. }
    cbn [of_option rbind].
    assert (Hseg : Tree.segment_of a n = Tree.segment nd).
    { unfold Tree.segment_of. rewrite Hnd. reflexivity. }
    rewrite (snap_loop_nothing hucs tol a n (Tree.segment nd)).
    - reflexivity.
    - rewrite <- Hseg. apply Hne. exact Hn.
    - intros ep p h seg. rewrite <- Hseg. apply Hnone. exact Hn.
    - exact Hvalid.
    - auto. }
  unfold snap_endpoints. rewrite Hreq. reflexivity.
Qed.

Lemma snap_endpoints_nothing_to_snap_witness :
  snap_endpoints (G := Planar.geometry) forest_AB hucs_far 1 (1 # 100)
  = Ok (forest_AB, hucs_far).
Proof.
  apply (snap_endpoints_nothing_to_snap (G := Planar.geometry)
           forest_AB hucs_far 1%nat (1 # 100) [1; 0]%nat).
  - vm_compute. reflexivity.
  - intros k Hk. apply list_elem_of_singleton in Hk as ->. simpl. lia.
  - intros n Hn. apply elem_of_cons in Hn as [->|Hn];
      [|apply list_elem_of_singleton in Hn as ->]; discriminate.
  - intros n ep p h seg Hn Hp Hh Hseg.
    apply list_elem_of_singleton in Hh as ->. injection Hseg as <-.
    apply elem_of_cons in Hn as [->|Hn];
      [|apply list_elem_of_singleton in Hn as ->];
      destruct ep; injection Hp as <-; vm_compute; reflexivity.
Defined.

(** ** Phase 2: the ends of what [sorted] returns *)



Section SortEnds.

Context {A : Type} (key : A -> Q).





End SortEnds.

(** ** Phase 2: the loop that breaks a segment returns *)





Section SplitReturns.

Context {G : Geometry}.


End SplitReturns.

(** ** Phase 2: where a segment is cut *)









Section SplitCuts.

Context {G : Geometry}.


End SplitCuts.

(** ** Phase 2: the deduplication returns *)


Section DedupReturns.

Context {G : Geometry}.
Variable a : Tree.arena.




End DedupReturns.

(** ** Grouping: no group is empty *)



(** ** Phase 2: the insertions return, and where they put the new segments *)



Section InsertReturns.

Context {G : Geometry}.
Variable a : Tree.arena.




End InsertReturns.

(** ** Phase 2: the first loop returns, and records every end it snaps *)





Section SnapRecords.

Context {G : Geometry}.
Variables (hucs : HUCs.t) (tol : Q).

Hypothesis Hvalid : forall k, k ∈ listed_handles hucs ->
  (k < length (HUCs.segments hucs))%nat.










End SnapRecords.

(** ** Phase 2 as a whole *)



Section Phase2.

Context {G : Geometry}.




End Phase2.








(** ** Filtering the rivers to the watershed *)

Lemma linked_segments (rivers : list Segment) (tol : Q) (k : nat)
    (a : Tree.arena) (trees : list nat) :
  linked rivers tol k a trees -> map Tree.segment a = rivers.
Proof.
  intros [Hlen Hseg _ _ _ _ _ _]. apply list_eq. intros j.
  change (map Tree.segment a) with (Tree.segment <$> a). rewrite list_lookup_fmap.
  specialize (Hseg j). unfold Tree.segment_of in Hseg.
  destruct (a !! j) as [nd|] eqn:Hnd; simpl.
  - destruct (lookup_lt_is_Some_2 rivers j) as [r Hr].
    { rewrite <- Hlen. eapply lookup_lt_Some, Hnd. }
    rewrite Hr in Hseg |- *. simpl in Hseg. congruence.
  - symmetry. apply lookup_ge_None. rewrite <- Hlen. apply lookup_ge_None. exact Hnd.
Qed.

(** X8.  On a non-empty list of reaches of at least two coordinates each,
    and a boundary whose polygons can be built, [filter_rivers_to_huc]
    returns a forest whose nodes carry exactly the reaches that intersect
    the union of the polygons buffered by [tol], in the order of the list,
    every one of them linked once; the reaches are joined with the
    tolerance 0.1 whatever [tol] is. *)
Theorem filter_rivers_to_huc_keeps_intersecting (polygon region : Type)
    (polygons : HUCs.t -> result (list polygon))
    (buffered_union : list polygon -> Q -> region)
    (intersects : region -> Segment -> bool)
    (hucs : HUCs.t) (rivers : list Segment) (tol : Q) (polys : list polygon) :
  polygons hucs = Ok polys ->
  rivers <> [] ->
  Forall (fun r : list coord => (2 <= length r)%nat) rivers ->
  exists a trees,
    filter_rivers_to_huc polygon region polygons buffered_union intersects
      hucs (ListOfLineString rivers) tol = Ok (a, trees) /\
    map Tree.segment a
    = filter (fun r => intersects (buffered_union polys tol) r = true) rivers /\
    linked (map Tree.segment a) (1 # 10) (length a) a trees.
Proof.
  intros Hp Hne Hall. unfold filter_rivers_to_huc.
  destruct rivers as [|r0 rivers]; [congruence|]. cbn [is_empty_list].
  rewrite Hp. cbn [rbind].
  set (rivers2 := filter _ (r0 :: rivers)).
  assert (Hall2 : Forall (fun r : list coord => (2 <= length r)%nat) rivers2).
  { apply Forall_forall. intros r Hr. apply list_elem_of_filter in Hr as [_ Hr].
    eapply Forall_forall in Hall; [exact Hall|exact Hr]. }
  destruct (make_global_tree_returns rivers2 (1 # 10) Hall2) as [[a trees] Hrun].
  pose proof (make_global_tree_links rivers2 (1 # 10) a trees Hrun) as Hl.
  pose proof (linked_segments _ _ _ _ _ Hl) as Hs.
  exists a, trees. split; [exact Hrun|]. split; [exact Hs|].
  rewrite Hs. replace (length a) with (length rivers2); [exact Hl|].
  symmetry. apply Hl.
Qed.

Lemma filter_rivers_to_huc_keeps_intersecting_witness :
  exists a trees,
    filter_rivers_to_huc unit unit (fun _ => Ok [tt]) (fun _ _ => tt)
      (fun _ r => Qle_bool (seg_length r) 2) hucs_line
      (ListOfLineString [seg_A; outlet_reach; upstream_reach; seg_B]) 7
    = Ok (a, trees) /\
    map Tree.segment a = [seg_A; outlet_reach; seg_B] /\
    linked (map Tree.segment a) (1 # 10) (length a) a trees.
Proof.
  destruct (filter_rivers_to_huc_keeps_intersecting unit unit (fun _ => Ok [tt])
              (fun _ _ => tt) (fun _ r => Qle_bool (seg_length r) 2) hucs_line
              [seg_A; outlet_reach; upstream_reach; seg_B] 7 [tt])
    as (a & trees & H1 & H2 & H3).
  - reflexivity.
  - discriminate.
  - repeat constructor; simpl; lia.
  - exists a, trees. split; [exact H1|]. split; [|exact H3].
    rewrite H2. vm_compute. reflexivity.
Defined.

(** ** Raster sampling: the range of the sampled values *)

Section SamplingRange.
Import Raster.

Variables (lo hi : Q) (ras : raster).
Hypothesis Hras : raster_within lo hi ras.

Lemma np_index_elem_of {A} (l : list A) (i : Z) (x : A) :
  np_index l i = Ok x -> x ∈ l.
Proof.
  unfold np_index. destruct (_ && _)%bool; [|discriminate].
  destruct (l !! _) as [y|] eqn:Hy; [|discriminate].
  intros H. injection H as <-. eapply list_elem_of_lookup_2, Hy.
Qed.

Lemma getitem_within (r c : Z) (v : Q) : getitem ras r c = Ok v -> lo <= v <= hi.
Proof.
  unfold getitem. destruct (np_index ras r) as [row|] eqn:Hrow; [|discriminate].
  cbn [rbind]. intros Hv. apply np_index_elem_of in Hrow, Hv.
  unfold raster_within in Hras. rewrite Forall_forall in Hras.
  specialize (Hras row Hrow). rewrite Forall_forall in Hras. apply Hras. exact Hv.
Qed.

Lemma lerp_within (x y t : Q) :
  lo <= x <= hi -> lo <= y <= hi -> 0 <= t <= 1 ->
  lo <= x + t * (y - x) <= hi.
Proof. intros [Hx1 Hx2] [Hy1 Hy2] [Ht1 Ht2]. split; nra. Qed.

Lemma frac_unit (i : Q) : 0 <= i - inject_Z (Qfloor i) <= 1.
Proof.
  pose proof (Qfloor_le i). pose proof (Qlt_floor i) as Hlt.
  rewrite inject_Z_plus in Hlt. change (inject_Z 1) with 1 in Hlt. split; lra.
Qed.

Lemma bilinear_at_within (p : profile) (xy : Q * Q) (v : Q) :
  bilinear_at ras p xy = Ok v -> lo <= v <= hi.
Proof.
  unfold bilinear_at. destruct (apply (inv_transform p) xy) as [j i].
  set (ci := clamp (height p) (i - (1 # 2))).
  set (cj := clamp (width p) (j - (1 # 2))).
  destruct (getitem ras (Qfloor ci) (Qfloor cj)) as [b00|] eqn:H00; [|discriminate].
  cbn [rbind].
  destruct (getitem ras (Qfloor ci) (Qceiling cj)) as [b01|] eqn:H01; [|discriminate].
  cbn [rbind].
  destruct (getitem ras (Qceiling ci) (Qfloor cj)) as [b10|] eqn:H10; [|discriminate].
  cbn [rbind].
  destruct (getitem ras (Qceiling ci) (Qceiling cj)) as [b11|] eqn:H11; [|discriminate].
  cbn [rbind]. intros H. injection H as <-.
  apply getitem_within in H00, H01, H10, H11.
  pose proof (frac_unit ci) as Hi. pose proof (frac_unit cj) as Hj.
  pose proof (lerp_within b00 b01 _ H00 H01 Hj) as Hup.
  pose proof (lerp_within b10 b11 _ H10 H11 Hj) as Hdn.
  pose proof (lerp_within _ _ _ Hup Hdn Hi) as H.
  split; [eapply Qle_trans; [apply H|]|eapply Qle_trans; [|apply H]];
    apply Qle_lteq; right; ring.
Qed.

Lemma values_within (points : list (Q * Q)) (p : profile) (alg : algorithm)
    (vs : list Q) :
  values_from_raster points ras p alg = Ok vs ->
  Forall (fun v => lo <= v <= hi) vs.
Proof.
  intros H. apply Forall_forall. intros v Hv. destruct alg; cbn [values_from_raster] in H.
  - apply (rmapM_elem_of _ _ _ H) in Hv as (xy & _ & Hxy).
    destruct (rowcol p xy) as [r c]. eapply getitem_within, Hxy.
  - apply (rmapM_elem_of _ _ _ H) in Hv as (xy & _ & Hxy).
    eapply bilinear_at_within, Hxy.
  - discriminate.
Qed.

End SamplingRange.

(** X9.  In both modes the values that [values_from_raster] returns are one
    for each point, in a range that holds all the values of the raster: the
    nearest mode returns entries of the raster, and the bilinear
    interpolation never overshoots the four pixels it reads. *)
Theorem values_from_raster_within_range (lo hi : Q) (ras : Raster.raster)
    (points : list (Q * Q)) (p : Raster.profile) (alg : Raster.algorithm)
    (vs : list Q) :
  raster_within lo hi ras ->
  Raster.values_from_raster points ras p alg = Ok vs ->
  length vs = length points /\ Forall (fun v => lo <= v <= hi) vs.
Proof.
  intros Hras H. split; [|eapply values_within; eassumption].
  destruct alg; cbn [Raster.values_from_raster] in H; try discriminate;
    eapply rmapM_length, H.
Qed.

Lemma raster22_within : raster_within 1 4 raster22.
Proof. repeat constructor; simpl; lra. Qed.

Lemma values_from_raster_within_range_witness :
  exists vs,
    Raster.values_from_raster [(1 # 2, 1 # 2); (1, 3 # 2); (7, -2)] raster22 profile22
      Raster.piecewise_bilinear = Ok vs /\
    length vs = 3%nat /\ Forall (fun v => 1 <= v <= 4) vs.
Proof.
  assert (Hrun : exists vs,
            Raster.values_from_raster [(1 # 2, 1 # 2); (1, 3 # 2); (7, -2)] raster22
              profile22 Raster.piecewise_bilinear = Ok vs)
    by (eexists; vm_compute; reflexivity).
  destruct Hrun as [vs Hrun]. exists vs. split; [exact Hrun|].
  apply (values_from_raster_within_range 1 4 raster22 _ profile22
           Raster.piecewise_bilinear vs raster22_within Hrun).
Defined.

(** X10.  On a raster of at least two rows and two columns, [elevate] in
    its default mode (piecewise bilinear) returns for every list of mesh
    points: it gives back the same points in the same order, their two
    horizontal coordinates unchanged, each with an elevation in a range
    that holds all the values of the raster. *)
Theorem elevate_drapes_the_mesh (lo hi : Q) (mesh_points : list (Q * Q))
    (dem : Raster.raster) (dem_profile : Raster.profile) :
  Raster.well_shaped dem dem_profile ->
  (2 <= Raster.height dem_profile)%Z -> (2 <= Raster.width dem_profile)%Z ->
  raster_within lo hi dem ->
  exists points3,
    elevate mesh_points dem dem_profile Raster.piecewise_bilinear = Ok points3 /\
    map fst points3 = mesh_points /\
    Forall (fun xyz => lo <= snd xyz <= hi) points3.
Proof.
  intros Hws Hh Hw Hras. unfold elevate.
  destruct (rmapM_ok_on (Raster.bilinear_at dem dem_profile) mesh_points) as [elev He].
  { intros xy _. apply bilinear_at_ok; assumption. }
  cbn [Raster.values_from_raster]. rewrite He. cbn [rbind].
  eexists. split; [reflexivity|].
  pose proof (rmapM_length _ _ _ He) as Hlen.
  pose proof (values_within lo hi dem Hras mesh_points dem_profile
                Raster.piecewise_bilinear elev He) as Hin.
  clear He. revert elev Hlen Hin.
  induction mesh_points as [|[x y] pts IH]; intros [|z elev] Hlen Hin;
    simpl in Hlen; try discriminate.
  - split; [reflexivity|constructor].
  - apply Forall_cons in Hin as [Hz Hin].
    destruct (IH elev ltac:(lia) Hin) as [H1 H2]. split.
    + simpl. f_equal. exact H1.
    + constructor; [exact Hz|exact H2].
Qed.

Lemma elevate_drapes_the_mesh_witness :
  exists points3,
    elevate [(1 # 2, 1 # 2); (7, -2)] raster22 profile22 Raster.piecewise_bilinear
    = Ok points3 /\
    map fst points3 = [(1 # 2, 1 # 2); (7, -2)] /\
    Forall (fun xyz => 1 <= snd xyz <= 4) points3.
Proof.
  apply (elevate_drapes_the_mesh 1 4 [(1 # 2, 1 # 2); (7, -2)] raster22 profile22).
  - split; [reflexivity|repeat constructor].
  - simpl. lia.
  - simpl. lia.
  - apply raster22_within.
Defined.

(** ** The extent of a plot *)

(** X11.  When no extent is given, the extent that [plot_with_dem] plots
    holds the bounds of the exterior of the watersheds, for pad fractions
    that are not negative (one, two or four of them).  A single pad fraction
    pads the four sides by the same amount, that fraction of the width of
    the bounds, the lower and the upper side included. *)
Theorem plot_extent_pads (b : bbox) (pf : list Q) :
  xmin b <= xmax b -> ymin b <= ymax b ->
  Forall (fun f => 0 <= f) pf ->
  (length pf = 1 \/ length pf = 2 \/ length pf = 4)%nat ->
  exists e,
    plot_extent None b (Some pf) = Ok e /\
    bbox_within b e /\
    (forall f0, pf = [f0] ->
       xmin b - xmin e == (xmax b - xmin b) * f0 /\
       ymin b - ymin e == (xmax b - xmin b) * f0 /\
       xmax e - xmax b == (xmax b - xmin b) * f0 /\
       ymax e - ymax b == (xmax b - xmin b) * f0).
Proof.
  intros Hx Hy Hpf Hlen. unfold plot_extent.
  destruct pf as [|f0 [|f1 [|f2 [|f3 [|f4 pf]]]]]; simpl in Hlen; try lia.
  - apply Forall_cons in Hpf as [H0 _]. cbn [rbind].
    eexists. split; [reflexivity|]. split.
    + unfold bbox_within. cbn [xmin ymin xmax ymax]. repeat split; nra.
    + intros f Hf. injection Hf as <-. cbn [xmin ymin xmax ymax]. repeat split; ring.
  - apply Forall_cons in Hpf as [H0 Hpf]. apply Forall_cons in Hpf as [H1 _].
    cbn [rbind]. eexists. split; [reflexivity|]. split.
    + unfold bbox_within. cbn [xmin ymin xmax ymax]. repeat split; nra.
    + intros f Hf. discriminate.
  - apply Forall_cons in Hpf as [H0 Hpf]. apply Forall_cons in Hpf as [H1 Hpf].
    apply Forall_cons in Hpf as [H2 Hpf]. apply Forall_cons in Hpf as [H3 _].
    cbn [rbind]. eexists. split; [reflexivity|]. split.
    + unfold bbox_within. cbn [xmin ymin xmax ymax]. repeat split; nra.
    + intros f Hf. discriminate.
Qed.

Lemma plot_extent_pads_witness :
  exists e,
    plot_extent None {| xmin := 0; ymin := 0; xmax := 10; ymax := 4 |} (Some [1 # 10])
    = Ok e /\
    bbox_within {| xmin := 0; ymin := 0; xmax := 10; ymax := 4 |} e.
Proof.
  destruct (plot_extent_pads {| xmin := 0; ymin := 0; xmax := 10; ymax := 4 |} [1 # 10])
    as (e & H1 & H2 & _).
  - simpl. lra.
  - simpl. lra.
  - repeat constructor. simpl. lra.
  - left. reflexivity.
  - exists e. auto.
Defined.

(** X12.  When no extent is given, [plot_with_dem] raises [ValueError]
    exactly for the pad fractions that are not one, two or four numbers; a
    given extent is plotted as it is, and the pad fractions, of whatever
    length, are not looked at. *)
Theorem plot_extent_rejects_other_lengths (b : bbox) (pf : list Q) (e : bbox) :
  (plot_extent None b (Some pf) = Raise ValueError <->
   length pf <> 1%nat /\ length pf <> 2%nat /\ length pf <> 4%nat) /\
  plot_extent (Some e) b (Some pf) = Ok e.
Proof.
  split; [|reflexivity]. unfold plot_extent.
  destruct pf as [|f0 [|f1 [|f2 [|f3 [|f4 pf]]]]]; cbn [rbind length];
    (split; [intros H; try discriminate; lia | intros H; try reflexivity; lia]).
Qed.

(** ** Colouring a raster by shapes *)

Lemma np_round_near (q : Q) :
  inject_Z (np_round q) - (1 # 2) <= q <= inject_Z (np_round q) + (1 # 2).
Proof.
  unfold np_round.
  pose proof (Qfloor_le q) as H1. pose proof (Qlt_floor q) as H2.
  rewrite inject_Z_plus in H2. change (inject_Z 1) with 1 in H2.
  destruct (Qcompare_spec (q - inject_Z (Qfloor q)) (1 # 2)) as [He|Hl|Hg]; cbv iota zeta.
  - destruct (Z.even (Qfloor q)); cbv iota;
      [|rewrite inject_Z_plus; change (inject_Z 1) with 1]; split; lra.
  - split; lra.
  - rewrite inject_Z_plus. change (inject_Z 1) with 1. split; lra.
Qed.

Lemma int_ceil_div_pos (n d : Q) :
  0 < d ->
  exists k, int_ceil_div n d = Return k /\
            n <= d * inject_Z k /\ d * inject_Z k < n + d.
Proof.
  intros Hd. unfold int_ceil_div.
  assert (Hz : Qeq_bool d 0 = false).
  { apply not_true_is_false. intros H. apply Qeq_bool_iff in H. lra. }
  rewrite Hz. eexists. split; [reflexivity|].
  assert (Hnd : n == d * (n / d)) by (field; lra).
  revert Hnd. generalize (n / d). intros x Hnd.
  pose proof (Qle_ceiling x) as H1. pose proof (Qceiling_lt x) as H2.
  unfold Z.sub in H2. rewrite inject_Z_plus in H2.
  change (inject_Z (-1)) with (-1) in H2.
  revert H1 H2. generalize (inject_Z (Qceiling x)). intros c H1 H2.
  assert (P1 : d * x <= d * c) by (apply Qmult_le_l; assumption).
  assert (P2 : d * (c + -1) < d * x) by (apply Qmult_lt_l; assumption).
  split; lra.
Qed.

(** X13.  For a pixel size of one unit or more and bounds that are in
    order, the canvas of [color_raster_from_shapes] has one column or more
    and no negative number of rows, and its image spans whole pixels; the
    image reaches the left, the upper and the right bound (at least half a
    pixel beyond the right one, less than a pixel and a half), but at the
    lower side it is only known to reach half a pixel above the lower
    bound. *)
Theorem canvas_of_covers (b : bbox) (dx : Q) :
  1 <= dx -> xmin b <= xmax b -> ymin b <= ymax b ->
  exists cv,
    canvas_of b dx = Return cv /\
    (1 <= cv_width cv)%Z /\ (0 <= cv_height cv)%Z /\
    xmax (img_bounds cv) - xmin (img_bounds cv) == dx * inject_Z (cv_width cv) /\
    ymax (img_bounds cv) - ymin (img_bounds cv) == dx * inject_Z (cv_height cv) /\
    xmin (img_bounds cv) <= xmin b /\
    xmax b + dx / 2 <= xmax (img_bounds cv) < xmax b + dx / 2 + dx /\
    ymax b <= ymax (img_bounds cv) /\
    ymin b - dx / 2 < ymin (img_bounds cv) <= ymin b + dx / 2.
Proof.
  intros Hdx Hx Hy. unfold canvas_of.
  assert (Hhalf : dx / 2 == dx * (1 # 2)) by field.
  revert Hhalf. generalize (dx / 2). intros hd Hhalf.
  pose proof (np_round_near (xmin b - hd)) as Hx0.
  pose proof (np_round_near (ymax b + hd)) as Hy1.
  revert Hx0 Hy1.
  generalize (np_round (xmin b - hd)), (np_round (ymax b + hd)).
  intros x0 y1 Hx0 Hy1.
  destruct (int_ceil_div_pos (xmax b + hd - inject_Z x0) dx) as (w & -> & W1 & W2);
    [lra|].
  destruct (int_ceil_div_pos (inject_Z y1 - ymin b - hd) dx) as (h & -> & H1 & H2);
    [lra|].
  cbn [obind]. eexists. split; [reflexivity|].
  cbn [cv_width cv_height img_bounds xmin ymin xmax ymax].
  assert (Hw : (1 <= w)%Z).
  { destruct (Z_lt_le_dec w 1) as [Hlt|]; [|assumption]. exfalso.
    assert (Hw0 : inject_Z w <= 0).
    { change 0 with (inject_Z 0). rewrite <- Zle_Qle. lia. }
    assert (dx * inject_Z w <= dx * 0) by (apply Qmult_le_l; lra). lra. }
  assert (Hh : (0 <= h)%Z).
  { destruct (Z_lt_le_dec h 0) as [Hlt|]; [|assumption]. exfalso.
    assert (Hh0 : inject_Z h <= -1).
    { change (-1) with (inject_Z (-1)). rewrite <- Zle_Qle. lia. }
    assert (dx * inject_Z h <= dx * -1) by (apply Qmult_le_l; lra). lra. }
  split; [exact Hw|]. split; [exact Hh|].
  split; [ring|]. split; [ring|].
  split; [lra|]. split; [split; lra|]. split; [lra|]. split; lra.
Qed.

Lemma canvas_of_covers_witness :
  exists cv,
    canvas_of {| xmin := 3 # 10; ymin := 0; xmax := 10; ymax := 4 |} 2 = Return cv /\
    (1 <= cv_width cv)%Z /\ (0 <= cv_height cv)%Z.
Proof.
  destruct (canvas_of_covers {| xmin := 3 # 10; ymin := 0; xmax := 10; ymax := 4 |} 2)
    as (cv & H1 & H2 & H3 & _).
  - lra.
  - simpl. lra.
  - simpl. lra.
  - exists cv. auto.
Defined.

Section PainterFacts.

Variables shape color : Type.
Variable inside : canvas -> shape -> nat -> nat -> bool.
Variable cv : canvas.
Variables r c : nat.

(** The pixel of row [r] and column [c]. *)
Let pixel (z : list (list color)) : option color := z !! r ≫= fun row => row !! c.

Lemma pixel_paint (z : list (list color)) (pc : shape * color) :
  pixel (paint shape color inside cv z pc)
  = (fun v => if inside cv (fst pc) r c then snd pc else v) <$> pixel z.
Proof.
  unfold pixel, paint. rewrite list_lookup_imap.
  destruct (z !! r) as [row|]; simpl; [|reflexivity].
  rewrite list_lookup_imap. destruct (row !! c); reflexivity.
Qed.

Lemma pixel_painted (l : list (shape * color)) : forall (z : list (list color)) (v0 : color),
  pixel z = Some v0 ->
  exists v, pixel (foldl (paint shape color inside cv) z l) = Some v /\
    ((forall pc, pc ∈ l -> inside cv (fst pc) r c = false) -> v = v0) /\
    (forall i pc, l !! i = Some pc -> inside cv (fst pc) r c = true ->
       (forall j pc', (i < j)%nat -> l !! j = Some pc' ->
                      inside cv (fst pc') r c = false) ->
       v = snd pc).
Proof.
  induction l as [|pc l IH]; intros z v0 Hz; cbn [foldl].
  - exists v0. split; [exact Hz|]. split; [reflexivity|]. intros i pc Hi. discriminate.
  - destruct (IH (paint shape color inside cv z pc)
                (if inside cv (fst pc) r c then snd pc else v0)) as (v & Hv & Hnone & Hlast).
    { rewrite pixel_paint, Hz. reflexivity. }
    exists v. split; [exact Hv|]. split.
    + intros Hall. rewrite Hnone by (intros pc' Hpc'; apply Hall; right; exact Hpc').
      rewrite (Hall pc) by left. reflexivity.
    + intros [|i] pc' Hi Hin Hlater.
      * injection Hi as <-. rewrite Hnone.
        -- rewrite Hin. reflexivity.
        -- intros pc'' Hpc''. apply list_elem_of_lookup in Hpc'' as [j Hj].
           apply (Hlater (S j) pc''); [lia|exact Hj].
      * apply (Hlast i pc' Hi Hin). intros j pc'' Hij Hj.
        apply (Hlater (S j) pc''); [lia|exact Hj].
Qed.

End PainterFacts.

(** X14.  When [color_raster_from_shapes] returns, the shapes are as many
    as the colours and not none, and every pixel of the raster holds the
    colour of the last shape of the list that it is inside, or [nodata] when
    it is inside no shape. *)
Theorem color_raster_last_shape_wins (shape color : Type)
    (inside : canvas -> shape -> nat -> nat -> bool)
    (target_bounds : bbox) (target_dx : Q) (shapes : list shape)
    (shape_colors : list color) (nodata : color)
    (z : list (list color)) (cv : canvas) :
  color_raster_from_shapes shape color inside target_bounds target_dx
    shapes shape_colors nodata = Return (z, cv) ->
  length shapes = length shape_colors /\ shapes <> [] /\
  forall r c, (Z.of_nat r < cv_height cv)%Z -> (Z.of_nat c < cv_width cv)%Z ->
    exists row v, z !! r = Some row /\ row !! c = Some v /\
      ((forall s, s ∈ shapes -> inside cv s r c = false) -> v = nodata) /\
      (forall i s col, shapes !! i = Some s -> shape_colors !! i = Some col ->
         inside cv s r c = true ->
         (forall j s', (i < j)%nat -> shapes !! j = Some s' ->
                       inside cv s' r c = false) ->
         v = col).
Proof.
  unfold color_raster_from_shapes, assert_.
  destruct (Nat.eqb_spec (length shapes) (length shape_colors)) as [Hlen|];
    [|discriminate]. cbn [obind].
  destruct (Nat.ltb_spec 0 (length shapes)) as [Hpos|]; [|discriminate]. cbn [obind].
  destruct (canvas_of target_bounds target_dx) as [cv0|]; [|discriminate]. cbn [obind].
  unfold blank. destruct (_ || _)%bool; [discriminate|]. cbn [obind].
  intros H. injection H as <- <-.
  split; [exact Hlen|]. split; [intros ->; simpl in Hpos; lia|].
  intros r c Hr Hc.
  destruct (pixel_painted shape color inside cv0 r c (zip shapes shape_colors)
              (replicate (Z.to_nat (cv_height cv0))
                 (replicate (Z.to_nat (cv_width cv0)) nodata)) nodata)
    as (v & Hv & Hnone & Hlast).
  { rewrite lookup_replicate_2 by lia. simpl. apply lookup_replicate_2. lia. }
  destruct (foldl _ _ _ !! r) as [row|] eqn:Hrow; [|discriminate].
  simpl in Hv. exists row, v. split; [reflexivity|]. split; [exact Hv|]. split.
  - intros Hall. apply Hnone. intros [s col] Hin.
    apply elem_of_zip_l in Hin. apply Hall. exact Hin.
  - intros i s col Hs Hcol Hin Hlater.
    apply (Hlast i (s, col)); [apply lookup_zip_Some; auto|exact Hin|].
    intros j [s' col'] Hij Hj. apply lookup_zip_Some in Hj as [Hj _].
    apply (Hlater j s' Hij Hj).
Qed.

Lemma color_raster_last_shape_wins_witness :
  exists z cv row v,
    color_raster_from_shapes nat Q (fun _ s r _ => (r <=? s)%nat)
      {| xmin := 0; ymin := 0; xmax := 3; ymax := 3 |} 1 [2%nat; 0%nat] [10; 20] (-1)
    = Return (z, cv) /\
    z !! 0%nat = Some row /\ row !! 1%nat = Some v /\ v = 20.
Proof.
  assert (Hrun : exists zc,
            color_raster_from_shapes nat Q (fun _ s r _ => (r <=? s)%nat)
              {| xmin := 0; ymin := 0; xmax := 3; ymax := 3 |} 1
              [2%nat; 0%nat] [10; 20] (-1) = Return zc)
    by (eexists; vm_compute; reflexivity).
  destruct Hrun as [[z cv] Hrun].
  destruct (color_raster_last_shape_wins nat Q (fun _ s r _ => (r <=? s)%nat)
              {| xmin := 0; ymin := 0; xmax := 3; ymax := 3 |} 1
              [2%nat; 0%nat] [10; 20] (-1) z cv Hrun) as (_ & _ & Hpix).
  assert (Hcv : cv_height cv = 4%Z /\ cv_width cv = 4%Z).
  { vm_compute in Hrun. injection Hrun as _ <-. split; reflexivity. }
  destruct Hcv as [Hh Hw].
  destruct (Hpix 0%nat 1%nat) as (row & v & Hrow & Hv & _ & Hlast);
    [rewrite Hh; lia | rewrite Hw; lia |].
  exists z, cv, row, v. split; [exact Hrun|]. split; [exact Hrow|]. split; [exact Hv|].
  apply (Hlast 1%nat 0%nat 20); try reflexivity.
  intros j s' Hj Hs'. destruct j as [|[|j]]; try lia. discriminate.
Defined.

(** ** The file managers: levels, files and selections *)

Lemma ofilter_spec {A} (p : A -> outcome bool) (l : list A) : forall l',
  ofilter p l = Return l' ->
  sublist l' l /\
  (forall x, x ∈ l -> exists b, p x = Return b) /\
  (forall x, x ∈ l' <-> x ∈ l /\ p x = Return true).
Proof.
  induction l as [|x l IH]; intros l'; cbn [ofilter].
  - intros H. injection H as <-. split; [constructor|].
    split; [intros x Hx; inversion Hx|].
    intros x. split; [intros Hx; inversion Hx|intros [Hx _]; inversion Hx].
  - destruct (p x) as [b|] eqn:Hpx; [|discriminate]. cbn [obind].
    destruct (ofilter p l) as [rest|]; [|discriminate]. cbn [obind].
    intros H. injection H as <-.
    destruct (IH rest eq_refl) as (Hsub & Hall & Hin).
    split; [destruct b; [apply sublist_skip|apply sublist_cons]; exact Hsub|].
    split.
    + intros y Hy. apply elem_of_cons in Hy as [->|Hy]; [eauto|auto].
    + intros y. destruct b.
      * rewrite !elem_of_cons, Hin. split.
        -- intros [->|[Hy Hp]]; [split; [left; reflexivity|exact Hpx]|].
           split; [right; exact Hy|exact Hp].
        -- intros [[->|Hy] Hp]; [left; reflexivity|right; auto].
      * rewrite elem_of_cons, Hin. split.
        -- intros [Hy Hp]. split; [right; exact Hy|exact Hp].
        -- intros [[->|Hy] Hp]; [congruence|auto].
Qed.

Lemma prefix_refl (s : string) : String.prefix s s = true.
Proof.
  induction s as [|a s IH]; simpl; [reflexivity|].
  destruct (ascii_dec a a); [exact IH|congruence].
Qed.

Lemma prefix_trans (s1 : string) : forall s2 s3,
  String.prefix s1 s2 = true -> String.prefix s2 s3 = true ->
  String.prefix s1 s3 = true.
Proof.
  induction s1 as [|a s1 IH]; intros [|b s2] [|c s3]; simpl; try congruence.
  destruct (ascii_dec a b) as [->|]; [|discriminate].
  destruct (ascii_dec b c) as [->|]; [|discriminate].
  destruct (ascii_dec c c); [|congruence]. apply IH.
Qed.

Section ManagerFacts.
Import NHD.

Context {E : Outside}.

(** [_download] returns the name that the name manager gives to the file
    of the unit, and the file is there when it returns. *)
Lemma download_returns_file (m : manager) (hucstr : string) (force : bool)
    (w w' : world) (filename : string) :
  _download m hucstr force w = Return (filename, w') ->
  filename = file_name (name_manager m) hucstr /\ path_exists w' filename = true.
Proof.
  unfold _download.
  destruct (makedirs w _) as [w1|]; [|discriminate]. cbn [obind].
  destruct (makedirs w1 _) as [w2|]; [|discriminate]. cbn [obind].
  destruct (makedirs w2 _) as [w3|]; [|discriminate]. cbn [obind].
  destruct (if negb (path_exists w3 _) || force then _ else _) as [w4|];
    [|discriminate]. cbn [obind].
  destruct (path_exists w4 (file_name (name_manager m) hucstr)) eqn:Hex;
    [|discriminate]. cbn [negb].
  intros H. injection H as <- <-. auto.
Qed.

Lemma get_hucs_levels_refused (m : manager) (huc : string) (level : nat) (w : world) :
  ~ (file_level m <= String.length huc <= level /\ level <= lowest_level m)%nat ->
  get_hucs m huc level w = Throw (Builtin ValueError).
Proof.
  unfold get_hucs. intros Hn.
  destruct (Nat.ltb_spec (lowest_level m) level); [reflexivity|].
  destruct (Nat.ltb_spec level (String.length huc)); [reflexivity|].
  destruct (Nat.ltb_spec (String.length huc) (file_level m)); [reflexivity|].
  exfalso. apply Hn. lia.
Qed.

Lemma get_hucs_levels_kept (m : manager) (huc : string) (level : nat) (w w' : world)
    (p : profile) (hus : list (feature geom)) :
  get_hucs m huc level w = Return (p, hus, w') ->
  (file_level m <= String.length huc <= level /\ level <= lowest_level m)%nat.
Proof.
  unfold get_hucs.
  destruct (Nat.ltb_spec (lowest_level m) level); [discriminate|].
  destruct (Nat.ltb_spec level (String.length huc)); [discriminate|].
  destruct (Nat.ltb_spec (String.length huc) (file_level m)); [discriminate|].
  intros _. lia.
Qed.

(** X15.  [get_hucs] raises [ValueError], before any access to the file
    system or to the network, unless [file_level <= len(huc) <= level <=
    lowest_level]; whenever it returns, these inequalities hold. *)
Theorem get_hucs_checks_levels (m : manager) (huc : string) (level : nat) (w : world) :
  (~ (file_level m <= String.length huc <= level /\ level <= lowest_level m)%nat ->
   get_hucs m huc level w = Throw (Builtin ValueError)) /\
  (forall p hus w', get_hucs m huc level w = Return (p, hus, w') ->
     (file_level m <= String.length huc <= level /\ level <= lowest_level m)%nat).
Proof.
  split; [apply get_hucs_levels_refused|].
  intros p hus w'. apply get_hucs_levels_kept.
Qed.

Lemma get_hucs_selected (m : manager) (huc : string) (level : nat)
    (w w' : world) (p : profile) (hus : list (feature geom)) :
  get_hucs m huc level w = Return (p, hus, w') ->
  let filename := file_name (name_manager m) (substring 0 (file_level m) huc) in
  exists fid,
    path_exists w' filename = true /\
    open_layer w' filename ("WBDHU" ++ decimal level)%string = Return (p, fid) /\
    sublist hus fid /\
    forall hu, hu ∈ fid ->
      exists code, huc_code level hu = Return code /\
                   (hu ∈ hus <-> String.prefix huc code = true).
Proof.
  unfold get_hucs.
  destruct (lowest_level m <? level)%nat; [discriminate|].
  destruct (level <? String.length huc)%nat; [discriminate|].
  destruct (String.length huc <? file_level m)%nat; [discriminate|].
  destruct (_download m _ false w) as [[fn w1]|] eqn:Hd; [|discriminate].
  cbn [obind]. destruct (download_returns_file _ _ _ _ _ _ Hd) as [-> Hex].
  destruct (open_layer w1 _ _) as [[p1 fid]|] eqn:Hopen; [|discriminate].
  cbn [obind]. destruct (ofilter _ fid) as [hus1|] eqn:Hf; [|discriminate].
  cbn [obind]. intros H. injection H as <- <- <-.
  exists fid. split; [exact Hex|]. split; [exact Hopen|].
  destruct (ofilter_spec _ _ _ Hf) as (Hsub & Hall & Hin).
  split; [exact Hsub|]. intros hu Hhu.
  destruct (Hall hu Hhu) as [b Hb].
  destruct (huc_code level hu) as [code|] eqn:Hcode; [|discriminate].
  cbn [obind] in Hb. exists code. split; [reflexivity|].
  rewrite Hin, Hcode. cbn [obind]. split.
  - intros [_ H]. injection H as H. exact H.
  - intros H. split; [exact Hhu|]. rewrite H. reflexivity.
Qed.

(** X16.  When [get_hucs] returns, the file that the name manager names
    for the first [file_level] digits of the code is there, and the units
    returned are records of its layer [WBDHU<level>], in the order of the
    layer: a record of the layer is returned exactly when its code
    [HUC<level>] starts with [huc]. *)
Theorem get_hucs_selects_by_prefix (m : manager) (huc : string) (level : nat)
    (w w' : world) (p : profile) (hus : list (feature geom)) :
  get_hucs m huc level w = Return (p, hus, w') ->
  let filename := file_name (name_manager m) (substring 0 (file_level m) huc) in
  exists fid,
    path_exists w' filename = true /\
    open_layer w' filename ("WBDHU" ++ decimal level)%string = Return (p, fid) /\
    sublist hus fid /\
    forall hu, hu ∈ fid ->
      exists code, huc_code level hu = Return code /\
                   (hu ∈ hus <-> String.prefix huc code = true).
Proof. apply get_hucs_selected. Qed.

Lemma get_hucs_short_hint (m : manager) (huc : string) (level : nat) (w : world) :
  (String.length huc < file_level m \/ lowest_level m < level)%nat ->
  get_hucs m huc level w = Throw (Builtin ValueError).
Proof. intros H. apply get_hucs_levels_refused. lia. Qed.

(** X17.  When [get_huc] returns, the length of the code lies between
    [file_level] and [lowest_level], and the unit returned is the one record
    of the layer of that level whose code starts with [huc]: every record
    of the layer whose code starts with [huc] is that unit. *)
Theorem get_huc_returns_the_unit (m : manager) (huc : string) (w w' : world)
    (p : profile) (hu : feature geom) :
  get_huc m huc w = Return (p, hu, w') ->
  (file_level m <= String.length huc <= lowest_level m)%nat /\
  exists fid code,
    open_layer w' (file_name (name_manager m) (substring 0 (file_level m) huc))
      ("WBDHU" ++ decimal (String.length huc))%string = Return (p, fid) /\
    hu ∈ fid /\
    huc_code (String.length huc) hu = Return code /\
    String.prefix huc code = true /\
    forall hu' code', hu' ∈ fid ->
      huc_code (String.length huc) hu' = Return code' ->
      String.prefix huc code' = true -> hu' = hu.
Proof.
  unfold get_huc.
  destruct (get_hucs m huc (String.length huc) w) as [[[p1 hus] w1]|] eqn:Hg;
    [|discriminate]. cbn [obind].
  destruct hus as [|hu1 [|hu2 hus]]; try discriminate.
  intros H. injection H as <- <- <-.
  split.
  { assert (Hl : (file_level m <= String.length huc <= String.length huc /\
                  String.length huc <= lowest_level m)%nat)
      by (eapply get_hucs_levels_kept, Hg). lia. }
  destruct (get_hucs_selected _ _ _ _ _ _ _ Hg) as (fid & _ & Hopen & Hsub & Hsel).
  assert (Hin : hu1 ∈ fid).
  { eapply elem_of_sublist; [|exact Hsub]. left. }
  destruct (Hsel hu1 Hin) as (code & Hcode & Hiff).
  exists fid, code. split; [exact Hopen|]. split; [exact Hin|]. split; [exact Hcode|].
  split; [apply Hiff; left|].
  intros hu' code' Hin' Hcode' Hpre.
  destruct (Hsel hu' Hin') as (c & Hc & Hiff'). rewrite Hcode' in Hc. injection Hc as <-.
  apply Hiff' in Hpre. apply list_elem_of_singleton in Hpre. exact Hpre.
Qed.

(** X18.  [get_hydro] of a manager whose name holds [WBD] raises
    [RuntimeError] for every argument, before any access to the file system
    or to the network; that is so for [FileManagerWBD], and not for
    [FileManagerNHD] and [FileManagerNHDPlus]. *)
Theorem get_hydro_refuses_boundary_dataset :
  (forall (m : manager) (huc : string) (bnds : option bounds)
          (bounds_crs : option crs) (w : world),
     str_in "WBD" (name m) = true ->
     get_hydro m huc bnds bounds_crs w = Throw RuntimeError) /\
  str_in "WBD" (name FileManagerWBD) = true /\
  str_in "WBD" (name FileManagerNHD) = false /\
  str_in "WBD" (name FileManagerNHDPlus) = false.
Proof.
  split; [|split; [|split]; vm_compute; reflexivity].
  intros m huc bnds bounds_crs w H. unfold get_hydro. rewrite H. reflexivity.
Qed.

(** X19.  [get_hydro] of a manager of hydrography raises [ValueError] for a
    hint that is shorter than [file_level], whether bounds are given or not;
    without bounds it also does for a hint longer than [lowest_level], which
    with bounds it does not check. *)
Theorem get_hydro_refuses_short_hint (m : manager) (huc : string)
    (bnds : option bounds) (bounds_crs : option crs) (w : world) :
  str_in "WBD" (name m) = false ->
  (String.length huc < file_level m)%nat \/
  (bnds = None /\ (lowest_level m < String.length huc)%nat) ->
  get_hydro m huc bnds bounds_crs w = Throw (Builtin ValueError).
Proof.
  intros Hn H. unfold get_hydro. rewrite Hn.
  destruct bnds as [b|].
  - destruct H as [H|[H _]]; [|discriminate]. cbn [obind].
    destruct (Nat.ltb_spec (String.length huc) (file_level m)); [reflexivity|lia].
  - unfold get_huc. rewrite get_hucs_short_hint; [reflexivity|].
    destruct H as [H|[_ H]]; [left|right]; exact H.
Qed.

(** X20.  [_download] never returns the name of a file that is not there:
    the name it returns is the one the name manager gives, and the file
    exists when it returns.  When the file is at hand after the three
    directories are made, and the download is not forced, it returns at
    once: no query, no download and no archive is touched. *)
Theorem download_uses_the_file_at_hand (m : manager) (hucstr : string) (w : world) :
  (forall force w' f, _download m hucstr force w = Return (f, w') ->
     f = file_name (name_manager m) hucstr /\ path_exists w' f = true) /\
  (forall w1 w2 w3,
     makedirs w (data_dir (name_manager m)) = Return w1 ->
     makedirs w1 (folder_name (name_manager m) hucstr) = Return w2 ->
     makedirs w2 (raw_folder_name (name_manager m) hucstr) = Return w3 ->
     path_exists w3 (file_name (name_manager m) hucstr) = true ->
     _download m hucstr false w = Return (file_name (name_manager m) hucstr, w3)).
Proof.
  split.
  - intros force w' f. apply download_returns_file.
  - intros w1 w2 w3 H1 H2 H3 Hex. unfold _download.
    rewrite H1. cbn [obind]. rewrite H2. cbn [obind]. rewrite H3. cbn [obind].
    rewrite Hex. cbn [negb orb obind]. rewrite Hex. reflexivity.
Qed.

Lemma ofilter_titled (hucstr : string) (l : list item) : forall l',
  ofilter (fun it => match title it with
                     | Some t => Return (existsb (String.eqb hucstr) (words t))
                     | None => Throw (Builtin KeyError)
                     end) l = Return l' ->
  l' = filter (fun it => has_code hucstr it = true) l.
Proof.
  induction l as [|it l IH]; intros l'; cbn [ofilter].
  - intros H. injection H as <-. reflexivity.
  - destruct (title it) as [t|] eqn:Ht; [|discriminate]. cbn [obind].
    destruct (ofilter _ l) as [rest|]; [|discriminate]. cbn [obind].
    intros H. injection H as <-. rewrite (IH rest eq_refl).
    assert (Hc : has_code hucstr it = existsb (String.eqb hucstr) (words t)).
    { unfold has_code. rewrite Ht. reflexivity. }
    rewrite filter_cons.
    destruct (existsb (String.eqb hucstr) (words t)) eqn:Hb.
    + rewrite decide_True by exact Hc. reflexivity.
    + rewrite decide_False by (rewrite Hc; discriminate). reflexivity.
Qed.

Lemma attempt_picks (m : manager) (hucstr : string) (w : world)
    (params : list (string * string)) (url : string) :
  attempt m hucstr w params = Return (Some url) ->
  exists items it,
    http_get w params = Return (Items items) /\
    picked hucstr items it /\
    it ∈ items /\ downloadURL it = Some url /\ str_in "GDB" url = true.
Proof.
  unfold attempt. destruct (http_get w params) as [[|items]|]; try discriminate.
  cbn [obind]. unfold picked.
  cbv zeta.
  remember (filter (fun it => is_gdb it = true) items) as gdb eqn:Hgd.
  destruct (ofilter _ gdb) as [matches_f|] eqn:Hf; [|discriminate]. cbn [obind].
  apply ofilter_titled in Hf. symmetry in Hf.
  assert (Hgdb : forall it, it ∈ gdb -> it ∈ items /\ is_gdb it = true).
  { intros it Hit. rewrite Hgd in Hit. apply list_elem_of_filter in Hit as [H1 H2]. auto. }
  assert (Hsub : forall it, it ∈ matches_f -> it ∈ gdb).
  { intros it Hit. rewrite <- Hf in Hit. apply list_elem_of_filter in Hit as [_ H]. exact H. }
  assert (Hfin : forall it u, it ∈ gdb -> downloadURL it = Some u ->
            it ∈ items /\ downloadURL it = Some u /\ str_in "GDB" u = true).
  { intros it u Hit Hu. destruct (Hgdb it Hit) as [Hin Hg].
    unfold is_gdb in Hg. rewrite Hu in Hg. auto. }
  destruct (Nat.ltb_spec 0 (length matches_f)) as [Hpos|Hzero].
  - destruct matches_f as [|it [|it2 rest]]; try discriminate.
    destruct (downloadURL it) as [u|] eqn:Hu; [|discriminate].
    intros H. injection H as <-.
    exists items, it. split; [reflexivity|]. rewrite <- Hgd.
    split; [left; exact Hf|]. apply Hfin; [|exact Hu]. apply Hsub. left.
  - destruct matches_f; [|simpl in Hzero; lia].
    destruct gdb as [|it [|it2 rest]]; try discriminate.
    destruct (downloadURL it) as [u|] eqn:Hu; [|discriminate].
    intros H. injection H as <-.
    exists items, it. split; [reflexivity|]. rewrite <- Hgd.
    split; [right; split; [exact Hf|reflexivity]|].
    apply Hfin; [left|exact Hu].
Qed.

(** X21.  A URL that [_url] returns is the download URL of an item of the
    answer to one of its queries for the dataset of the manager; the URL
    holds [GDB], and the item is the only GDB product of the answer that
    has the code, cut to [file_level] digits, among the words of its title
    or, when no GDB product has, the only GDB product of the answer. *)
Theorem url_is_of_the_single_candidate (m : manager) (hucstr : string) (w : world)
    (url : string) :
  _url m hucstr w = Return url ->
  exists params items it,
    ("datasets", name m)%string ∈ params /\
    http_get w params = Return (Items items) /\
    picked (substring 0 (file_level m) hucstr) items it /\
    it ∈ items /\ downloadURL it = Some url /\ str_in "GDB" url = true.
Proof.
  unfold _url.
  destruct (attempt m _ w [_; _; _]) as [[u1|]|] eqn:H1; [| |discriminate]; cbn [obind].
  - intros H. injection H as <-.
    destruct (attempt_picks _ _ _ _ _ H1) as (items & it & Hget & Hrest).
    eexists _, items, it. split; [|split; [exact Hget|exact Hrest]]. left.
  - destruct (attempt m _ w [_]) as [[u2|]|] eqn:H2; try discriminate; cbn [obind].
    intros H. injection H as <-.
    destruct (attempt_picks _ _ _ _ _ H2) as (items & it & Hget & Hrest).
    eexists _, items, it. split; [|split; [exact Hget|exact Hrest]]. left.
Qed.

(** *** Finding the smallest unit that holds a shape *)

Lemma in_huc_contains (p : profile) (g : geom) :
  (_in_huc p g =? 2)%nat = true <-> contains p g = true.
Proof.
  unfold _in_huc. destruct (contains p g); [split; reflexivity|].
  destruct (intersects p g); split; discriminate.
Qed.

(** The loop of [_find_huc] over units that were selected for [hint] from
    the layer [fid]. *)
Lemma search_sound (recurse : string -> world -> outcome (string * world))
    (p : profile) (level : nat) (hint : string) (w w0 : world) (filename : string)
    (fid : list (feature geom)) (r : string) (w' : world) :
  open_layer w0 filename ("WBDHU" ++ decimal level)%string = Return (p, fid) ->
  (forall hname w1 r w', String.prefix hint hname = true -> held_by_unit hname ->
     recurse hname w1 = Return (r, w') ->
     String.prefix hname r = true /\ held_by_unit r) ->
  held_by_unit hint ->
  forall subhus,
  (forall hu, hu ∈ subhus -> hu ∈ fid /\
     exists code, huc_code level hu = Return code /\ String.prefix hint code = true) ->
  search recurse p level hint w subhus = Return (r, w') ->
  String.prefix hint r = true /\ held_by_unit r.
Proof.
  intros Hopen Hrec Hheld subhus. induction subhus as [|hu rest IH]; intros Hsel;
    cbn [search]; [discriminate|].
  destruct (Hsel hu ltac:(left)) as (Hin & code & Hcode & Hpre).
  rewrite Hcode. cbn [obind].
  destruct (_in_huc p (geometry hu) =? 2)%nat eqn:H2.
  - intros Hr. apply in_huc_contains in H2.
    destruct (Hrec code w r w' Hpre) as [Hp Hh]; [|exact Hr|].
    + exists w0, filename, level, p, fid, hu, code.
      repeat (split; [assumption|]). split; [apply prefix_refl|exact H2].
    + split; [eapply prefix_trans; eassumption|exact Hh].
  - destruct (_in_huc p (geometry hu) =? 1)%nat.
    + intros H. injection H as <- <-. split; [apply prefix_refl|exact Hheld].
    + apply IH. intros hu' Hhu'. apply Hsel. right. exact Hhu'.
Qed.

Lemma find_huc_rec_sound (m : manager) (fuel : nat) : forall hint w r w',
  held_by_unit hint ->
  _find_huc fuel m hint w = Return (r, w') ->
  String.prefix hint r = true /\ held_by_unit r.
Proof.
  induction fuel as [|fuel IH]; intros hint w r w' Hheld; cbn [_find_huc];
    [discriminate|].
  destruct (lowest_level m <? String.length hint + 2)%nat.
  - intros H. injection H as <- <-. split; [apply prefix_refl|exact Hheld].
  - destruct (get_hucs m hint _ w) as [[[p subhus] w1]|] eqn:Hg; [|discriminate].
    cbn [obind].
    destruct (get_hucs_selected _ _ _ _ _ _ _ Hg) as (fid & _ & Hopen & Hsub & Hsel).
    apply (search_sound _ p _ hint w1 w1 _ fid r w' Hopen).
    + intros hname w2 r2 w2' _ Hh Hr. eapply IH; eassumption.
    + exact Hheld.
    + intros hu Hhu.
      assert (Hin : hu ∈ fid) by (eapply elem_of_sublist; eassumption).
      split; [exact Hin|]. destruct (Hsel hu Hin) as (code & Hcode & Hiff).
      exists code. split; [exact Hcode|]. apply Hiff. exact Hhu.
Qed.

(** X22.  A code that [find_huc] returns starts with the hint and is the
    start of the code of a unit that contains the shape; when the unit of
    the hint does not contain the shape, [find_huc] raises
    [RuntimeError]. *)
Theorem find_huc_returns_a_holding_unit (fuel : nat) (m : manager) (hint : string)
    (w : world) :
  (forall r w', find_huc fuel m hint w = Return (r, w') ->
     String.prefix hint r = true /\ held_by_unit r) /\
  (forall p hu w1, get_huc m hint w = Return (p, hu, w1) ->
     contains p (geometry hu) = false ->
     find_huc fuel m hint w = Throw RuntimeError).
Proof.
  split.
  - intros r w'. unfold find_huc, get_huc.
    destruct (get_hucs m hint _ w) as [[[p hus] w1]|] eqn:Hg; [|discriminate].
    cbn [obind]. destruct hus as [|hu [|hu2 hus]]; try discriminate. cbn [obind].
    destruct (_in_huc p (geometry hu) =? 2)%nat eqn:H2; [|discriminate]. cbn [negb].
    apply in_huc_contains in H2.
    destruct (get_hucs_selected _ _ _ _ _ _ _ Hg) as (fid & _ & Hopen & Hsub & Hsel).
    assert (Hin : hu ∈ fid) by (eapply elem_of_sublist; [left|exact Hsub]).
    destruct (Hsel hu Hin) as (code & Hcode & Hiff).
    apply find_huc_rec_sound.
    exists w1, (file_name (name_manager m) (substring 0 (file_level m) hint)),
      (String.length hint), p, fid, hu, code.
    repeat (split; [eassumption|]).
    split; [apply Hiff; left|exact H2].
  - intros p hu w1 Hg Hc. unfold find_huc. rewrite Hg. cbn [obind].
    destruct (_in_huc p (geometry hu) =? 2)%nat eqn:H2; [|reflexivity].
    apply in_huc_contains in H2. congruence.
Qed.

Lemma search_ext (rec1 rec2 : string -> world -> outcome (string * world))
    (p : profile) (level : nat) (hint : string) (w : world) :
  forall subhus,
  (forall hu code w1, hu ∈ subhus -> huc_code level hu = Return code ->
     rec1 code w1 = rec2 code w1) ->
  search rec1 p level hint w subhus = search rec2 p level hint w subhus.
Proof.
  induction subhus as [|hu rest IH]; intros Hrec; cbn [search]; [reflexivity|].
  destruct (huc_code level hu) as [code|] eqn:Hcode; [|reflexivity]. cbn [obind].
  destruct (_in_huc p (geometry hu) =? 2)%nat.
  - apply (Hrec hu code w); [left|exact Hcode].
  - destruct (_in_huc p (geometry hu) =? 1)%nat; [reflexivity|].
    apply IH. intros hu' code' w1 Hin. apply Hrec. right. exact Hin.
Qed.

Lemma find_huc_rec_bounded (m : manager) (Hwf : layers_well_formed) (fuel : nat) :
  forall fuel' hint w,
  (1 <= fuel)%nat -> (fuel <= fuel')%nat ->
  (lowest_level m < String.length hint + 2 * fuel)%nat ->
  _find_huc fuel' m hint w = _find_huc fuel m hint w.
Proof.
  induction fuel as [|fuel IH]; intros fuel' hint w H1 Hle Hlow; [lia|].
  destruct fuel' as [|fuel']; [lia|]. cbn [_find_huc].
  destruct (Nat.ltb_spec (lowest_level m) (String.length hint + 2)) as [|Hge];
    [reflexivity|].
  destruct (get_hucs m hint _ w) as [[[p subhus] w1]|] eqn:Hg; [|reflexivity].
  cbn [obind].
  destruct (get_hucs_selected _ _ _ _ _ _ _ Hg) as (fid & _ & Hopen & Hsub & _).
  apply search_ext. intros hu code w2 Hin Hcode.
  assert (Hlen : String.length code = (String.length hint + 2)%nat).
  { eapply Hwf; [exact Hopen| |exact Hcode]. eapply elem_of_sublist; eassumption. }
  apply IH; lia.
Qed.

(** X23.  On layers whose codes have the length of their level, the
    recursion of [find_huc] goes no deeper than one call for every two
    digits between the hint and [lowest_level]: with at least that depth
    allowed, the result is the same whatever more is allowed. *)
Theorem find_huc_recursion_is_bounded (m : manager) (hint : string) (w : world)
    (fuel fuel' : nat) :
  layers_well_formed ->
  (1 <= fuel <= fuel')%nat ->
  (lowest_level m < String.length hint + 2 * fuel)%nat ->
  find_huc fuel' m hint w = find_huc fuel m hint w.
Proof.
  intros Hwf [H1 Hle] Hlow. unfold find_huc.
  destruct (get_huc m hint w) as [[[p hu] w1]|]; [|reflexivity]. cbn [obind].
  destruct (negb _); [reflexivity|].
  apply find_huc_rec_bounded; assumption.
Qed.

End ManagerFacts.

(** *** The managers on a small world *)

Lemma decimal_inj (n m : nat) : decimal n = decimal m -> n = m.
Proof.
  unfold decimal. intros H. apply (f_equal NilEmpty.uint_of_string) in H.
  rewrite !NilEmpty.usu in H. injection H as H.
  apply (f_equal Nat.of_uint) in H. rewrite !DecimalNat.Unsigned.of_to in H. exact H.
Qed.

Lemma toy_layers_well_formed : NHD.layers_well_formed (E := Toy.outside).
Proof.
  intros w filename level p fid hu code Hopen Hin Hcode. simpl in Hopen.
  destruct (existsb _ w); [|discriminate]. injection Hopen as _ Hfid. subst fid.
  unfold Toy.layer_records in Hin.
  change (map Toy.unit_of ?l) with (Toy.unit_of <$> l) in Hin.
  apply list_elem_of_fmap in Hin as (row & -> & Hrow).
  apply list_elem_of_filter in Hrow as [Htest Hrow].
  apply String.eqb_eq in Htest. simpl in Htest. injection Htest as Htest.
  apply decimal_inj in Htest. subst level.
  unfold Toy.table in Hrow.
  repeat (apply elem_of_cons in Hrow as [->|Hrow];
          [vm_compute in Hcode; injection Hcode as <-; reflexivity|]).
  inversion Hrow.
Qed.

Lemma get_hucs_selects_by_prefix_witness :
  exists hus w' fid,
    NHD.get_hucs (E := Toy.outside) Toy.wbd "06" 4 Toy.at_hand
    = Return (tt, hus, w') /\
    NHD.open_layer (Outside := Toy.outside) w' "data/06.gdb"%string "WBDHU4"%string
    = Return (tt, fid) /\
    sublist hus fid.
Proof.
  assert (Hrun : exists r, NHD.get_hucs (E := Toy.outside) Toy.wbd "06" 4
                             Toy.at_hand = Return r)
    by (eexists; vm_compute; reflexivity).
  destruct Hrun as [[[[] hus] w'] Hrun].
  destruct (get_hucs_selects_by_prefix (E := Toy.outside) Toy.wbd "06" 4
              Toy.at_hand w' tt hus Hrun) as (fid & _ & Hopen & Hsub & _).
  exists hus, w', fid. auto.
Defined.

Lemma get_huc_returns_the_unit_witness :
  exists hu w' code,
    NHD.get_huc (E := Toy.outside) Toy.wbd "0601" Toy.at_hand
    = Return (tt, hu, w') /\
    NHD.huc_code (E := Toy.outside) 4 hu = Return code /\ String.prefix "0601" code = true.
Proof.
  assert (Hrun : exists r, NHD.get_huc (E := Toy.outside) Toy.wbd "0601"
                             Toy.at_hand = Return r)
    by (eexists; vm_compute; reflexivity).
  destruct Hrun as [[[[] hu] w'] Hrun].
  destruct (get_huc_returns_the_unit (E := Toy.outside) Toy.wbd "0601"
              Toy.at_hand w' tt hu Hrun) as (_ & fid & code & _ & _ & Hcode & Hpre & _).
  exists hu, w', code. auto.
Defined.

Lemma get_hydro_refuses_short_hint_witness :
  NHD.get_hydro (E := Toy.outside) Toy.nhd "0601" (Some tt) None Toy.at_hand
  = Throw (Builtin ValueError).
Proof.
  apply (get_hydro_refuses_short_hint (E := Toy.outside) Toy.nhd "0601"
           (Some tt) None Toy.at_hand).
  - vm_compute. reflexivity.
  - left. simpl. lia.
Defined.

Lemma url_is_of_the_single_candidate_witness :
  exists url it,
    NHD._url (E := Toy.outside) Toy.wbd "06" Toy.at_hand = Return url /\
    NHD.picked "06" Toy.products it /\ NHD.downloadURL it = Some url.
Proof.
  assert (Hrun : exists url, NHD._url (E := Toy.outside) Toy.wbd "06"
                               Toy.at_hand = Return url)
    by (eexists; vm_compute; reflexivity).
  destruct Hrun as [url Hrun].
  destruct (url_is_of_the_single_candidate (E := Toy.outside) Toy.wbd "06"
              Toy.at_hand url Hrun) as (params & items & it & _ & Hget & Hp & _ & Hu & _).
  simpl in Hget. injection Hget as <-.
  exists url, it. auto.
Defined.

Lemma find_huc_recursion_is_bounded_witness :
  NHD.find_huc (E := Toy.outside) 1000 Toy.wbd "06" Toy.at_hand
  = NHD.find_huc (E := Toy.outside) 6 Toy.wbd "06" Toy.at_hand.
Proof.
  apply (find_huc_recursion_is_bounded (E := Toy.outside) Toy.wbd "06"
           Toy.at_hand 6 1000).
  - exact toy_layers_well_formed.
  - lia.
  - simpl. lia.
Defined.

(** On the small world the search ends at unit 0601, whose first unit of
    the next level touches the shape without holding it. *)
Lemma find_huc_on_the_small_world :
  exists w', NHD.find_huc (E := Toy.outside) 6 Toy.wbd "06" Toy.at_hand
             = Return ("0601"%string, w').
Proof. eexists. vm_compute. reflexivity. Qed.

(** ** The snap operation: what both phases keep *)

Section SnapKeepsStructures.

Context {G : Geometry}.

(** One call of [snap_endpoints]: the links of the river trees and the
    index of the pool. *)
Lemma snap_endpoints_structures (a a' : Tree.arena) (hucs hucs' : HUCs.t)
    (tree : nat) (tol : Q) :
  well_indexed hucs ->
  snap_endpoints a hucs tree tol = Ok (a', hucs') ->
  (length a' = length a /\
   forall m, Tree.parent_of a' m = Tree.parent_of a m /\
             Tree.children_of a' m = Tree.children_of a m) /\
  well_indexed hucs' /\
  extended (HUCs.boundaries hucs) (HUCs.boundaries hucs') /\
  extended (HUCs.intersections hucs) (HUCs.intersections hucs') /\
  (length (HUCs.segments hucs) <= length (HUCs.segments hucs'))%nat.
Proof.
  intros Hw. unfold snap_endpoints.
  destruct (snap_requests a hucs tree tol) as [[a1 to_add]|] eqn:Hreq; [|discriminate].
  cbn [rbind].
  destruct (rmapM _ (group_requests to_add)) as [dict2|] eqn:Hdd; [|discriminate].
  cbn [rbind].
  destruct (rfold (insert_points a1) hucs dict2) as [hucs2|] eqn:Hins; [|discriminate].
  cbn [rbind]. intros H. injection H as <- <-. split.
  - unfold snap_requests in Hreq.
    destruct (Tree.preOrder a tree) as [ns|]; [|discriminate]. cbn [rbind] in Hreq.
    destruct (snap_nodes_keep hucs tol ns _ _ _ _ Hreq) as (L & P & C & _).
    split; [exact L|]. intros m. split; [apply P|apply C].
  - apply (insert_loop_indexed a1 dict2 hucs hucs2 Hins Hw).
    intros h l' p Hin Hp.
    destruct (dedup_entries a1 _ _ Hdd) as (_ & Hback & _).
    destruct (Hback h l' Hin) as (vs & Hvs & Hd).
    destruct (dedup_spec a1 vs l' Hd) as (Hsub & _).
    destruct (group_requests_spec to_add) as [_ Hgrp].
    assert (Hp' : p ∈ to_add).
    { apply (Hgrp h p). exists vs. split; [exact Hvs|]. apply Hsub. exact Hp. }
    pose proof (snap_requests_components hucs tol a a1 tree to_add Hreq) as Hall.
    eapply Forall_forall in Hall; [exact Hall|exact Hp'].
Qed.

(** The loop of Phase 2 over the trees. *)
Lemma phase2_structures (rivers : list nat) (tol : Q) :
  forall (a a' : Tree.arena) (hucs hucs' : HUCs.t),
  well_indexed hucs ->
  phase2 a hucs rivers tol = Ok (a', hucs') ->
  (length a' = length a /\
   forall m, Tree.parent_of a' m = Tree.parent_of a m /\
             Tree.children_of a' m = Tree.children_of a m) /\
  well_indexed hucs' /\
  extended (HUCs.boundaries hucs) (HUCs.boundaries hucs') /\
  extended (HUCs.intersections hucs) (HUCs.intersections hucs') /\
  (length (HUCs.segments hucs) <= length (HUCs.segments hucs'))%nat.
Proof.
  unfold phase2. induction rivers as [|tree rivers IH]; intros a a' hucs hucs' Hw;
    cbn [rfold].
  - intros H. injection H as <- <-. split; [split; [reflexivity|auto]|].
    split; [exact Hw|]. split; [apply extended_refl|]. split; [apply extended_refl|lia].
  - cbn [fst snd].
    destruct (snap_endpoints a hucs tree tol) as [[a1 hucs1]|] eqn:H1; [|discriminate].
    cbn [rbind]. intros H.
    destruct (snap_endpoints_structures _ _ _ _ _ _ Hw H1)
      as ((L1 & K1) & W1 & B1 & I1 & S1).
    destruct (IH _ _ _ _ W1 H) as ((L2 & K2) & W2 & B2 & I2 & S2).
    split.
    { split; [lia|]. intros m. destruct (K1 m) as [P1 C1], (K2 m) as [P2 C2].
      split; congruence. }
    split; [exact W2|].
    split; [eapply extended_trans; eassumption|].
    split; [eapply extended_trans; eassumption|]. lia.
Qed.

(** Phase 1 replaces coordinates only. *)
Lemma snap_polygon_endpoints_indexed (a : Tree.arena) (hucs hucs' : HUCs.t)
    (rivers : list nat) (tol : Q) :
  well_indexed hucs ->
  snap_polygon_endpoints a hucs rivers tol = Ok hucs' ->
  well_indexed hucs' /\
  HUCs.boundaries hucs' = HUCs.boundaries hucs /\
  HUCs.intersections hucs' = HUCs.intersections hucs /\
  length (HUCs.segments hucs') = length (HUCs.segments hucs).
Proof.
  intros [Hnd Hin]. unfold snap_polygon_endpoints.
  destruct (river_endpoints a rivers) as [coords|]; [|discriminate]. cbn [rbind].
  destruct (cKDTree coords) as [kd|]; [|discriminate]. cbn [rbind].
  destruct (rmapM _ (HUCs.segments hucs)) as [segs|] eqn:Hsegs; [|discriminate].
  cbn [rbind]. intros H. injection H as <-.
  pose proof (rmapM_length _ _ _ Hsegs) as Hlen.
  split; [|auto]. split; [exact Hnd|].
  intros k. unfold listed_handles in *. cbn [HUCs.boundaries HUCs.intersections HUCs.segments].
  rewrite Hlen. apply Hin.
Qed.

(** X24.  Whatever [snap] returns, success or failure, it has only moved
    coordinates and cut boundary segments: the river trees have the nodes,
    the parents and the children they had, and a boundary whose pool was
    indexed (every handle listed by one component, once) still is, each
    component keeping the handles it had with new ones added at its end,
    and no segment having left the pool. *)
Theorem snap_keeps_structures (polygons : HUCs.t -> result unit)
    (a : Tree.arena) (hucs : HUCs.t) (rivers : list nat) (tol : Q)
    (tol_triples : option Q) (s : snapped) :
  well_indexed hucs ->
  snap polygons a hucs rivers tol tol_triples = Ok s ->
  length (sn_rivers s) = length a /\
  (forall m, Tree.parent_of (sn_rivers s) m = Tree.parent_of a m /\
             Tree.children_of (sn_rivers s) m = Tree.children_of a m) /\
  well_indexed (sn_hucs s) /\
  extended (HUCs.boundaries hucs) (HUCs.boundaries (sn_hucs s)) /\
  extended (HUCs.intersections hucs) (HUCs.intersections (sn_hucs s)) /\
  (length (HUCs.segments hucs) <= length (HUCs.segments (sn_hucs s)))%nat.
Proof.
  intros Hw. unfold snap.
  destruct (negb (rivers_consistent a rivers)); [discriminate|].
  destruct (polygons hucs); [|discriminate]. cbn [rbind].
  assert (Hsame : forall h : HUCs.t, well_indexed h ->
            HUCs.boundaries h = HUCs.boundaries hucs ->
            HUCs.intersections h = HUCs.intersections hucs ->
            length (HUCs.segments h) = length (HUCs.segments hucs) ->
            length a = length a /\
            (forall m, Tree.parent_of a m = Tree.parent_of a m /\
                       Tree.children_of a m = Tree.children_of a m) /\
            well_indexed h /\
            extended (HUCs.boundaries hucs) (HUCs.boundaries h) /\
            extended (HUCs.intersections hucs) (HUCs.intersections h) /\
            (length (HUCs.segments hucs) <= length (HUCs.segments h))%nat).
  { intros h Hh Hb Hi Hl. rewrite Hb, Hi, Hl.
    repeat split; auto using extended_refl; try apply Hh.
    all: try apply extended_refl. }
  destruct (length rivers =? 0)%nat.
  { intros H. injection H as <-. cbn [sn_rivers sn_hucs]. apply Hsame; auto. }
  destruct (snap_polygon_endpoints a hucs rivers _) as [hucs1|] eqn:H1; [|discriminate].
  cbn [rbind].
  destruct (snap_polygon_endpoints_indexed _ _ _ _ _ Hw H1) as (W1 & B1 & I1 & L1).
  destruct (recheck polygons a hucs1 rivers) as [[msg|]|]; [| |discriminate]; cbn [rbind].
  { intros H. injection H as <-. cbn [sn_rivers sn_hucs]. apply Hsame; auto. }
  destruct (phase2 a hucs1 rivers tol) as [[a2 hucs2]|] eqn:H2; [|discriminate].
  cbn [rbind].
  destruct (phase2_structures _ _ _ _ _ _ W1 H2) as ((L2 & K2) & W2 & B2 & I2 & S2).
  rewrite B1 in B2. rewrite I1 in I2. rewrite L1 in S2.
  destruct (recheck polygons a2 hucs2 rivers) as [[msg|]|]; [| |discriminate];
    cbn [rbind]; intros H; injection H as <-; cbn [sn_rivers sn_hucs];
    repeat (split; [assumption|]); assumption.
Qed.

End SnapKeepsStructures.

Lemma snap_keeps_structures_witness :
  exists s,
    snap (G := Planar.geometry) (fun _ => Ok tt) two_inlets_before hucs_line
         [0%nat] (1 # 10) None = Ok s /\
    length (sn_rivers s) = 3%nat /\
    well_indexed (sn_hucs s).
Proof.
  assert (Hrun : exists s, snap (G := Planar.geometry) (fun _ => Ok tt)
                             two_inlets_before hucs_line [0%nat] (1 # 10) None = Ok s)
    by (eexists; vm_compute; reflexivity).
  destruct Hrun as [s Hrun].
  destruct (snap_keeps_structures (G := Planar.geometry) (fun _ => Ok tt)
              two_inlets_before hucs_line [0%nat] (1 # 10) None s
              hucs_line_indexed Hrun) as (L & _ & W & _).
  exists s. auto.
Defined.
